(** * QSimulateX: a shallow embedding of the simulation core

    The development follows the Python package [quantum_simulator]:
    [gates.py] (gate library and operator expansion), [sparse_utils.py],
    [qubit.py], [circuits.py] (the simulation engine), [optimizer.py]
    (the rewrite rules), [measure.py] and [tensor_networks.py].

    Conventions of the embedding.
    - A Python [float] is idealised as a real number of [R]; a Python
      [complex] is a pair of reals.  Every statement about a tolerance is
      therefore a statement about exact real arithmetic.
    - A numpy vector is a [list C]; a two-dimensional numpy array is the list
      of its rows.
    - A Python exception is a value of [exn]; a function that may raise
      returns a [result].
    - [GateNode] objects live in a store, gate lists are lists of
      references into it, so that aliasing between the caller's list and the
      optimizer's lists is visible. *)

From Stdlib Require Import Reals Lra Lia ZArith List String Ascii Bool.
From Stdlib Require Import Zfloor RNsatz.
From stdpp Require Import base list.
Import ListNotations.

(** ** Complex numbers *)

Module Cx.

Local Open Scope R_scope.

Definition C : Type := (R * R)%type.

Definition RtoC (x : R) : C := (x, 0).
Definition C0 : C := (0, 0).
Definition C1 : C := (1, 0).
Definition Ci : C := (0, 1).

Definition Cplus (a b : C) : C := (fst a + fst b, snd a + snd b).
Definition Copp (a : C) : C := (- fst a, - snd a).
Definition Cminus (a b : C) : C := Cplus a (Copp b).
Definition Cmult (a b : C) : C :=
  (fst a * fst b - snd a * snd b, fst a * snd b + snd a * fst b).

(** [z / r] for a real [r], as in [array / np.sqrt(2)]. *)
Definition Cdiv_real (a : C) (r : R) : C := (fst a / r, snd a / r).

(** [np.exp(1j * t)] for a real [t]. *)
Definition Cexp_i (t : R) : C := (cos t, sin t).

(** [abs(z) ** 2]. *)
Definition Cmod2 (a : C) : R := fst a * fst a + snd a * snd a.

End Cx.
Export Cx.

(** ** Exceptions *)

(** The exceptions the core raises.  [UnknownGate] is the [ValueError] of
    [get_gate]; [UnsupportedTopology] the [NotImplementedError] of
    [apply_two_qubit_gate]; [UnsupportedArity] the [NotImplementedError] of
    [QuantumCircuit.run]; [ShapeMismatch] the [ValueError] numpy and scipy
    raise on incompatible shapes (product, reshape); [IndexError] is
    Python's; [ChoiceValueError] is the [ValueError] of
    [np.random.choice] for a [p] that does not sum to 1 or an empty
    population; [NegativeShiftCount] the [ValueError] of [>>] on Python
    integers; [TypeError] the one of a call that receives a parameter
    twice. *)
Inductive exn : Type :=
| UnknownGate (name : string)
| UnsupportedTopology
| UnsupportedArity (k : nat)
| ShapeMismatch
| IndexError
| ChoiceValueError
| NegativeShiftCount
| TypeError.

(** The outcome of a call: a value, a raised exception, or [OutOfFuel] when
    a [while] loop of the model has used up its fuel.  [OutOfFuel] is not a
    Python outcome; each loop below is given a fuel for which it is shown
    not to occur (for [_commute_gates], on references into the store). *)
Inductive result (A : Type) : Type :=
| Ok (a : A)
| Raise (e : exn)
| OutOfFuel.
Arguments Ok {A} a.
Arguments Raise {A} e.
Arguments OutOfFuel {A}.

Definition rbind {A B} (r : result A) (k : A -> result B) : result B :=
  match r with
  | Ok a => k a
  | Raise e => Raise e
  | OutOfFuel => OutOfFuel
  end.

Notation "'try' x <- r 'in' k" := (rbind r (fun x => k))
  (at level 10, x name, r at level 100, k at level 200).

(** ** Vectors and matrices (numpy arrays) *)

Abbreviation vector := (list C).
Abbreviation Matrix := (list (list C)).

(** [range(lo, hi)] over Python integers. *)
Definition range (lo hi : Z) : list Z :=
  map (fun k => (lo + Z.of_nat k)%Z) (seq 0 (Z.to_nat (hi - lo))).

(** [range(0, hi, 2)]. *)
Definition range_step2 (hi : Z) : list Z :=
  map (fun k => (2 * Z.of_nat k)%Z) (seq 0 (Z.to_nat ((hi + 1) / 2))).

Fixpoint dot (r v : vector) : C :=
  match r, v with
  | a :: r', b :: v' => Cplus (Cmult a b) (dot r' v')
  | _, _ => C0
  end.

Definition nrows (M : Matrix) : nat := length M.
Definition ncols (M : Matrix) : nat := length (hd [] M).

(** Row [i] of [np.eye(k)]. *)
Definition eye_row (k i : nat) : vector :=
  map (fun j => if Nat.eqb i j then C1 else C0) (seq 0 k).

(** [np.eye(k, dtype=complex)]. *)
Definition eye (k : nat) : Matrix := map (eye_row k) (seq 0 k).

(** One row of [np.kron(A, B)]: the row [ra] of [A] against the row [rb] of
    [B]. *)
Definition kron_row (ra rb : vector) : vector :=
  flat_map (fun a => map (Cmult a) rb) ra.

(** [np.kron(A, B)] for two-dimensional arrays. *)
Definition kron (A B : Matrix) : Matrix :=
  flat_map (fun ra => map (kron_row ra) B) A.

(** The matrix-vector product, rows against the vector. *)
Definition matvec (M : Matrix) (v : vector) : vector :=
  map (fun r => dot r v) M.

(** [np.dot(M, v)] (and [M.dot(v)] of scipy): the inner dimensions must
    agree. *)
Definition np_dot (M : Matrix) (v : vector) : result vector :=
  if Nat.eqb (ncols M) (length v) then Ok (matvec M v) else Raise ShapeMismatch.

(** [np.sum(np.abs(v) ** 2)], the squared norm. *)
Definition normsq (v : vector) : R :=
  fold_right (fun a s => (Cmod2 a + s)%R) 0%R v.

(** ** The gate library ([gates.py]) *)

Section GateLibrary.
Local Open Scope R_scope.

Definition pauli_x : Matrix := [[C0; C1]; [C1; C0]].

Definition pauli_y : Matrix := [[C0; Copp Ci]; [Ci; C0]].

Definition pauli_z : Matrix := [[C1; C0]; [C0; Copp C1]].

Definition hadamard : Matrix :=
  map (map (fun z => Cdiv_real z (sqrt 2))) [[C1; C1]; [C1; Copp C1]].

Definition t_gate : Matrix := [[C1; C0]; [C0; Cexp_i (PI / 4)]].

Definition s_gate : Matrix := [[C1; C0]; [C0; Ci]].

Definition rx (theta : R) : Matrix :=
  [[RtoC (cos (theta / 2)); Cmult (Copp Ci) (RtoC (sin (theta / 2)))];
   [Cmult (Copp Ci) (RtoC (sin (theta / 2))); RtoC (cos (theta / 2))]].

Definition ry (theta : R) : Matrix :=
  [[RtoC (cos (theta / 2)); RtoC (- sin (theta / 2))];
   [RtoC (sin (theta / 2)); RtoC (cos (theta / 2))]].

Definition rz (theta : R) : Matrix :=
  [[Cexp_i (- theta / 2); C0];
   [C0; Cexp_i (theta / 2)]].

Definition phase (phi : R) : Matrix := [[C1; C0]; [C0; Cexp_i phi]].

Definition cnot : Matrix :=
  [[C1; C0; C0; C0];
   [C0; C1; C0; C0];
   [C0; C0; C0; C1];
   [C0; C0; C1; C0]].

Definition cz : Matrix :=
  [[C1; C0; C0; C0];
   [C0; C1; C0; C0];
   [C0; C0; C1; C0];
   [C0; C0; C0; Copp C1]].

Definition swap : Matrix :=
  [[C1; C0; C0; C0];
   [C0; C0; C1; C0];
   [C0; C1; C0; C0];
   [C0; C0; C0; C1]].

(** [gate[r, c] = x] on a two-dimensional array. *)
Definition mat_set (M : Matrix) (r c : nat) (x : C) : Matrix :=
  match M !! r with
  | Some row => <[r := <[c := x]> row]> M
  | None => M
  end.

Definition toffoli : Matrix :=
  let gate := eye 8 in
  let gate := mat_set gate 6 6 C0 in
  let gate := mat_set gate 7 7 C0 in
  let gate := mat_set gate 6 7 C1 in
  mat_set gate 7 6 C1.

End GateLibrary.

(** A [**params] dictionary. *)
Abbreviation params_t := (list (string * R)).

(** [params.get(key, 0)]. *)
Fixpoint params_get (params : params_t) (key : string) : R :=
  match params with
  | [] => 0%R
  | (k, v) :: rest => if String.eqb k key then v else params_get rest key
  end.

(** [GATE_MAP]: the gates without parameters. *)
Definition GATE_MAP (gate_name : string) : option Matrix :=
  if String.eqb gate_name "X" then Some pauli_x
  else if String.eqb gate_name "Y" then Some pauli_y
  else if String.eqb gate_name "Z" then Some pauli_z
  else if String.eqb gate_name "H" then Some hadamard
  else if String.eqb gate_name "T" then Some t_gate
  else if String.eqb gate_name "S" then Some s_gate
  else if String.eqb gate_name "CNOT" then Some cnot
  else if String.eqb gate_name "CZ" then Some cz
  else if String.eqb gate_name "SWAP" then Some swap
  else if String.eqb gate_name "TOFFOLI" then Some toffoli
  else None.

Definition get_gate (gate_name : string) (params : params_t) : result Matrix :=
  match GATE_MAP gate_name with
  | Some gate => Ok gate
  | None =>
      if String.eqb gate_name "RX" then Ok (rx (params_get params "theta"))
      else if String.eqb gate_name "RY" then Ok (ry (params_get params "theta"))
      else if String.eqb gate_name "RZ" then Ok (rz (params_get params "theta"))
      else if String.eqb gate_name "PHASE" then Ok (phase (params_get params "phi"))
      else Raise (UnknownGate gate_name)
  end.

(** ** Operator expansion ([gates.py], [sparse_utils.py]) *)

(** A scipy [csr_matrix] is represented by the array it denotes:
    [csr_matrix(a)], [sparse_identity], [sparse_kron] and [.dot] are scipy's,
    with the meaning of their dense counterparts. *)
Record csr_matrix : Type := CSR { toarray : Matrix }.

Definition sparse_identity (k : nat) : csr_matrix := CSR (eye k).
Definition sparse_kron (a b : csr_matrix) : csr_matrix :=
  CSR (kron (toarray a) (toarray b)).

(** What the expansion functions return: [Union[np.ndarray, csr_matrix]]. *)
Inductive operator : Type :=
| Dense (m : Matrix)
| Sparse (m : csr_matrix).

Definition operator_array (op : operator) : Matrix :=
  match op with
  | Dense m => m
  | Sparse m => toarray m
  end.

Definition apply_single_qubit_gate (gate : Matrix) (qubit_index : Z) (n_qubits : nat)
    (use_sparse : bool) : operator :=
  if use_sparse then
    let identity := sparse_identity 2 in
    let gate_sparse := CSR gate in
    let result := if (qubit_index =? 0)%Z then gate_sparse else identity in
    Sparse
      (fold_left
         (fun result i =>
            if (i =? qubit_index)%Z then sparse_kron result gate_sparse
            else sparse_kron result identity)
         (range 1 (Z.of_nat n_qubits)) result)
  else
    let identity := eye 2 in
    let result := if (qubit_index =? 0)%Z then gate else identity in
    Dense
      (fold_left
         (fun result i =>
            if (i =? qubit_index)%Z then kron result gate
            else kron result identity)
         (range 1 (Z.of_nat n_qubits)) result).

(** The first loop of the sparse branch of [apply_two_qubit_gate]:
    [for i in range(0, n_qubits, 2)], left by [break] once the gate is
    placed. *)
Fixpoint sparse_place (idxs : list Z) (min_idx : Z) (gate_sparse identity result : csr_matrix)
    : csr_matrix :=
  match idxs with
  | [] => result
  | i :: rest =>
      if (i =? min_idx)%Z then sparse_kron result gate_sparse
      else sparse_place rest min_idx gate_sparse identity (sparse_kron result identity)
  end.

Definition apply_two_qubit_gate (gate : Matrix) (control target : Z) (n_qubits : nat)
    (use_sparse : bool) : result operator :=
  if negb (Z.abs (control - target) =? 1)%Z then Raise UnsupportedTopology
  else if use_sparse then
    let identity := sparse_identity 2 in
    let gate_sparse := CSR gate in
    let min_idx := Z.min control target in
    let result := sparse_identity 1 in
    let result :=
      sparse_place (range_step2 (Z.of_nat n_qubits)) min_idx gate_sparse identity result in
    let result :=
      fold_left (fun result _ => sparse_kron result identity)
        (range (min_idx + 2) (Z.of_nat n_qubits)) result in
    Ok (Sparse result)
  else
    let identity := eye 2 in
    let min_idx := Z.min control target in
    let result := eye 1 in
    let result :=
      fold_left (fun result _ => kron result identity) (range 0 min_idx) result in
    let result := kron result gate in
    let result :=
      fold_left (fun result _ => kron result identity)
        (range (min_idx + 2) (Z.of_nat n_qubits)) result in
    Ok (Dense result).

(** [sparse_state_vector_product]: both branches are a checked product. *)
Definition sparse_state_vector_product (matrix : operator) (state : vector)
    : result vector :=
  match matrix with
  | Sparse m => np_dot (toarray m) state
  | Dense m => np_dot m state
  end.

(** [should_use_sparse(n_qubits, gate_sparsity)]; the engine calls it with
    the default [gate_sparsity = 0.5]. *)
Definition should_use_sparse (n_qubits : nat) (gate_sparsity : R) : bool :=
  (10 <? n_qubits)%nat || (if Rlt_dec (7 / 10) gate_sparsity then true else false).

(** ** States ([qubit.py]) *)

(** [create_multi_qubit_state(n_qubits, state)] for an integer [state]. *)
Definition create_multi_qubit_state (n_qubits : nat) (state_index : nat)
    : result vector :=
  let state_vector := replicate (2 ^ n_qubits) C0 in
  if (state_index <? 2 ^ n_qubits)%nat then Ok (<[state_index := C1]> state_vector)
  else Raise IndexError.

(** ** The circuit optimizer ([optimizer.py]) *)

Record GateNode : Type := mkGateNode {
  gate_name : string;
  qubits : list Z;
  params : params_t;
  depth : Z
}.

(** [a % m] on Python floats, for a positive modulus. *)
Definition py_mod (a m : R) : R := (a - m * IZR (Zfloor (a / m)))%R.

(** [inverse_pairs.get(name)]. *)
Definition inverse_pairs (name : string) : option string :=
  if String.eqb name "X" then Some "X"%string
  else if String.eqb name "Y" then Some "Y"%string
  else if String.eqb name "Z" then Some "Z"%string
  else if String.eqb name "H" then Some "H"%string
  else if String.eqb name "CNOT" then Some "CNOT"%string
  else None.

(** [name in rotation_gates]. *)
Definition rotation_gates (name : string) : bool :=
  String.eqb name "RX" || String.eqb name "RY" || String.eqb name "RZ".

(** [set(qs1).isdisjoint(set(qs2))]. *)
Definition isdisjoint (qs1 qs2 : list Z) : bool :=
  forallb (fun q => negb (existsb (Z.eqb q) qs2)) qs1.

(** The rules read the gate records through the references held in the
    list.  They are written once, for any type [A] of references and the
    function [view] that reads the record behind a reference. *)
Section Rules.
Context {A : Type} (view : A -> GateNode).

(** The test of [_cancel_inverse_gates] once [gates[i + 1]] exists. *)
Definition is_inverse_of (gate next : GateNode) : bool :=
  match inverse_pairs (gate_name gate) with
  | Some inv =>
      String.eqb (gate_name next) inv && bool_decide (qubits gate = qubits next)
  | None => false
  end.

(** The [while i < len(gates)] loop of [_cancel_inverse_gates]. *)
Fixpoint cancel_while (fuel : nat) (gates : list A) (i : nat) (optimized : list A)
    : result (list A) :=
  match fuel with
  | O => OutOfFuel
  | S fuel' =>
      match gates !! i with
      | None => Ok optimized
      | Some gate =>
          let next_is_inverse :=
            match gates !! (i + 1) with
            | Some next => is_inverse_of (view gate) (view next)
            | None => false
            end in
          if next_is_inverse then cancel_while fuel' gates (i + 2) optimized
          else cancel_while fuel' gates (i + 1) (optimized ++ [gate])
      end
  end.

Definition _cancel_inverse_gates (gates : list A) : result (list A) :=
  cancel_while (S (length gates)) gates 0 [].

(** The inner [while] of [_merge_rotation_gates]: extends the run from [j]
    and accumulates the angle. *)
Fixpoint merge_scan (fuel : nat) (gates : list A) (gate : GateNode) (j : nat)
    (total_angle : R) : result (nat * R) :=
  match fuel with
  | O => OutOfFuel
  | S fuel' =>
      match gates !! j with
      | Some gj =>
          if String.eqb (gate_name (view gj)) (gate_name gate)
             && bool_decide (qubits (view gj) = qubits gate)
          then merge_scan fuel' gates gate (j + 1)
                 (total_angle + params_get (params (view gj)) "theta")%R
          else Ok (j, total_angle)
      | None => Ok (j, total_angle)
      end
  end.

(** The gate [_merge_rotation_gates] builds for a run, if any. *)
Definition merged_gate (gate : GateNode) (total_angle : R) : option GateNode :=
  if Rgt_dec (Rabs (py_mod total_angle (2 * PI))) (1 / 10 ^ 10)
  then Some {| gate_name := gate_name gate;
               qubits := qubits gate;
               params := [("theta"%string, py_mod total_angle (2 * PI))];
               depth := depth gate |}
  else None.

(** The outer [while] of [_merge_rotation_gates].  The output list holds
    [inl r] where the loop appends the reference [r] it read from the
    input, and [inr g] where it appends a newly built record [g]. *)
Fixpoint merge_while (fuel : nat) (gates : list A) (i : nat)
    (optimized : list (A + GateNode)) : result (list (A + GateNode)) :=
  match fuel with
  | O => OutOfFuel
  | S fuel' =>
      match gates !! i with
      | None => Ok optimized
      | Some g =>
          let gate := view g in
          if rotation_gates (gate_name gate) && (length (qubits gate) =? 1)%nat then
            try scan <- merge_scan (S (length gates)) gates gate (i + 1)
                          (params_get (params gate) "theta") in
            let optimized :=
              match merged_gate gate (snd scan) with
              | Some merged => optimized ++ [inr merged]
              | None => optimized
              end in
            merge_while fuel' gates (fst scan) optimized
          else merge_while fuel' gates (i + 1) (optimized ++ [inl g])
      end
  end.

Definition _merge_rotation_gates (gates : list A) : result (list (A + GateNode)) :=
  merge_while (S (length gates)) gates 0 [].

End Rules.

(** The store of [GateNode] objects: a reference is an index into it. *)
Abbreviation heap := (list GateNode).
Abbreviation ref := nat (only parsing).

Definition null_gate : GateNode :=
  {| gate_name := EmptyString; qubits := []; params := []; depth := 0 |}.

Definition deref (h : heap) (r : ref) : GateNode := default null_gate (h !! r).

(** [GateNode(...)]: a new object. *)
Definition alloc (h : heap) (g : GateNode) : heap * ref := (h ++ [g], length h).

(** [gate.depth = d] on the object behind [r]. *)
Definition set_depth (h : heap) (r : ref) (d : Z) : heap :=
  match h !! r with
  | Some g => <[r := {| gate_name := gate_name g; qubits := qubits g;
                        params := params g; depth := d |}]> h
  | None => h
  end.

(** Stores the new records of a rule's output and yields the list of
    references. *)
Fixpoint alloc_all (h : heap) (out : list (ref + GateNode)) : heap * list ref :=
  match out with
  | [] => (h, [])
  | inl r :: rest =>
      let (h', rs) := alloc_all h rest in (h', r :: rs)
  | inr g :: rest =>
      let (h1, r) := alloc h g in
      let (h', rs) := alloc_all h1 rest in (h', r :: rs)
  end.

(** One iteration of the [for] loop of [_commute_gates]. *)
Definition commute_step (optimized : list ref) (st : heap * bool) (i : nat)
    : heap * bool :=
  let (h, changed) := st in
  match optimized !! i, optimized !! (i + 1) with
  | Some r1, Some r2 =>
      let gate1 := deref h r1 in
      let gate2 := deref h r2 in
      if isdisjoint (qubits gate1) (qubits gate2) && (depth gate1 <? depth gate2)%Z
      then (set_depth h r2 (depth gate1), true)
      else (h, changed)
  | _, _ => (h, changed)
  end.

(** [for i in range(len(optimized) - 1)], started with [changed = False]. *)
Definition commute_pass (h : heap) (optimized : list ref) : heap * bool :=
  fold_left (commute_step optimized) (seq 0 (length optimized - 1)) (h, false).

(** [while changed]. *)
Fixpoint commute_while (fuel : nat) (h : heap) (optimized : list ref) : result heap :=
  match fuel with
  | O => OutOfFuel
  | S fuel' =>
      let (h', changed) := commute_pass h optimized in
      if changed then commute_while fuel' h' optimized else Ok h'
  end.

(** The sum of the depths above the least one: every pass that changes a
    depth lowers it. *)
Definition depth_excess (h : heap) : nat :=
  match h with
  | [] => 0
  | g :: rest =>
      let least := fold_right Z.min (depth g) (map depth rest) in
      Z.to_nat (fold_right Z.add 0%Z (map (fun g => (depth g - least)%Z) h))
  end.

Definition _commute_gates (h : heap) (gates : list ref) : result (heap * list ref) :=
  let optimized := gates in
  try h' <- commute_while (S (depth_excess h)) h optimized in
  Ok (h', optimized).

(** [self.optimization_rules[rule_name](optimized)], when the name is
    registered. *)
Definition apply_rule (rule_name : string) (h : heap) (optimized : list ref)
    : result (heap * list ref) :=
  if String.eqb rule_name "cancel_inverse" then
    try out <- _cancel_inverse_gates (deref h) optimized in Ok (h, out)
  else if String.eqb rule_name "merge_rotations" then
    try out <- _merge_rotation_gates (deref h) optimized in Ok (alloc_all h out)
  else if String.eqb rule_name "commute_gates" then
    _commute_gates h optimized
  else Ok (h, optimized).

Definition default_rules : list string :=
  ["cancel_inverse"; "merge_rotations"; "commute_gates"]%string.

(** [CircuitOptimizer.optimize(gates, rules)]. *)
Definition optimize (h : heap) (gates : list ref) (rules : option (list string))
    : result (heap * list ref) :=
  let rules := default default_rules rules in
  let optimized := gates in
  fold_left
    (fun acc rule_name =>
       try st <- acc in apply_rule rule_name (fst st) (snd st))
    rules (Ok (h, optimized)).

(** ** The tensor-contraction backend ([tensor_networks.py]) *)

(** A tensor whose axes all have size 2 is its flattened (row-major) list of
    entries; a multi-index is a list of bits, first axis first. *)
Definition flat_index (bits : list nat) : nat :=
  fold_left (fun acc b => 2 * acc + b) bits 0.

(** All multi-indices over [k] axes, in row-major order. *)
Fixpoint all_bits (k : nat) : list (list nat) :=
  match k with
  | O => [[]]
  | S k' => flat_map (fun b => map (cons b) (all_bits k')) [0; 1]
  end.

(** The value of an index label under an assignment of bits to labels. *)
Fixpoint label_bit (env : list (Z * nat)) (label : Z) : nat :=
  match env with
  | [] => 0
  | (l, b) :: rest => if (l =? label)%Z then b else label_bit rest label
  end.

Definition labels_nodup (ls : list Z) : list Z :=
  fold_right (fun l acc => if existsb (Z.eqb l) acc then acc else l :: acc) [] ls.

(** [oe.contract(a, a_idx, b, b_idx, out_idx)] of opt_einsum, for operands
    whose axes all have size 2: the Einstein summation over the labels that
    are not output labels.  An output label absent from both operands is
    refused. *)
Definition oe_contract (a : vector) (a_idx : list Z) (b : vector) (b_idx : list Z)
    (out_idx : list Z) : result vector :=
  let inputs := a_idx ++ b_idx in
  if negb (forallb (fun l => existsb (Z.eqb l) inputs) out_idx)
  then Raise ShapeMismatch
  else
    let summed :=
      labels_nodup (filter (fun l => negb (existsb (Z.eqb l) out_idx)) inputs) in
    Ok (map
          (fun out_bits =>
             fold_right Cplus C0
               (map
                  (fun sum_bits =>
                     let env := combine (out_idx ++ summed) (out_bits ++ sum_bits) in
                     Cmult
                       (nth (flat_index (map (label_bit env) a_idx)) a C0)
                       (nth (flat_index (map (label_bit env) b_idx)) b C0))
                  (all_bits (length summed))))
          (all_bits (length out_idx))).

(** [state_indices[q_idx] = v] on a Python list of length [n]: negative
    indices count from the end, others raise [IndexError]. *)
Definition py_list_set (l : list Z) (idx : Z) (v : Z) : result (list Z) :=
  let n := Z.of_nat (length l) in
  if ((0 <=? idx) && (idx <? n))%Z then Ok (<[Z.to_nat idx := v]> l)
  else if ((- n <=? idx) && (idx <? 0))%Z then Ok (<[Z.to_nat (n + idx) := v]> l)
  else Raise IndexError.

(** [apply_gate_tensor(state_tensor, gate, qubit_indices)] on a state tensor
    of rank [n_qubits]. *)
Definition apply_gate_tensor (n_qubits : nat) (state_tensor : vector) (gate : Matrix)
    (qubit_indices : list Z) : result vector :=
  let n_gate_qubits := length qubit_indices in
  (* gate.reshape([2] * (2 * n_gate_qubits)) *)
  let gate_tensor := concat gate in
  if negb (length gate_tensor =? 2 ^ (2 * n_gate_qubits))%nat then Raise ShapeMismatch
  else
    let n := Z.of_nat n_qubits in
    let state_indices := range 0 n in
    let gate_in_indices := map (fun i => (n + i)%Z) (range 0 (Z.of_nat n_gate_qubits)) in
    let gate_out_indices := qubit_indices in
    try state_indices <-
        fold_left
          (fun acc iq => try l <- acc in py_list_set l (snd iq) (n + fst iq)%Z)
          (combine (range 0 (Z.of_nat n_gate_qubits)) qubit_indices)
          (Ok state_indices) in
    let output_indices := range 0 n in
    oe_contract state_tensor state_indices gate_tensor
      (gate_out_indices ++ gate_in_indices) output_indices.

(** [tensor_network_simulator(n_qubits, gates)] with [use_mps=False], the
    only way the engine calls it. *)
Definition tensor_network_simulator (n_qubits : nat) (gates : list (Matrix * list Z))
    : result vector :=
  let state_tensor := <[0 := C1]> (replicate (2 ^ n_qubits) C0) in
  fold_left
    (fun acc gq =>
       try state_tensor <- acc in
       apply_gate_tensor n_qubits state_tensor (fst gq) (snd gq))
    gates (Ok state_tensor).

(** ** The simulation engine ([circuits.py]) *)

Record QuantumCircuit : Type := mkCircuit {
  n_qubits : nat;
  use_sparse : bool;
  use_tensor_network : bool;
  state : vector;
  gates : list ref
}.

Definition set_state (self : QuantumCircuit) (st : vector) : QuantumCircuit :=
  {| n_qubits := n_qubits self; use_sparse := use_sparse self;
     use_tensor_network := use_tensor_network self; state := st;
     gates := gates self |}.

(** [QuantumCircuit(n_qubits, use_sparse, use_tensor_network)];
    [use_sparse = None] asks for the automatic choice. *)
Definition QuantumCircuit_init (n : nat) (sparse : option bool) (tensor_network : bool)
    : result QuantumCircuit :=
  let sparse :=
    match sparse with
    | None => should_use_sparse n (5 / 10)
    | Some b => b
    end in
  try st <- create_multi_qubit_state n 0 in
  Ok {| n_qubits := n; use_sparse := sparse; use_tensor_network := tensor_network;
        state := st; gates := [] |}.

(** [self.add_gate(gate_name, qubits, **params)]: a new record, appended. *)
Definition add_gate (w : heap * QuantumCircuit) (name : string) (qs : list Z)
    (ps : params_t) : heap * QuantumCircuit :=
  let (h, self) := w in
  let (h', gate_node) :=
    alloc h {| gate_name := name; qubits := qs; params := ps; depth := 0 |} in
  (h', {| n_qubits := n_qubits self; use_sparse := use_sparse self;
          use_tensor_network := use_tensor_network self; state := state self;
          gates := gates self ++ [gate_node] |}).

(** A gate as the interchange format gives it: name, targets, parameters. *)
Abbreviation gate_data := (string * list Z * params_t)%type.

(** A sequence of [add_gate] calls. *)
Definition add_gates (w : heap * QuantumCircuit) (data : list gate_data)
    : heap * QuantumCircuit :=
  fold_left (fun w d => add_gate w (fst (fst d)) (snd (fst d)) (snd d)) data w.

(** The body of the state-vector loop of [run] for one gate. *)
Definition apply_gate_node (n : nat) (sparse : bool) (gate_node : GateNode)
    (st : vector) : result vector :=
  try gate_matrix <- get_gate (gate_name gate_node) (params gate_node) in
  try full_gate <-
      match qubits gate_node with
      | [q] => Ok (apply_single_qubit_gate gate_matrix q n sparse)
      | [q0; q1] => apply_two_qubit_gate gate_matrix q0 q1 n sparse
      | qs => Raise (UnsupportedArity (length qs))
      end in
  sparse_state_vector_product full_gate st.

(** The state-vector loop of [run]: [self.state] is assigned after every
    gate, so the second component is the session's vector when the loop
    ends or an exception leaves it. *)
Fixpoint sv_loop (n : nat) (sparse : bool) (gates_to_run : list GateNode)
    (st : vector) : result unit * vector :=
  match gates_to_run with
  | [] => (Ok tt, st)
  | gate_node :: rest =>
      match apply_gate_node n sparse gate_node st with
      | Ok st' => sv_loop n sparse rest st'
      | Raise e => (Raise e, st)
      | OutOfFuel => (OutOfFuel, st)
      end
  end.

(** The first loop of the tensor-network branch of [run]. *)
Fixpoint tn_gate_tuples (gates_to_run : list GateNode) : result (list (Matrix * list Z)) :=
  match gates_to_run with
  | [] => Ok []
  | gate_node :: rest =>
      try gate_matrix <- get_gate (gate_name gate_node) (params gate_node) in
      try tuples <- tn_gate_tuples rest in
      Ok ((gate_matrix, qubits gate_node) :: tuples)
  end.

(** [self.run(optimize)]: the store and the session after the call, and
    what the call returned or raised. *)
Definition run (optimize_flag : bool) (h : heap) (self : QuantumCircuit)
    : heap * QuantumCircuit * result vector :=
  let gates_to_run := gates self in
  match (if optimize_flag then optimize h gates_to_run None
         else Ok (h, gates_to_run)) with
  | Raise e => (h, self, Raise e)
  | OutOfFuel => (h, self, OutOfFuel)
  | Ok (h, gates_to_run) =>
      let nodes := map (deref h) gates_to_run in
      if use_tensor_network self then
        match (try gate_tuples <- tn_gate_tuples nodes in
               tensor_network_simulator (n_qubits self) gate_tuples) with
        | Ok st => (h, set_state self st, Ok st)
        | Raise e => (h, self, Raise e)
        | OutOfFuel => (h, self, OutOfFuel)
        end
      else
        match create_multi_qubit_state (n_qubits self) 0 with
        | Ok st0 =>
            let (outcome, st) := sv_loop (n_qubits self) (use_sparse self) nodes st0 in
            (h, set_state self st,
             match outcome with
             | Ok _ => Ok st
             | Raise e => Raise e
             | OutOfFuel => OutOfFuel
             end)
        | Raise e => (h, self, Raise e)
        | OutOfFuel => (h, self, OutOfFuel)
        end
  end.


(** ** Measurement ([measure.py]) *)

(** [np.abs(state) ** 2]. *)
Definition get_probabilities (st : vector) : list R := map Cmod2 st.

(** The binary digits of a positive number, most significant first, put in
    front of [acc]. *)
Fixpoint pos_bin (p : positive) (acc : string) : string :=
  match p with
  | xH => String "1" acc
  | xO p' => pos_bin p' (String "0" acc)
  | xI p' => pos_bin p' (String "1" acc)
  end.

Fixpoint zeros (k : nat) : string :=
  match k with
  | O => EmptyString
  | S k' => String "0" (zeros k')
  end.

(** [format(outcome, f'0{width}b')] for a basis index. *)
Definition format_0b (width : nat) (outcome : nat) : string :=
  let digits :=
    match N.of_nat outcome with
    | N0 => "0"%string
    | Npos p => pos_bin p EmptyString
    end in
  (zeros (width - String.length digits) ++ digits)%string.

(** [counts[key] = counts.get(key, 0) + 1] on a dictionary kept in insertion
    order. *)
Fixpoint count_incr (counts : list (string * nat)) (key : string) : list (string * nat) :=
  match counts with
  | [] => [(key, 1)]
  | (k, c) :: rest =>
      if String.eqb k key then (k, S c) :: rest else (k, c) :: count_incr rest key
  end.

(** [measure_counts(state, shots)], given the [outcomes] that
    [np.random.choice] drew. *)
Definition measure_counts (st : vector) (outcomes : list nat) : list (string * nat) :=
  let n_qubits := Nat.log2 (length st) in
  fold_left (fun counts outcome => count_incr counts (format_0b n_qubits outcome))
    outcomes [].

(** [collapse_state(state, outcome)]. *)
Definition collapse_state (st : vector) (outcome : nat) : result vector :=
  if (outcome <? length st)%nat
  then Ok (<[outcome := C1]> (replicate (length st) C0))
  else Raise IndexError.

Fixpoint insert_sorted (q : Z) (l : list Z) : list Z :=
  match l with
  | [] => [q]
  | x :: rest => if (q <=? x)%Z then q :: l else x :: insert_sorted q rest
  end.

(** [sorted(qubit_indices)]. *)
Definition sorted (l : list Z) : list Z := fold_right insert_sorted [] l.

(** [(outcome >> qubit_idx) & 1]. *)
Definition outcome_bit (outcome : nat) (qubit_idx : Z) : Z :=
  Z.land (Z.shiftr (Z.of_nat outcome) qubit_idx) 1.

(** The first loop of [partial_measure]: the measured bits, packed. *)
Definition measured_value (outcome : nat) (qubit_indices : list Z) : Z :=
  fold_left
    (fun acc iq => Z.lor acc (Z.shiftl (outcome_bit outcome (snd iq)) (fst iq)))
    (combine (range 0 (Z.of_nat (length qubit_indices))) (sorted qubit_indices))
    0%Z.





(** ** Matrix product states ([tensor_networks.py]) *)

(** An n-dimensional numpy array: its shape and its entries in row-major
    order. *)
Record ndarray : Type := mkArray { shape : list nat; entries : vector }.

Definition size_of (shp : list nat) : nat := fold_right Nat.mul 1 shp.

(** [a.reshape(new_shape)]: the number of entries must not change. *)
Definition np_reshape (a : ndarray) (new_shape : list nat) : result ndarray :=
  if (size_of (shape a) =? size_of new_shape)%nat
  then Ok (mkArray new_shape (entries a))
  else Raise ShapeMismatch.

(** [a.reshape(rows, -1)]. *)
Definition np_reshape_rows (a : ndarray) (rows : nat) : result ndarray :=
  let size := size_of (shape a) in
  if (0 <? rows)%nat && (size mod rows =? 0)%nat
  then Ok (mkArray [rows; size / rows] (entries a))
  else Raise ShapeMismatch.

(** [a.reshape(-1, cols)]. *)
Definition np_reshape_cols (a : ndarray) (cols : nat) : result ndarray :=
  let size := size_of (shape a) in
  if (0 <? cols)%nat && (size mod cols =? 0)%nat
  then Ok (mkArray [size / cols; cols] (entries a))
  else Raise ShapeMismatch.

(** The rows of a two-dimensional array with [cols] columns. *)
Definition rows_of (cols : nat) (d : vector) : Matrix :=
  reshape (replicate (length d / Nat.max cols 1) cols) d.

(** [a[:, :k]] on a two-dimensional array. *)
Definition take_cols (a : ndarray) (k : nat) : ndarray :=
  match shape a with
  | [m; c] => mkArray [m; Nat.min k c] (concat (map (take k) (rows_of c (entries a))))
  | _ => a
  end.

(** [a[:k]] and [a[:k, :]]: the first [k] entries along the first axis. *)
Definition take_rows (a : ndarray) (k : nat) : ndarray :=
  match shape a with
  | m :: rest => mkArray (Nat.min k m :: rest) (take (k * size_of rest) (entries a))
  | [] => a
  end.

(** [np.diag(s) @ vh]: row [i] of [vh] scaled by [s[i]]. *)
Definition diag_matmul (s vh : ndarray) : result ndarray :=
  match shape s, shape vh with
  | [k], [k'; c] =>
      if (k =? k')%nat
      then Ok (mkArray [k; c]
                 (concat (zip_with (fun x row => map (Cmult x) row)
                            (entries s) (rows_of c (entries vh)))))
      else Raise ShapeMismatch
  | _, _ => Raise ShapeMismatch
  end.

(** [np.tensordot(a, b, axes=([-1], [0]))]: the last axis of [a] against
    the first axis of [b]. *)
Definition tensordot_last_first (a b : ndarray) : result ndarray :=
  match shape b with
  | [] => Raise ShapeMismatch
  | bond :: b_rest =>
      match last (shape a) with
      | Some d =>
          if negb (d =? bond)%nat then Raise ShapeMismatch
          else
            let q := size_of b_rest in
            let column j := map (fun i => nth (i * q + j) (entries b) C0) (seq 0 bond) in
            Ok (mkArray (removelast (shape a) ++ b_rest)
                  (flat_map (fun ra => map (fun j => dot ra (column j)) (seq 0 q))
                     (rows_of bond (entries a))))
      | None => Raise ShapeMismatch
      end
  end.

Section MPS.

(** [np.linalg.svd(a, full_matrices=False)] is numpy's: for an [m] x [n]
    array it returns [U] of shape [(m, k)], [S] of shape [(k,)] and [Vh] of
    shape [(k, n)] with [k = min m n].  The entries it computes are taken as
    given by [svd_entries m n a]. *)
Variable svd_entries : nat -> nat -> vector -> vector * vector * vector.

Definition svd (a : ndarray) : result (ndarray * ndarray * ndarray) :=
  match shape a with
  | [m; n] =>
      let k := Nat.min m n in
      let usv := svd_entries m n (entries a) in
      Ok (mkArray [m; k] (fst (fst usv)), mkArray [k] (snd (fst usv)),
          mkArray [k; n] (snd usv))
  | _ => Raise ShapeMismatch
  end.

Record MPS : Type := mkMPS {
  mps_n_qubits : nat;
  max_bond_dim : nat;
  tensors : list ndarray
}.

(** [MPS(n_qubits, max_bond_dim)]: the chain of the all-zero state. *)
Definition MPS_init (n : nat) (max_bond : nat) : MPS :=
  mkMPS n max_bond
    (map (fun i =>
            if (i =? 0)%nat then mkArray [2; 1] [C1; C0]
            else if (i =? n - 1)%nat then mkArray [1; 2] [C1; C0]
            else mkArray [1; 2; 1] [C1; C0])
       (seq 0 n)).

(** [self.tensors[i] = t]. *)
Definition set_tensor (mps : MPS) (i : nat) (t : ndarray) : result MPS :=
  if (i <? length (tensors mps))%nat
  then Ok (mkMPS (mps_n_qubits mps) (max_bond_dim mps) (<[i := t]> (tensors mps)))
  else Raise IndexError.

(** One iteration of the loop of [from_state_vector]. *)
Definition from_state_vector_step (n : nat) (max_bond : nat)
    (acc : result (MPS * ndarray)) (i : nat) : result (MPS * ndarray) :=
  try st <- acc in
  let mps := fst st in
  try remaining <- np_reshape_rows (snd st) (2 * 2 ^ i) in
  try usv <- svd remaining in
  let U := fst (fst usv) in
  let S := snd (fst usv) in
  let Vh := snd usv in
  let bond_dim := Nat.min max_bond (size_of (shape S)) in
  let U := take_cols U bond_dim in
  let S := take_rows S bond_dim in
  let Vh := take_rows Vh bond_dim in
  try tensor <-
      (if (i =? 0)%nat then np_reshape U [2; bond_dim]
       else
         match tensors mps !! (i - 1) with
         | Some prev =>
             match last (shape prev) with
             | Some prev_bond => np_reshape U [prev_bond; 2; bond_dim]
             | None => Raise IndexError
             end
         | None => Raise IndexError
         end) in
  try mps <- set_tensor mps i tensor in
  try remaining <- diag_matmul S Vh in
  try remaining <- np_reshape remaining (bond_dim :: replicate (n - i - 1) 2) in
  Ok (mps, remaining).

(** [MPS.from_state_vector(state, max_bond_dim)]. *)
Definition from_state_vector (st : vector) (max_bond : nat) : result MPS :=
  let n := Nat.log2 (length st) in
  let mps := MPS_init n max_bond in
  try remaining <- np_reshape (mkArray [length st] st) (replicate n 2) in
  try final <-
      fold_left (from_state_vector_step n max_bond) (seq 0 (n - 1)) (Ok (mps, remaining)) in
  try last_tensor <- np_reshape_cols (snd final) 2 in
  match length (tensors (fst final)) with
  | O => Raise IndexError
  | S k => set_tensor (fst final) k last_tensor
  end.

(** [self.to_state_vector()]. *)
Definition to_state_vector (mps : MPS) : result vector :=
  match tensors mps with
  | [] => Raise IndexError
  | first :: _ =>
      try contracted <-
          fold_left
            (fun acc i =>
               try res <- acc in
               match tensors mps !! i with
               | Some t => tensordot_last_first res t
               | None => Raise IndexError
               end)
            (seq 1 (mps_n_qubits mps - 1)) (Ok first) in
      Ok (entries contracted)
  end.

End MPS.


(** ** Single qubits ([qubit.py]) *)

(** [np.conj(z)]. *)
Definition Cconj (a : C) : C := (fst a, (- snd a)%R).

(** [np.abs(z)]. *)
Definition Cabs (a : C) : R := sqrt (Cmod2 a).

Module Qubit.
Local Open Scope R_scope.

(** A [Qubit] object: its [state] is an array of two amplitudes. *)
Record t : Type := mk { state : C * C }.

(** The limits of binary64: the largest finite number and the least
    positive (subnormal) number. *)
Definition float_max : R := (2 - / 2 ^ 52) * 2 ^ 1023.
Definition float_least : R := / 2 ^ 1074.

(** A float that may be [inf]. *)
Inductive float_or_inf : Type :=
| Finite (x : R)
| Inf.

(** [x * x] in binary64.  The rounding of the floats is left out, but not
    their range: a square of at most half the least positive number is 0
    (for [x] below about [1.6e-162]). *)
Definition float_square (x : R) : R :=
  if Rle_dec (x * x) (float_least / 2) then 0 else x * x.

(** [np.linalg.norm(self.state)] for the two complex amplitudes:
    [sqrt(x.real.dot(x.real) + x.imag.dot(x.imag))], which is [inf] when
    the sum of the squares overflows (amplitudes from about [1.3e154]
    on). *)
Definition norm (s : C * C) : float_or_inf :=
  let sqnorm :=
    float_square (fst (fst s)) + float_square (fst (snd s))
    + (float_square (snd (fst s)) + float_square (snd (snd s))) in
  if Rlt_dec float_max sqnorm then Inf else Finite (sqrt sqnorm).

(** [self.normalize()]: [if norm > 0: self.state = self.state / norm].  A
    norm [inf] is positive, and an amplitude divided by it is 0. *)
Definition normalize (self : t) : t :=
  match norm (state self) with
  | Inf => mk (C0, C0)
  | Finite norm =>
      if Rlt_dec 0 norm
      then mk (Cdiv_real (fst (state self)) norm, Cdiv_real (snd (state self)) norm)
      else self
  end.

(** [Qubit(alpha, beta)]. *)
Definition init (alpha beta : C) : t := normalize (mk (alpha, beta)).

Definition zero : t := init C1 C0.

Definition one : t := init C0 C1.

Definition plus : t := init (RtoC (1 / sqrt 2)) (RtoC (1 / sqrt 2)).

Definition minus : t := init (RtoC (1 / sqrt 2)) (RtoC (- (1 / sqrt 2))).

Definition get_bloch_vector (self : t) : R * R * R :=
  let (alpha, beta) := state self in
  let x := 2 * fst (Cmult (Cconj alpha) beta) in
  let y := 2 * snd (Cmult (Cconj alpha) beta) in
  let z := Cmod2 alpha - Cmod2 beta in
  (x, y, z).


End Qubit.

(** ** Expectation values ([measure.py]) *)

(** [expectation_value(state, observable)]:
    [np.dot(np.conj(state), np.dot(observable, state))]; both products
    check their dimensions. *)
Definition expectation_value (st : vector) (observable : Matrix) : result C :=
  try w <- np_dot observable st in
  if (length st =? length w)%nat then Ok (dot (map Cconj st) w)
  else Raise ShapeMismatch.

(** ** Sparsity ([sparse_utils.py]) *)

(** [to_sparse(matrix, threshold)]: the entries of modulus below the
    threshold are set to zero. *)
Definition to_sparse (matrix : Matrix) (threshold : R) : csr_matrix :=
  CSR (map (map (fun z => if Rlt_dec (Cabs z) threshold then C0 else z)) matrix).

Definition is_zero (z : C) : bool :=
  if Req_dec_T (fst z) 0 then (if Req_dec_T (snd z) 0 then true else false) else false.

(** [matrix.nnz] of a [csr_matrix] built from an array: the number of its
    entries that are not zero. *)
Definition nnz (m : csr_matrix) : nat :=
  length (List.filter (fun z => negb (is_zero z)) (concat (toarray m))).

(** [estimate_sparsity(matrix, threshold)].  [None] stands for the outcome on
    an array without entries, where the division is by zero (a
    [ZeroDivisionError] for a sparse matrix, [nan] for a dense one). *)
Definition estimate_sparsity (matrix : operator) (threshold : R) : option R :=
  match matrix with
  | Sparse m =>
      let total := nrows (toarray m) * ncols (toarray m) in
      if (total =? 0)%nat then None
      else Some (1 - INR (nnz m) / INR total)%R
  | Dense m =>
      let total_elements := length (concat m) in
      let zero_elements :=
        length (List.filter (fun z => if Rlt_dec (Cabs z) threshold then true else false)
                  (concat m)) in
      if (total_elements =? 0)%nat then None
      else Some (INR zero_elements / INR total_elements)%R
  end.

(** ** Circuit statistics ([optimizer.py]) *)

(** The dictionary [qubit_depths], in insertion order. *)
Fixpoint dict_get (d : list (Z * nat)) (k : Z) : option nat :=
  match d with
  | [] => None
  | (k', v) :: rest => if (k' =? k)%Z then Some v else dict_get rest k
  end.

(** [d[k] = v]. *)
Fixpoint dict_set (d : list (Z * nat)) (k : Z) (v : nat) : list (Z * nat) :=
  match d with
  | [] => [(k, v)]
  | (k', v') :: rest =>
      if (k' =? k)%Z then (k', v) :: rest else (k', v') :: dict_set rest k v
  end.

(** The first inner loop of [calculate_circuit_depth]: the largest depth
    recorded for a qubit of the gate. *)
Definition gate_max_depth (qubit_depths : list (Z * nat)) (qs : list Z) : nat :=
  fold_left
    (fun max_depth qubit =>
       match dict_get qubit_depths qubit with
       | Some d => Nat.max max_depth d
       | None => max_depth
       end)
    qs 0.

(** The body of the outer loop, for one gate. *)
Definition depth_step (qubit_depths : list (Z * nat)) (gate : GateNode)
    : list (Z * nat) :=
  let new_depth := gate_max_depth qubit_depths (qubits gate) + 1 in
  fold_left (fun d qubit => dict_set d qubit new_depth) (qubits gate) qubit_depths.

(** [max(values)]: [None] stands for the [ValueError] Python raises on an
    empty sequence. *)
Definition py_max (values : list nat) : option nat :=
  match values with
  | [] => None
  | v :: rest => Some (fold_left Nat.max rest v)
  end.

(** [calculate_circuit_depth(gates)]. *)
Definition calculate_circuit_depth (gates : list GateNode) : option nat :=
  match gates with
  | [] => Some 0
  | _ :: _ => py_max (map snd (fold_left depth_step gates []))
  end.

(** [estimate_gate_count(gates)]: the dictionary of counts by name, in
    insertion order. *)
Definition estimate_gate_count (gates : list GateNode) : list (string * nat) :=
  fold_left (fun counts gate => count_incr counts (gate_name gate)) gates [].

(** ** Sessions ([circuits.py]) *)

Module Circuit.

(** [self.reset()]. *)
Definition reset (self : QuantumCircuit) : result QuantumCircuit :=
  try st <- create_multi_qubit_state (n_qubits self) 0 in
  Ok {| n_qubits := n_qubits self; use_sparse := use_sparse self;
        use_tensor_network := use_tensor_network self; state := st; gates := [] |}.

Definition x (w : heap * QuantumCircuit) (qubit : Z) := add_gate w "X" [qubit] [].
Definition y (w : heap * QuantumCircuit) (qubit : Z) := add_gate w "Y" [qubit] [].
Definition z (w : heap * QuantumCircuit) (qubit : Z) := add_gate w "Z" [qubit] [].
Definition h (w : heap * QuantumCircuit) (qubit : Z) := add_gate w "H" [qubit] [].
Definition t (w : heap * QuantumCircuit) (qubit : Z) := add_gate w "T" [qubit] [].
Definition s (w : heap * QuantumCircuit) (qubit : Z) := add_gate w "S" [qubit] [].
Definition rx (w : heap * QuantumCircuit) (qubit : Z) (theta : R) :=
  add_gate w "RX" [qubit] [("theta"%string, theta)].
Definition ry (w : heap * QuantumCircuit) (qubit : Z) (theta : R) :=
  add_gate w "RY" [qubit] [("theta"%string, theta)].
Definition rz (w : heap * QuantumCircuit) (qubit : Z) (theta : R) :=
  add_gate w "RZ" [qubit] [("theta"%string, theta)].
Definition cnot (w : heap * QuantumCircuit) (control target : Z) :=
  add_gate w "CNOT" [control; target] [].
Definition cz (w : heap * QuantumCircuit) (control target : Z) :=
  add_gate w "CZ" [control; target] [].
Definition swap (w : heap * QuantumCircuit) (qubit1 qubit2 : Z) :=
  add_gate w "SWAP" [qubit1; qubit2] [].

Definition get_statevector (self : QuantumCircuit) : vector := state self.

Definition get_probabilities (self : QuantumCircuit) : list R :=
  get_probabilities (state self).

(** [self.measure(shots)], given the outcomes drawn. *)
Definition measure (self : QuantumCircuit) (outcomes : list nat) : list (string * nat) :=
  measure_counts (state self) outcomes.

(** The dictionary [get_circuit_info] returns. *)
Record info : Type := mkInfo {
  info_n_qubits : nat;
  info_n_gates : nat;
  info_depth : nat;
  info_gate_counts : list (string * nat);
  info_use_sparse : bool;
  info_use_tensor_network : bool
}.

(** [self.get_circuit_info()]; [None] when [calculate_circuit_depth]
    raises. *)
Definition get_circuit_info (store : heap) (self : QuantumCircuit) : option info :=
  let nodes := map (deref store) (gates self) in
  match calculate_circuit_depth nodes with
  | Some d =>
      Some {| info_n_qubits := n_qubits self;
              info_n_gates := length (gates self);
              info_depth := d;
              info_gate_counts := estimate_gate_count nodes;
              info_use_sparse := use_sparse self;
              info_use_tensor_network := use_tensor_network self |}
  | None => None
  end.

(** One entry of the ['gates'] list of the interchange format; the key
    ['params'] may be absent. *)
Record gate_json : Type := mkGateJson {
  json_gate : string;
  json_qubits : list Z;
  json_params : option params_t
}.

Record circuit_json : Type := mkCircuitJson {
  json_n_qubits : nat;
  json_gates : list gate_json
}.

(** [self.to_json()]. *)
Definition to_json (store : heap) (self : QuantumCircuit) : circuit_json :=
  {| json_n_qubits := n_qubits self;
     json_gates :=
       map (fun r =>
              let g := deref store r in
              {| json_gate := gate_name g; json_qubits := qubits g;
                 json_params := Some (params g) |})
         (gates self) |}.

(** The keys that the call [circuit.add_gate(gate, qubits, **params)]
    refuses in [params]: the names of the parameters of [add_gate], which
    the call has filled by position ([TypeError]: multiple values for the
    argument). *)
Definition positional_name (key : string) : bool :=
  String.eqb key "self" || String.eqb key "gate_name" || String.eqb key "qubits".

Definition kwargs_clash (ps : params_t) : bool :=
  existsb (fun kv => positional_name (fst kv)) ps.

(** [QuantumCircuit.from_json(data)], for a document that holds the keys
    ['n_qubits'] and ['gates'] and, in every entry, ['gate'] and
    ['qubits']: [cls(data['n_qubits'])], then one call
    [circuit.add_gate(gate, qubits, **gate_data.get('params', {}))] per
    entry, which raises at the first entry whose parameters hold a refused
    key. *)
Definition from_json (store : heap) (data : circuit_json)
    : result (heap * QuantumCircuit) :=
  try circuit <- QuantumCircuit_init (json_n_qubits data) None false in
  fold_left
    (fun acc gate_data =>
       try w <- acc in
       let ps := default [] (json_params gate_data) in
       if kwargs_clash ps then Raise TypeError
       else Ok (add_gate w (json_gate gate_data) (json_qubits gate_data) ps))
    (json_gates data) (Ok (store, circuit)).

End Circuit.

(** [create_bell_state(qubit1, qubit2)]. *)
Definition create_bell_state (store : heap) (qubit1 qubit2 : Z)
    : result (heap * QuantumCircuit) :=
  try circuit <- QuantumCircuit_init 2 None false in
  let w := Circuit.h (store, circuit) qubit1 in
  Ok (Circuit.cnot w qubit1 qubit2).

(** [create_ghz_state(n_qubits)]. *)
Definition create_ghz_state (store : heap) (n_qubits : nat)
    : result (heap * QuantumCircuit) :=
  try circuit <- QuantumCircuit_init n_qubits None false in
  let w := Circuit.h (store, circuit) 0 in
  Ok (fold_left (fun w i => Circuit.cnot w i (i + 1)%Z)
        (range 0 (Z.of_nat n_qubits - 1)) w).

(** ** The [use_mps] switch ([tensor_networks.py]) *)

(** What a call leaves: an outcome of [result], or Python's
    [UnboundLocalError], raised where a local variable is read before any
    assignment. *)
Inductive outcome (A : Type) : Type :=
| Completed (r : result A)
| UnboundLocalError.
Arguments Completed {A} r.
Arguments UnboundLocalError {A}.

(** [tensor_network_simulator(n_qubits, gates, use_mps)].  With [use_mps]
    the function assigns [state], not [state_tensor]; the loop over the
    gates and the final [flatten] read [state_tensor]. *)
Definition tensor_network_simulator_use_mps (n_qubits : nat)
    (gates : list (Matrix * list Z)) (use_mps : bool) : outcome vector :=
  if use_mps then
    let mps := MPS_init n_qubits 100 in
    match to_state_vector mps with
    | Ok state =>
        match gates with
        | [] => UnboundLocalError            (* state_tensor.flatten() *)
        | _ :: _ => UnboundLocalError        (* apply_gate_tensor(state_tensor, ...) *)
        end
    | Raise e => Completed (Raise e)
    | OutOfFuel => Completed OutOfFuel
    end
  else Completed (tensor_network_simulator n_qubits gates).
(** * Properties *)

(** ** Arithmetic of complex numbers *)

Section ComplexFacts.
Local Open Scope R_scope.

Lemma C_eq (a b : C) : fst a = fst b -> snd a = snd b -> a = b.
Proof. destruct a, b; simpl; intros -> ->; reflexivity. Qed.

Lemma Cplus_comm a b : Cplus a b = Cplus b a.
Proof. apply C_eq; simpl; ring. Qed.

Lemma Cplus_assoc a b c : Cplus a (Cplus b c) = Cplus (Cplus a b) c.
Proof. apply C_eq; simpl; ring. Qed.

Lemma Cplus_0_l a : Cplus C0 a = a.
Proof. apply C_eq; simpl; ring. Qed.

Lemma Cplus_0_r a : Cplus a C0 = a.
Proof. apply C_eq; simpl; ring. Qed.

Lemma Cmult_comm a b : Cmult a b = Cmult b a.
Proof. apply C_eq; simpl; ring. Qed.

Lemma Cmult_assoc a b c : Cmult a (Cmult b c) = Cmult (Cmult a b) c.
Proof. apply C_eq; simpl; ring. Qed.

Lemma Cmult_0_l a : Cmult C0 a = C0.
Proof. apply C_eq; simpl; ring. Qed.

Lemma Cmult_0_r a : Cmult a C0 = C0.
Proof. apply C_eq; simpl; ring. Qed.

Lemma Cmult_1_l a : Cmult C1 a = a.
Proof. apply C_eq; simpl; ring. Qed.

Lemma Cmult_1_r a : Cmult a C1 = a.
Proof. apply C_eq; simpl; ring. Qed.

Lemma Cmult_plus_distr_l a b c :
  Cmult a (Cplus b c) = Cplus (Cmult a b) (Cmult a c).
Proof. apply C_eq; simpl; ring. Qed.

Lemma Cmult_plus_distr_r a b c :
  Cmult (Cplus a b) c = Cplus (Cmult a c) (Cmult b c).
Proof. apply C_eq; simpl; ring. Qed.

Lemma Cmod2_nonneg a : 0 <= Cmod2 a.
Proof. unfold Cmod2. nra. Qed.

Lemma Cmod2_0 : Cmod2 C0 = 0.
Proof. unfold Cmod2; simpl; ring. Qed.

Lemma Cmod2_1 : Cmod2 C1 = 1.
Proof. unfold Cmod2; simpl; ring. Qed.

End ComplexFacts.

(** ** Shapes and products of Kronecker-built operators *)

(** All rows of [M] have [c] entries. *)
Definition wf_matrix (c : nat) (M : Matrix) : Prop :=
  Forall (fun r => length r = c) M.

(** The vector of length [len] with a one at [k]. *)
Definition basis (len k : nat) : vector := <[k := C1]> (replicate len C0).

Lemma basis_length len k : length (basis len k) = len.
Proof. unfold basis. rewrite length_insert, length_replicate. reflexivity. Qed.

Lemma basis_lookup len k j :
  k < len -> j < len -> basis len k !! j = Some (if Nat.eqb j k then C1 else C0).
Proof.
  intros Hk Hj. unfold basis. destruct (Nat.eqb_spec j k) as [->|Hne].
  - apply list_lookup_insert_eq. rewrite length_replicate. exact Hk.
  - rewrite list_lookup_insert_ne by congruence.
    apply lookup_replicate_2. exact Hj.
Qed.

Lemma dot_nil_r r : dot r [] = C0.
Proof. destruct r; reflexivity. Qed.

Lemma dot_app r1 r2 v1 v2 :
  length r1 = length v1 ->
  dot (r1 ++ r2) (v1 ++ v2) = Cplus (dot r1 v1) (dot r2 v2).
Proof.
  revert v1. induction r1 as [|a r1 IH]; intros [|b v1] Hlen; simpl in *; try discriminate.
  - rewrite Cplus_0_l. reflexivity.
  - rewrite IH by lia. rewrite Cplus_assoc. reflexivity.
Qed.

Lemma dot_scale a b r v :
  dot (map (Cmult a) r) (map (Cmult b) v) = Cmult (Cmult a b) (dot r v).
Proof.
  revert v. induction r as [|x r IH]; intros [|y v]; simpl;
    try (rewrite Cmult_0_r; reflexivity).
  rewrite IH. apply C_eq; simpl; ring.
Qed.

Lemma kron_row_length ra rb : length (kron_row ra rb) = length ra * length rb.
Proof.
  unfold kron_row. apply flat_map_constant_length.
  intros x _. apply length_map.
Qed.

Lemma dot_kron_row ra rb u v :
  length ra = length u -> length rb = length v ->
  dot (kron_row ra rb) (kron_row u v) = Cmult (dot ra u) (dot rb v).
Proof.
  intros Hu Hv. revert u Hu.
  induction ra as [|a ra IH]; intros [|x u] Hu; simpl in *; try discriminate.
  - rewrite Cmult_0_l. reflexivity.
  - rewrite dot_app by (rewrite !length_map; exact Hv).
    rewrite dot_scale, IH by lia.
    apply C_eq; simpl; ring.
Qed.

Lemma kron_wf c d A B :
  wf_matrix c A -> wf_matrix d B -> wf_matrix (c * d) (kron A B).
Proof.
  unfold wf_matrix, kron. intros HA HB.
  apply Forall_flat_map. eapply Forall_impl; [exact HA|].
  intros ra Hra. apply Forall_map. eapply Forall_impl; [exact HB|].
  intros rb Hrb. simpl. rewrite kron_row_length, Hra, Hrb. reflexivity.
Qed.

Lemma kron_nrows A B : nrows (kron A B) = nrows A * nrows B.
Proof.
  unfold nrows, kron. apply flat_map_constant_length.
  intros x _. apply length_map.
Qed.

Lemma matvec_length M v : length (matvec M v) = nrows M.
Proof. unfold matvec. apply length_map. Qed.

(** The mixed-product identity on vectors. *)
Lemma matvec_kron A B u v :
  wf_matrix (length u) A -> wf_matrix (length v) B ->
  matvec (kron A B) (kron_row u v) = kron_row (matvec A u) (matvec B v).
Proof.
  unfold wf_matrix. intros HA HB. unfold matvec at 1 2, kron, kron_row at 2.
  induction HA as [|ra A Hra HA IH]; simpl; [reflexivity|].
  rewrite map_app, IH. f_equal.
  rewrite map_map. unfold matvec. rewrite map_map.
  apply map_ext_Forall. eapply Forall_impl; [exact HB|].
  intros rb Hrb. simpl. apply dot_kron_row; assumption.
Qed.

Lemma ncols_wf c M : wf_matrix c M -> M <> [] -> ncols M = c.
Proof.
  unfold ncols. intros H Hne. destruct M as [|r M]; [congruence|].
  inversion H; subst. reflexivity.
Qed.

(** ** Basis vectors under Kronecker products *)

Lemma map_Cmult_1 (v : vector) : map (Cmult C1) v = v.
Proof.
  induction v as [|x v IH]; simpl; [reflexivity|].
  rewrite Cmult_1_l, IH. reflexivity.
Qed.

Lemma map_Cmult_0 (v : vector) : map (Cmult C0) v = replicate (length v) C0.
Proof.
  induction v as [|x v IH]; simpl; [reflexivity|].
  rewrite Cmult_0_l, IH. reflexivity.
Qed.

Lemma kron_row_app u1 u2 v : kron_row (u1 ++ u2) v = kron_row u1 v ++ kron_row u2 v.
Proof. unfold kron_row. apply flat_map_app. Qed.

Lemma kron_row_zeros k v : kron_row (replicate k C0) v = replicate (k * length v) C0.
Proof.
  induction k as [|k IH]; simpl; [reflexivity|].
  unfold kron_row in *. simpl. rewrite IH, map_Cmult_0, replicate_add. reflexivity.
Qed.

Lemma basis_split len k :
  k < len -> basis len k = replicate k C0 ++ C1 :: replicate (len - S k) C0.
Proof. intros H. unfold basis. apply insert_replicate_lt. exact H. Qed.

Lemma kron_row_basis p q a b :
  a < p -> b < q ->
  kron_row (basis p a) (basis q b) = basis (p * q) (a * q + b).
Proof.
  intros Ha Hb.
  assert (Hlt : a * q + b < p * q) by nia.
  rewrite (basis_split p a Ha), (basis_split (p * q) _ Hlt).
  rewrite kron_row_app, kron_row_zeros, basis_length.
  change (C1 :: replicate (p - S a) C0) with ([C1] ++ replicate (p - S a) C0).
  rewrite kron_row_app, kron_row_zeros, basis_length.
  unfold kron_row at 1. simpl. rewrite map_Cmult_1, app_nil_r.
  rewrite (basis_split q b Hb).
  rewrite replicate_add, <- !app_assoc. f_equal. f_equal. simpl. f_equal.
  rewrite <- replicate_add. f_equal. nia.
Qed.

(** ** Where a single-qubit X sends the all-zero state *)

Definition zero_state (n : nat) : vector := basis (2 ^ n) 0.

Lemma pow2_pos n : 0 < 2 ^ n.
Proof. induction n; simpl; lia. Qed.

Lemma create_zero_state n : create_multi_qubit_state n 0 = Ok (zero_state n).
Proof.
  unfold create_multi_qubit_state.
  destruct (Nat.ltb_spec 0 (2 ^ n)) as [_|H]; [reflexivity|].
  pose proof (pow2_pos n). lia.
Qed.

(** [R], an operator on [k] qubits, sends the all-zero state to the basis
    state [idx]. *)
Definition sends_zero_to (k : nat) (M : Matrix) (idx : nat) : Prop :=
  wf_matrix (2 ^ k) M /\ nrows M = 2 ^ k /\ idx < 2 ^ k /\
  matvec M (zero_state k) = basis (2 ^ k) idx.

Lemma eye2_wf : wf_matrix 2 (eye 2).
Proof. repeat constructor. Qed.

Lemma pauli_x_wf : wf_matrix 2 pauli_x.
Proof. repeat constructor. Qed.

Lemma eye2_zero : matvec (eye 2) (basis 2 0) = basis 2 0.
Proof.
  unfold matvec, eye, eye_row, basis. simpl.
  repeat f_equal; apply C_eq; simpl; ring.
Qed.

Lemma pauli_x_zero : matvec pauli_x (basis 2 0) = basis 2 1.
Proof.
  unfold matvec, pauli_x, basis. simpl.
  repeat f_equal; apply C_eq; simpl; ring.
Qed.

Lemma sends_zero_step k M idx G g :
  sends_zero_to k M idx ->
  wf_matrix 2 G -> nrows G = 2 -> g < 2 -> matvec G (basis 2 0) = basis 2 g ->
  sends_zero_to (S k) (kron M G) (idx * 2 + g).
Proof.
  intros (Hwf & Hrows & Hidx & Hmv) HG HGrows Hg HGmv.
  assert (Hpow : 2 ^ S k = 2 ^ k * 2) by (simpl; lia).
  unfold sends_zero_to. rewrite Hpow. repeat split.
  - apply kron_wf; assumption.
  - rewrite kron_nrows, Hrows, HGrows. reflexivity.
  - lia.
  - unfold zero_state. rewrite Hpow.
    pose proof (pow2_pos k) as Hpos.
    assert (E : basis (2 ^ k * 2) 0 = kron_row (basis (2 ^ k) 0) (basis 2 0))
      by (rewrite kron_row_basis by lia; reflexivity).
    rewrite E.
    rewrite matvec_kron by (rewrite basis_length; assumption).
    fold (zero_state k). rewrite Hmv, HGmv.
    apply kron_row_basis; assumption.
Qed.

(** The index reached after the qubit positions [0 .. s] have been folded
    in, for an X at position [i]. *)
Definition flipped_index (i s : nat) : nat := if (i <=? s)%nat then 2 ^ (s - i) else 0.

Lemma single_x_fold i m : forall s M,
  sends_zero_to (S s) M (flipped_index i s) ->
  sends_zero_to (S s + m)
    (fold_left
       (fun result j =>
          if (j =? Z.of_nat i)%Z then kron result pauli_x else kron result (eye 2))
       (map (fun k => (1 + Z.of_nat k)%Z) (seq s m)) M)
    (flipped_index i (s + m)).
Proof.
  induction m as [|m IH]; intros s M HM; simpl.
  - rewrite !Nat.add_0_r. exact HM.
  - replace (S (s + S m)) with (S (S s) + m) by lia.
    replace (s + S m) with (S s + m) by lia.
    apply IH.
    destruct (Z.eqb_spec (1 + Z.of_nat s) (Z.of_nat i)) as [Heq|Hne].
    + assert (i = S s) by lia. subst i.
      replace (flipped_index (S s) (S s)) with (flipped_index (S s) s * 2 + 1).
      * apply sends_zero_step; auto using pauli_x_wf, pauli_x_zero.
      * unfold flipped_index.
        destruct (Nat.leb_spec (S s) s); [lia|].
        destruct (Nat.leb_spec (S s) (S s)); [|lia].
        rewrite Nat.sub_diag. reflexivity.
    + assert (i <> S s) by lia.
      replace (flipped_index i (S s)) with (flipped_index i s * 2 + 0).
      * apply sends_zero_step; auto using eye2_wf, eye2_zero.
      * unfold flipped_index.
        destruct (Nat.leb_spec i s), (Nat.leb_spec i (S s)); try lia.
        replace (S s - i) with (S (s - i)) by lia. simpl. lia.
Qed.

Lemma range_1_n n : range 1 (Z.of_nat n) = map (fun k => (1 + Z.of_nat k)%Z) (seq 0 (n - 1)).
Proof. unfold range. f_equal. f_equal. lia. Qed.

(** The sparse branch of [apply_single_qubit_gate] folds the same products
    as the dense branch. *)
Lemma apply_single_qubit_gate_sparse_dense gate q n :
  operator_array (apply_single_qubit_gate gate q n true) =
  operator_array (apply_single_qubit_gate gate q n false).
Proof.
  unfold apply_single_qubit_gate. simpl.
  generalize (range 1 (Z.of_nat n)). intros l.
  assert (H : forall (a : csr_matrix),
    toarray (fold_left
       (fun result i =>
          if (i =? q)%Z then sparse_kron result (CSR gate)
          else sparse_kron result (sparse_identity 2)) l a) =
    fold_left
       (fun result i => if (i =? q)%Z then kron result gate else kron result (eye 2))
       l (toarray a)).
  { induction l as [|x l IH]; intros a; simpl; [reflexivity|].
    rewrite IH. destruct (x =? q)%Z; reflexivity. }
  rewrite H. destruct (q =? 0)%Z; reflexivity.
Qed.

Lemma single_x_dense n i :
  i < n ->
  sends_zero_to n
    (operator_array (apply_single_qubit_gate pauli_x (Z.of_nat i) n false))
    (2 ^ (n - 1 - i)).
Proof.
  intros Hi. unfold apply_single_qubit_gate. simpl. rewrite range_1_n.
  pose proof (single_x_fold i (n - 1) 0
    (if (Z.of_nat i =? 0)%Z then pauli_x else eye 2)) as H.
  replace (1 + (n - 1)) with n in H by lia.
  replace (flipped_index i (0 + (n - 1))) with (2 ^ (n - 1 - i)) in H.
  - apply H. clear H.
    unfold sends_zero_to, zero_state, flipped_index.
    destruct (Z.eqb_spec (Z.of_nat i) 0) as [Hz|Hz].
    + assert (i = 0) by lia. subst i. simpl.
      repeat split; auto using pauli_x_wf, pauli_x_zero.
    + destruct (Nat.leb_spec i 0); [lia|]. simpl.
      repeat split; auto using eye2_wf, eye2_zero.
  - unfold flipped_index. simpl.
    destruct (Nat.leb_spec i (n - 1)); [reflexivity|lia].
Qed.

Lemma sends_zero_np_dot n M idx :
  sends_zero_to n M idx -> np_dot M (zero_state n) = Ok (basis (2 ^ n) idx).
Proof.
  intros (Hwf & Hrows & _ & Hmv). unfold np_dot.
  rewrite (ncols_wf (2 ^ n) M Hwf).
  - unfold zero_state at 1. rewrite basis_length, Nat.eqb_refl, Hmv. reflexivity.
  - intros ->. pose proof (pow2_pos n). simpl in Hrows. lia.
Qed.

(** ** Keys of the outcome table *)

Lemma zeros_snoc k acc : (zeros k ++ String "0" acc)%string = String "0" (zeros k ++ acc)%string.
Proof. induction k as [|k IH]; simpl; [reflexivity|]. rewrite IH. reflexivity. Qed.

Lemma zeros_length k : String.length (zeros k) = k.
Proof. induction k; simpl; congruence. Qed.

Lemma string_length_app (s1 s2 : string) :
  String.length (s1 ++ s2) = String.length s1 + String.length s2.
Proof. induction s1 as [|c s1 IH]; simpl; [reflexivity|]. rewrite IH. reflexivity. Qed.

Lemma N_of_nat_pow2 m : N.of_nat (2 ^ m) = Npos (Pos.shiftl_nat 1 m).
Proof.
  induction m as [|m IH]; [reflexivity|].
  replace (2 ^ S m) with (2 * 2 ^ m) by (simpl; lia).
  rewrite Nat2N.inj_mul, IH. reflexivity.
Qed.

Lemma pos_bin_pow2 m acc :
  pos_bin (Pos.shiftl_nat 1 m) acc = String "1" (zeros m ++ acc)%string.
Proof.
  revert acc. induction m as [|m IH]; intros acc; [reflexivity|].
  simpl. rewrite IH, zeros_snoc. reflexivity.
Qed.

Lemma format_0b_pow2 n m :
  m < n -> format_0b n (2 ^ m) = (zeros (n - 1 - m) ++ String "1" (zeros m))%string.
Proof.
  intros Hm. unfold format_0b. rewrite N_of_nat_pow2, pos_bin_pow2.
  simpl. rewrite string_length_app, zeros_length. simpl.
  replace (zeros m ++ EmptyString)%string with (zeros m).
  - do 2 f_equal. lia.
  - clear. induction m as [|m IH]; simpl; [reflexivity|]. rewrite <- IH. reflexivity.
Qed.

(** After X on qubit 0 of two qubits the only outcome is index 2; its key
    is "10", with qubit 0 as the leftmost digit. *)
Example measure_counts_key_of_index_2 :
  measure_counts [C0; C0; C1; C0] [2; 2; 2] = [("10"%string, 3)].
Proof. reflexivity. Qed.

(** [partial_measure] reads qubit [q] from bit [q] of the outcome, counted
    from the least significant bit: for the outcome 2 it reports qubit 0 as
    0 and qubit 1 as 1, the other way round than the expansion and the keys
    above. *)
Example partial_measure_reads_bits_from_lsb :
  measured_value 2 [0%Z] = 0%Z /\ measured_value 2 [1%Z] = 1%Z.
Proof. split; reflexivity. Qed.

(** ** Circuits built by [add_gate] *)

(** The record [add_gate] creates for a gate of the interchange format. *)
Definition node_of (d : gate_data) : GateNode :=
  {| gate_name := fst (fst d); qubits := snd (fst d); params := snd d; depth := 0 |}.

Lemma add_gates_spec data : forall h c,
  add_gates (h, c) data =
  (h ++ map node_of data,
   {| n_qubits := n_qubits c; use_sparse := use_sparse c;
      use_tensor_network := use_tensor_network c; state := state c;
      gates := gates c ++ seq (length h) (length data) |}).
Proof.
  unfold add_gates.
  induction data as [|d data IH]; intros h c; simpl.
  - rewrite !app_nil_r. destruct c; reflexivity.
  - rewrite IH. simpl. rewrite length_app. simpl.
    rewrite <- !app_assoc. simpl.
    replace (length h + 1) with (S (length h)) by lia.
    destruct d as [[name qs] ps]. reflexivity.
Qed.

Lemma deref_app_l h h' r : r < length h -> deref (h ++ h') r = deref h r.
Proof. intros H. unfold deref. rewrite lookup_app_l by exact H. reflexivity. Qed.

Lemma deref_seq h0 l : map (deref (h0 ++ l)) (seq (length h0) (length l)) = l.
Proof.
  revert h0. induction l as [|g l IH]; intros h0; simpl; [reflexivity|].
  f_equal.
  - unfold deref. rewrite lookup_app_r by lia. rewrite Nat.sub_diag. reflexivity.
  - specialize (IH (h0 ++ [g])). rewrite <- app_assoc, length_app in IH. simpl in IH.
    replace (length h0 + 1) with (S (length h0)) in IH by lia. exact IH.
Qed.

(** The program of a circuit built from [data] on an empty gate list. *)
Lemma built_program h0 n sparse tn st0 data :
  let w := add_gates (h0, mkCircuit n sparse tn st0 []) data in
  map (deref (fst w)) (gates (snd w)) = map node_of data.
Proof.
  simpl. rewrite add_gates_spec. simpl.
  rewrite <- (length_map node_of data). apply deref_seq.
Qed.

(** ** Non-adjacent targets *)

Lemma non_adjacent_raises gate a b n sparse :
  Z.abs (a - b) <> 1%Z ->
  apply_two_qubit_gate gate a b n sparse = Raise UnsupportedTopology.
Proof.
  intros H. unfold apply_two_qubit_gate.
  destruct (Z.eqb_spec (Z.abs (a - b)) 1); [contradiction|reflexivity].
Qed.

Lemma sv_loop_app n sparse l1 l2 st0 st :
  sv_loop n sparse l1 st0 = (Ok tt, st) ->
  sv_loop n sparse (l1 ++ l2) st0 = sv_loop n sparse l2 st.
Proof.
  revert st0. induction l1 as [|g l1 IH]; intros st0 H; simpl in *.
  - congruence.
  - destruct (apply_gate_node n sparse g st0); try apply IH; try exact H;
      discriminate.
Qed.

(** The state-vector branch of [run], without optimization. *)
Lemma run_unoptimized h c :
  use_tensor_network c = false ->
  run false h c =
  (h, set_state c (snd (sv_loop (n_qubits c) (use_sparse c)
                          (map (deref h) (gates c)) (zero_state (n_qubits c)))),
   match fst (sv_loop (n_qubits c) (use_sparse c)
                (map (deref h) (gates c)) (zero_state (n_qubits c))) with
   | Ok _ => Ok (snd (sv_loop (n_qubits c) (use_sparse c)
                        (map (deref h) (gates c)) (zero_state (n_qubits c))))
   | Raise e => Raise e
   | OutOfFuel => OutOfFuel
   end).
Proof.
  intros Htn. unfold run. rewrite Htn, create_zero_state.
  destruct (sv_loop _ _ _ _) as [o st]. reflexivity.
Qed.

(** ** The two construction policies *)

(** Closes a goal [v1 = v2] between two explicit vectors whose entries are
    equal as real expressions. *)
Ltac vector_eq :=
  repeat (apply (f_equal2 (@cons C)); [apply C_eq; simpl; ring|]);
  reflexivity.

(** C2 at CNOT on the adjacent qubits 1 and 2 of a 3-qubit register.  The
    sparse branch of [apply_two_qubit_gate] walks [range(0, n_qubits, 2)],
    never meets the odd lower index and returns a 4 x 4 operator, where the
    dense branch returns the 8 x 8 one; the sparse run then stops on the
    shape mismatch of the product while the dense run returns the all-zero
    state. *)
Theorem sparse_two_qubit_expansion_differs_from_dense :
  match apply_two_qubit_gate cnot 1 2 3 true, apply_two_qubit_gate cnot 1 2 3 false with
  | Ok s, Ok d =>
      nrows (operator_array s) = 4 /\ ncols (operator_array s) = 4 /\
      nrows (operator_array d) = 8 /\ ncols (operator_array d) = 8
  | _, _ => False
  end
  /\ (let w := add_gates ([], mkCircuit 3 true false (zero_state 3) [])
                 [("CNOT"%string, [1%Z; 2%Z], [])] in
      snd (run false (fst w) (snd w)) = Raise ShapeMismatch)
  /\ (let w := add_gates ([], mkCircuit 3 false false (zero_state 3) [])
                 [("CNOT"%string, [1%Z; 2%Z], [])] in
      snd (run false (fst w) (snd w)) = Ok (zero_state 3)).
Proof.
  split; [|split].
  - vm_compute. repeat split.
  - vm_compute. reflexivity.
  - vm_compute. f_equal. vector_eq.
Qed.

(** ** Norm preservation *)

Section NormFacts.
Local Open Scope R_scope.

Definition Rsum (l : list R) : R := fold_right Rplus 0 l.

Lemma normsq_Rsum v : normsq v = Rsum (map Cmod2 v).
Proof. induction v as [|a v IH]; simpl; [reflexivity|]. rewrite IH. reflexivity. Qed.

Lemma normsq_app u v : normsq (u ++ v) = normsq u + normsq v.
Proof. induction u as [|a u IH]; simpl; [ring|]. rewrite IH. ring. Qed.

Lemma normsq_concat vs : normsq (concat vs) = Rsum (map normsq vs).
Proof.
  induction vs as [|v vs IH]; simpl; [reflexivity|].
  rewrite normsq_app, IH. reflexivity.
Qed.

Lemma normsq_flat_map {X} (f : X -> vector) l :
  normsq (flat_map f l) = Rsum (map (fun x => normsq (f x)) l).
Proof.
  induction l as [|x l IH]; simpl; [reflexivity|].
  rewrite normsq_app, IH. reflexivity.
Qed.

Lemma Rsum_plus {X} (f g : X -> R) l :
  Rsum (map (fun x => f x + g x) l) = Rsum (map f l) + Rsum (map g l).
Proof. induction l as [|x l IH]; simpl; [ring|]. rewrite IH. ring. Qed.

Lemma Rsum_zero {X} (l : list X) : Rsum (map (fun _ => 0) l) = 0.
Proof. induction l as [|x l IH]; simpl; [reflexivity|]. rewrite IH. ring. Qed.

(** Exchange of two finite sums. *)
Lemma Rsum_swap {X Y} (f : X -> Y -> R) l1 l2 :
  Rsum (map (fun x => Rsum (map (f x) l2)) l1) =
  Rsum (map (fun y => Rsum (map (fun x => f x y) l1)) l2).
Proof.
  induction l1 as [|x l1 IH]; simpl.
  - rewrite Rsum_zero. reflexivity.
  - rewrite IH. rewrite <- Rsum_plus. reflexivity.
Qed.

Lemma Rsum_ext {X} (f g : X -> R) l :
  Forall (fun x => f x = g x) l -> Rsum (map f l) = Rsum (map g l).
Proof. intros H. f_equal. apply map_ext_Forall. exact H. Qed.

Lemma dot_comm r v : dot r v = dot v r.
Proof.
  revert v. induction r as [|a r IH]; intros [|b v]; simpl; try reflexivity.
  rewrite IH, Cmult_comm. reflexivity.
Qed.

(** A row of a Kronecker product against a vector given by its chunks. *)
Lemma dot_kron_row_concat ra rb vs :
  length ra = length vs ->
  Forall (fun c => length c = length rb) vs ->
  dot (kron_row ra rb) (concat vs) = dot ra (map (dot rb) vs).
Proof.
  intros Hlen Hvs. revert ra Hlen.
  induction Hvs as [|c vs Hc Hvs IH]; intros [|a ra] Hlen; simpl in *; try discriminate.
  - reflexivity.
  - rewrite dot_app by (rewrite length_map; symmetry; exact Hc).
    rewrite IH by lia. f_equal.
    rewrite <- (map_Cmult_1 c) at 1. rewrite dot_scale.
    apply C_eq; simpl; ring.
Qed.

(** Every vector of length [p * q] is a sequence of [p] chunks of length
    [q]. *)
Lemma chunks_exist p q (v : vector) :
  length v = (p * q)%nat ->
  exists vs, v = concat vs /\ length vs = p /\ Forall (fun c => length c = q) vs.
Proof.
  revert v. induction p as [|p IH]; intros v Hlen; simpl in Hlen.
  - exists []. destruct v; [|discriminate]. repeat split. constructor.
  - destruct (IH (drop q v)) as (vs & Hv & Hvs & Hall).
    { rewrite length_drop. lia. }
    exists (take q v :: vs). simpl. repeat split.
    + rewrite <- Hv. symmetry. apply take_drop.
    + congruence.
    + constructor; [|exact Hall]. rewrite length_take. lia.
Qed.

(** [M] has [c] columns, at least one row, and preserves the norm of every
    vector it applies to. *)
Definition norm_preserving (c : nat) (M : Matrix) : Prop :=
  wf_matrix c M /\ M <> [] /\
  forall v, length v = c -> normsq (matvec M v) = normsq v.

Lemma kron_norm_preserving p q A B :
  norm_preserving p A -> norm_preserving q B ->
  norm_preserving (p * q) (kron A B).
Proof.
  intros (HA & HAne & HAn) (HB & HBne & HBn). split; [|split].
  - apply kron_wf; assumption.
  - intros H. apply (f_equal nrows) in H. rewrite kron_nrows in H.
    unfold nrows in H. destruct A, B; simpl in *; try congruence; lia.
  - intros v Hlen.
    destruct (chunks_exist p q v Hlen) as (vs & -> & Hvs & Hall).
    assert (E : matvec (kron A B) (concat vs) =
                flat_map (fun ra => map (fun w => dot ra w)
                            (map (fun rb => map (dot rb) vs) B)) A).
    { unfold matvec, kron. clear HAne HAn.
      induction HA as [|ra A Hra HA IH]; simpl; [reflexivity|].
      rewrite map_app, IH. f_equal. rewrite !map_map.
      apply map_ext_Forall. eapply Forall_impl; [exact HB|].
      intros rb Hrb. cbv beta in *. apply dot_kron_row_concat; [lia|].
      eapply Forall_impl; [exact Hall|]. cbv beta. intros; lia. }
    rewrite E, normsq_flat_map.
    transitivity (Rsum (map (fun ra => Rsum (map (fun w => Cmod2 (dot ra w))
                    (map (fun rb => map (dot rb) vs) B))) A)).
    { apply Rsum_ext. apply Forall_forall. intros ra _.
      rewrite normsq_Rsum, map_map. reflexivity. }
    rewrite (Rsum_swap (fun ra w => Cmod2 (dot ra w)) A
               (map (fun rb => map (dot rb) vs) B)).
    transitivity (Rsum (map normsq (map (fun rb => map (dot rb) vs) B))).
    { apply Rsum_ext. apply Forall_map. apply Forall_forall. intros rb _.
      cbv beta.
      rewrite <- (HAn (map (dot rb) vs)) by (rewrite length_map; exact Hvs).
      unfold matvec. rewrite normsq_Rsum, map_map.
      apply Rsum_ext. apply Forall_forall. intros ra _.
      rewrite dot_comm. reflexivity. }
    rewrite map_map.
    transitivity (Rsum (map (fun rb => Rsum (map (fun c => Cmod2 (dot rb c)) vs)) B)).
    { apply Rsum_ext. apply Forall_forall. intros rb _.
      rewrite normsq_Rsum, map_map. reflexivity. }
    rewrite (Rsum_swap (fun rb c => Cmod2 (dot rb c)) B vs), normsq_concat.
    apply Rsum_ext. eapply Forall_impl; [exact Hall|].
    intros c Hc. simpl. rewrite <- (HBn c Hc).
    unfold matvec. rewrite normsq_Rsum, map_map. reflexivity.
Qed.

End NormFacts.

(** ** The gates of the library preserve the norm *)

Section GateNorms.
Local Open Scope R_scope.

Lemma cos_sin_unit x : cos x * cos x + sin x * sin x = 1.
Proof. pose proof (sin2_cos2 x) as H. unfold Rsqr in H. lra. Qed.

Lemma inv_sqrt2_sq : / sqrt 2 * / sqrt 2 * 2 = 1.
Proof.
  assert (H : sqrt 2 * sqrt 2 = 2) by (apply sqrt_sqrt; lra).
  assert (Hne : sqrt 2 <> 0) by (intros E; rewrite E in H; lra).
  field_simplify_eq; [|exact Hne]. rewrite <- H at 1. ring.
Qed.

(** Splits a vector of known length into its entries and reduces the norm
    equation to an equation between real polynomials. *)
Ltac norm_equation :=
  let v := fresh "v" in let Hlen := fresh "Hlen" in
  intros v Hlen;
  repeat (destruct v as [|[? ?] v]; [discriminate Hlen|]);
  destruct v; [|discriminate Hlen];
  unfold normsq, matvec, Cmod2; simpl.

Ltac wf_nonempty := split; [repeat constructor|split; [discriminate|]].

Lemma eye1_norm_preserving : norm_preserving 1 (eye 1).
Proof. wf_nonempty. norm_equation. ring. Qed.

Lemma eye2_norm_preserving : norm_preserving 2 (eye 2).
Proof. wf_nonempty. norm_equation. ring. Qed.

Lemma pauli_x_norm_preserving : norm_preserving 2 pauli_x.
Proof. wf_nonempty. norm_equation. ring. Qed.

Lemma pauli_y_norm_preserving : norm_preserving 2 pauli_y.
Proof. wf_nonempty. norm_equation. ring. Qed.

Lemma pauli_z_norm_preserving : norm_preserving 2 pauli_z.
Proof. wf_nonempty. norm_equation. ring. Qed.

Lemma hadamard_norm_preserving : norm_preserving 2 hadamard.
Proof.
  wf_nonempty. norm_equation. unfold Rdiv.
  pose proof inv_sqrt2_sq as H. set (t := / sqrt 2) in *. nsatz.
Qed.

Lemma phase_norm_preserving phi : norm_preserving 2 (phase phi).
Proof.
  wf_nonempty. norm_equation.
  pose proof (cos_sin_unit phi) as H.
  set (c := cos phi) in *. set (s := sin phi) in *. nsatz.
Qed.

Lemma t_gate_norm_preserving : norm_preserving 2 t_gate.
Proof. apply (phase_norm_preserving (PI / 4)). Qed.

Lemma s_gate_norm_preserving : norm_preserving 2 s_gate.
Proof. wf_nonempty. norm_equation. ring. Qed.

Lemma rx_norm_preserving theta : norm_preserving 2 (rx theta).
Proof.
  wf_nonempty. norm_equation.
  pose proof (cos_sin_unit (theta / 2)) as H.
  set (c := cos (theta / 2)) in *. set (s := sin (theta / 2)) in *. nsatz.
Qed.

Lemma ry_norm_preserving theta : norm_preserving 2 (ry theta).
Proof.
  wf_nonempty. norm_equation.
  pose proof (cos_sin_unit (theta / 2)) as H.
  set (c := cos (theta / 2)) in *. set (s := sin (theta / 2)) in *. nsatz.
Qed.

Lemma rz_norm_preserving theta : norm_preserving 2 (rz theta).
Proof.
  wf_nonempty. norm_equation.
  pose proof (cos_sin_unit (theta / 2)) as H1.
  pose proof (cos_sin_unit (- theta / 2)) as H2.
  set (c1 := cos (theta / 2)) in *. set (s1 := sin (theta / 2)) in *.
  set (c2 := cos (- theta / 2)) in *. set (s2 := sin (- theta / 2)) in *. nsatz.
Qed.

Lemma cnot_norm_preserving : norm_preserving 4 cnot.
Proof. wf_nonempty. norm_equation. ring. Qed.

Lemma cz_norm_preserving : norm_preserving 4 cz.
Proof. wf_nonempty. norm_equation. ring. Qed.

Lemma swap_norm_preserving : norm_preserving 4 swap.
Proof. wf_nonempty. norm_equation. ring. Qed.

Lemma toffoli_norm_preserving : norm_preserving 8 toffoli.
Proof. wf_nonempty. norm_equation. ring. Qed.

End GateNorms.

(** Every matrix the gate library returns preserves the norm. *)
Lemma get_gate_norm_preserving name ps M :
  get_gate name ps = Ok M -> exists d, norm_preserving d M.
Proof.
  unfold get_gate, GATE_MAP.
  repeat match goal with
         | |- context [String.eqb ?a ?b] => destruct (String.eqb a b)
         end;
    intros H; inversion H; subst; eexists;
    eauto using pauli_x_norm_preserving, pauli_y_norm_preserving,
      pauli_z_norm_preserving, hadamard_norm_preserving, t_gate_norm_preserving,
      s_gate_norm_preserving, cnot_norm_preserving, cz_norm_preserving,
      swap_norm_preserving, toffoli_norm_preserving, rx_norm_preserving,
      ry_norm_preserving, rz_norm_preserving, phase_norm_preserving.
Qed.

(** ** cancel_inverse: the loop as a pass over the list *)

Section CancelPass.
Context {A : Type} (view : A -> GateNode).

(** What the loop of [_cancel_inverse_gates] computes from position [i]
    on, as a recursion on the rest of the list. *)
Fixpoint cancel_pass (l : list A) : list A :=
  match l with
  | [] => []
  | g1 :: tl =>
      match tl with
      | [] => [g1]
      | g2 :: rest =>
          if is_inverse_of (view g1) (view g2) then cancel_pass rest
          else g1 :: cancel_pass tl
      end
  end.

Lemma cancel_pass_cons2 g1 g2 rest :
  cancel_pass (g1 :: g2 :: rest)
  = if is_inverse_of (view g1) (view g2) then cancel_pass rest
    else g1 :: cancel_pass (g2 :: rest).
Proof. reflexivity. Qed.

Lemma cancel_while_pass fuel (gates : list A) : forall i optimized,
  length gates - i < fuel ->
  cancel_while view fuel gates i optimized
  = Ok (optimized ++ cancel_pass (drop i gates)).
Proof.
  induction fuel as [|fuel IH]; intros i optimized Hfuel; [lia|].
  simpl. destruct (gates !! i) as [gate|] eqn:Hi.
  - pose proof (lookup_lt_Some _ _ _ Hi) as Hlt.
    rewrite (drop_S _ _ _ Hi).
    replace (i + 1) with (S i) by lia. replace (i + 2) with (S (S i)) by lia.
    destruct (gates !! S i) as [next|] eqn:Hn.
    + rewrite (drop_S _ _ _ Hn). simpl.
      destruct (is_inverse_of (view gate) (view next)).
      * apply IH. lia.
      * rewrite IH by lia. rewrite (drop_S _ _ _ Hn), <- app_assoc. reflexivity.
    + rewrite IH by lia.
      apply lookup_ge_None in Hn. rewrite (drop_ge _ (S i)) by exact Hn.
      rewrite <- app_assoc. reflexivity.
  - apply lookup_ge_None in Hi. rewrite drop_ge by exact Hi.
    rewrite app_nil_r. reflexivity.
Qed.

(** The loop ends within its fuel and returns the pass over the list. *)
Lemma cancel_inverse_gates_pass (gates : list A) :
  _cancel_inverse_gates view gates = Ok (cancel_pass gates).
Proof.
  unfold _cancel_inverse_gates. rewrite cancel_while_pass by lia. reflexivity.
Qed.

End CancelPass.

(** The rule in the words of the specification: one pass from the left; two
    consecutive gates with the same name among X, Y, Z, H, CNOT and the same
    target list are both dropped and the pass resumes behind them; any
    other gate is kept and the pass resumes at the next gate. *)
Definition self_inverse_name (name : string) : Prop :=
  name = "X"%string \/ name = "Y"%string \/ name = "Z"%string \/
  name = "H"%string \/ name = "CNOT"%string.

Definition self_inverse_pair (g1 g2 : GateNode) : Prop :=
  self_inverse_name (gate_name g1) /\ gate_name g2 = gate_name g1 /\
  qubits g1 = qubits g2.

Inductive single_pass_cancel : list GateNode -> list GateNode -> Prop :=
| spc_nil : single_pass_cancel [] []
| spc_drop g1 g2 rest out :
    self_inverse_pair g1 g2 ->
    single_pass_cancel rest out ->
    single_pass_cancel (g1 :: g2 :: rest) out
| spc_last g : single_pass_cancel [g] [g]
| spc_keep g1 g2 rest out :
    ~ self_inverse_pair g1 g2 ->
    single_pass_cancel (g2 :: rest) out ->
    single_pass_cancel (g1 :: g2 :: rest) (g1 :: out).

Lemma inverse_pairs_spec name inv :
  inverse_pairs name = Some inv <-> self_inverse_name name /\ inv = name.
Proof.
  unfold inverse_pairs, self_inverse_name.
  repeat match goal with
         | |- context [String.eqb ?a ?b] => destruct (String.eqb_spec a b)
         end; subst; split;
    try (intros H; inversion H; subst; clear H);
    try (intros [H ->]); intuition (try discriminate; try congruence).
Qed.

Lemma is_inverse_of_spec g1 g2 :
  is_inverse_of g1 g2 = true <-> self_inverse_pair g1 g2.
Proof.
  unfold is_inverse_of, self_inverse_pair.
  destruct (inverse_pairs (gate_name g1)) as [inv|] eqn:E.
  - apply inverse_pairs_spec in E. destruct E as [Hn ->].
    rewrite andb_true_iff, String.eqb_eq, bool_decide_eq_true. tauto.
  - split; [discriminate|]. intros (Hn & _ & _).
    assert (H : inverse_pairs (gate_name g1) = Some (gate_name g1))
      by (apply inverse_pairs_spec; auto).
    congruence.
Qed.

Lemma cancel_pass_single_pass (l : list GateNode) :
  single_pass_cancel l (cancel_pass (fun g => g) l).
Proof.
  remember (length l) as k eqn:Hk. revert l Hk.
  induction k as [k IH] using lt_wf_ind. intros l Hk.
  destruct l as [|g1 [|g2 rest]]; simpl.
  - constructor.
  - constructor.
  - destruct (is_inverse_of g1 g2) eqn:E.
    + apply spc_drop; [apply is_inverse_of_spec; exact E|].
      eapply IH; [|reflexivity]. subst k. simpl. lia.
    + apply spc_keep.
      * rewrite <- is_inverse_of_spec. congruence.
      * eapply IH; [|reflexivity]. subst k. simpl. lia.
Qed.

Lemma single_pass_cancel_unique l out :
  single_pass_cancel l out -> out = cancel_pass (fun g => g) l.
Proof.
  induction 1 as [|g1 g2 rest out Hp _ IH| |g1 g2 rest out Hp _ IH]; simpl.
  - reflexivity.
  - apply is_inverse_of_spec in Hp. rewrite Hp. exact IH.
  - reflexivity.
  - destruct (is_inverse_of g1 g2) eqn:E.
    + apply is_inverse_of_spec in E. contradiction.
    + rewrite IH. reflexivity.
Qed.

(** C7.  [_cancel_inverse_gates] returns, for every gate list, the one list
    the single left-to-right pass describes.  In particular a gate kept in
    front of a cancelled pair stays in the output, and the pass resumes
    behind the pair: the gate is not matched against what follows the pair,
    so pairs that only become adjacent through a removal remain. *)
Theorem cancel_inverse_is_single_forward_pass (gates : list GateNode) :
  (exists out,
     _cancel_inverse_gates (fun g => g) gates = Ok out
     /\ single_pass_cancel gates out
     /\ forall out', single_pass_cancel gates out' -> out' = out)
  /\ (forall g a b rest,
        gates = g :: a :: b :: rest ->
        ~ self_inverse_pair g a -> self_inverse_pair a b ->
        exists out,
          _cancel_inverse_gates (fun g => g) rest = Ok out
          /\ _cancel_inverse_gates (fun g => g) gates = Ok (g :: out)).
Proof.
  split.
  - exists (cancel_pass (fun g => g) gates). split; [|split].
    + apply cancel_inverse_gates_pass.
    + apply cancel_pass_single_pass.
    + apply single_pass_cancel_unique.
  - intros g a b rest -> Hga Hab.
    exists (cancel_pass (fun g => g) rest). rewrite !cancel_inverse_gates_pass.
    split; [reflexivity|]. simpl.
    destruct (is_inverse_of g a) eqn:E1.
    + apply is_inverse_of_spec in E1. contradiction.
    + apply is_inverse_of_spec in Hab. rewrite Hab. reflexivity.
Qed.

(** H X X H: the pass removes X X and keeps both H. *)
Example cancel_inverse_not_a_fixpoint :
  let H0 := {| gate_name := "H"; qubits := [0%Z]; params := []; depth := 0 |} in
  let X0 := {| gate_name := "X"; qubits := [0%Z]; params := []; depth := 0 |} in
  _cancel_inverse_gates (fun g => g) [H0; X0; X0; H0] = Ok [H0; H0].
Proof. vm_compute. reflexivity. Qed.

(** ** merge_rotations: the loops as a pass over the list *)

(** The test of the inner loop: the gate [g] continues the run that [gate]
    opened. *)
Definition same_run (gate g : GateNode) : bool :=
  String.eqb (gate_name g) (gate_name gate) && bool_decide (qubits g = qubits gate).

Section MergePass.
Context {A : Type} (view : A -> GateNode).

(** The inner loop as a recursion on the rest of the list: what is left
    behind the run, and the accumulated angle. *)
Fixpoint scan_run (gate : GateNode) (l : list A) (total : R) : list A * R :=
  match l with
  | g :: tl =>
      if same_run gate (view g)
      then scan_run gate tl (total + params_get (params (view g)) "theta")%R
      else (l, total)
  | [] => ([], total)
  end.

(** The outer loop as a recursion on the rest of the list; [k] bounds its
    length. *)
Fixpoint merge_pass (k : nat) (l : list A) : list (A + GateNode) :=
  match k with
  | O => []
  | S k' =>
      match l with
      | [] => []
      | g :: tl =>
          let gate := view g in
          if rotation_gates (gate_name gate) && (length (qubits gate) =? 1)%nat then
            let scan := scan_run gate tl (params_get (params gate) "theta") in
            match merged_gate gate (snd scan) with
            | Some merged => inr merged :: merge_pass k' (fst scan)
            | None => merge_pass k' (fst scan)
            end
          else inl g :: merge_pass k' tl
      end
  end.

Lemma scan_run_length gate l total : length (fst (scan_run gate l total)) <= length l.
Proof.
  revert total. induction l as [|g l IH]; intros total; simpl; [lia|].
  destruct (same_run gate (view g)); simpl; [|lia].
  specialize (IH (total + params_get (params (view g)) "theta")%R). lia.
Qed.

Lemma merge_scan_run fuel (gates : list A) gate : forall j total,
  length gates - j < fuel ->
  exists j',
    merge_scan view fuel gates gate j total
    = Ok (j', snd (scan_run gate (drop j gates) total))
    /\ drop j' gates = fst (scan_run gate (drop j gates) total)
    /\ j <= j'.
Proof.
  induction fuel as [|fuel IH]; intros j total Hfuel; [lia|].
  simpl. destruct (gates !! j) as [gj|] eqn:Hj.
  - pose proof (lookup_lt_Some _ _ _ Hj) as Hlt.
    rewrite (drop_S _ _ _ Hj). simpl. unfold same_run.
    destruct (String.eqb (gate_name (view gj)) (gate_name gate)
              && bool_decide (qubits (view gj) = qubits gate)).
    + destruct (IH (j + 1) (total + params_get (params (view gj)) "theta")%R)
        as (j' & Hscan & Hdrop & Hle); [lia|].
      replace (j + 1) with (S j) in * by lia.
      exists j'. repeat split; [exact Hscan|exact Hdrop|lia].
    + exists j. simpl. repeat split; [|lia]. apply drop_S. exact Hj.
  - apply lookup_ge_None in Hj. rewrite drop_ge by exact Hj. simpl.
    exists j. repeat split; [|lia]. apply drop_ge. exact Hj.
Qed.

Lemma merge_while_pass fuel (gates : list A) : forall i optimized k,
  length gates - i < fuel -> length gates - i <= k ->
  merge_while view fuel gates i optimized
  = Ok (optimized ++ merge_pass k (drop i gates)).
Proof.
  induction fuel as [|fuel IH]; intros i optimized k Hfuel Hk; [lia|].
  cbn [merge_while]. destruct (gates !! i) as [g|] eqn:Hi.
  - pose proof (lookup_lt_Some _ _ _ Hi) as Hlt.
    rewrite (drop_S _ _ _ Hi).
    destruct k as [|k]; [lia|]. cbn [merge_pass].
    destruct (rotation_gates (gate_name (view g))
              && (length (qubits (view g)) =? 1)%nat).
    + destruct (merge_scan_run (S (length gates)) gates (view g) (i + 1)
                  (params_get (params (view g)) "theta"))
        as (j' & Hscan & Hdrop & Hle); [lia|].
      rewrite Hscan. replace (i + 1) with (S i) in * by lia.
      cbn [rbind fst snd]. rewrite <- Hdrop.
      destruct (merged_gate (view g) _).
      * rewrite (IH j' _ k) by lia. rewrite <- app_assoc. reflexivity.
      * rewrite (IH j' _ k) by lia. reflexivity.
    + rewrite (IH (i + 1) _ k) by lia.
      replace (i + 1) with (S i) by lia. rewrite <- app_assoc. reflexivity.
  - apply lookup_ge_None in Hi. rewrite drop_ge by exact Hi.
    destruct k; simpl; rewrite app_nil_r; reflexivity.
Qed.

(** The loops end within their fuel and return the pass over the list. *)
Lemma merge_rotation_gates_pass (gates : list A) :
  _merge_rotation_gates view gates = Ok (merge_pass (length gates) gates).
Proof.
  unfold _merge_rotation_gates.
  rewrite (merge_while_pass _ _ 0 [] (length gates)) by lia. reflexivity.
Qed.

Lemma merge_pass_fuel k : forall l,
  length l <= k -> merge_pass k l = merge_pass (length l) l.
Proof.
  induction k as [k IH] using lt_wf_ind. intros l Hk.
  destruct l as [|g tl]; [destruct k; reflexivity|].
  destruct k as [|k]; [simpl in Hk; lia|]. simpl in *.
  pose proof (scan_run_length (view g) tl (params_get (params (view g)) "theta")) as Hs.
  destruct (rotation_gates (gate_name (view g))
            && (length (qubits (view g)) =? 1)%nat).
  - rewrite (IH k) by lia. rewrite (IH (length tl)) by lia. reflexivity.
  - rewrite (IH k) by lia. reflexivity.
Qed.

End MergePass.

(** The rule in the words of the specification: a gate that is not a
    rotation on a single qubit is kept; a rotation on a single qubit opens a
    run, which extends over the following gates of the same kind on the same
    target for as long as they come; the run is replaced by one gate with
    the sum of the angles reduced modulo 2 pi, or by nothing when the reduced
    angle is within 1e-10 of zero. *)
Section MergeSpec.
Local Open Scope R_scope.







(** The record behind an entry of the rule's output. *)
Definition entry_node (e : GateNode + GateNode) : GateNode :=
  match e with
  | inl g => g
  | inr g => g
  end.








End MergeSpec.


(** ** The rules over the store *)

Section RulesUnderMap.
Context {A B : Type} (f : A -> B) (vA : A -> GateNode) (vB : B -> GateNode).
Hypothesis view_f : forall a, vB (f a) = vA a.

Lemma cancel_pass_map (l : list A) :
  cancel_pass vB (map f l) = map f (cancel_pass vA l).
Proof.
  remember (length l) as k eqn:Hk. revert l Hk.
  induction k as [k IH] using lt_wf_ind. intros l Hk.
  destruct l as [|g1 [|g2 rest]]; try reflexivity.
  change (map f (g1 :: g2 :: rest)) with (f g1 :: f g2 :: map f rest).
  rewrite !cancel_pass_cons2, !view_f.
  destruct (is_inverse_of (vA g1) (vA g2)).
  - eapply IH; [|reflexivity]. subst k. simpl. lia.
  - change (f g2 :: map f rest) with (map f (g2 :: rest)).
    rewrite (IH (length (g2 :: rest))); [reflexivity|subst k; simpl; lia|reflexivity].
Qed.

Lemma scan_run_map gate (l : list A) total :
  scan_run vB gate (map f l) total
  = (map f (fst (scan_run vA gate l total)), snd (scan_run vA gate l total)).
Proof.
  revert total. induction l as [|g l IH]; intros total; simpl; [reflexivity|].
  rewrite view_f. destruct (same_run gate (vA g)); [apply IH|reflexivity].
Qed.

Definition map_entry (e : A + GateNode) : B + GateNode :=
  match e with
  | inl a => inl (f a)
  | inr g => inr g
  end.

Lemma merge_pass_map k : forall (l : list A),
  merge_pass vB k (map f l) = map map_entry (merge_pass vA k l).
Proof.
  induction k as [|k IH]; intros l; [reflexivity|].
  destruct l as [|g tl]; [reflexivity|]. cbn [map merge_pass].
  rewrite view_f.
  destruct (rotation_gates (gate_name (vA g)) && (length (qubits (vA g)) =? 1)%nat).
  - rewrite scan_run_map. cbn [fst snd].
    destruct (merged_gate (vA g) _); cbn [map]; rewrite IH; reflexivity.
  - cbn [map]. rewrite IH. reflexivity.
Qed.

End RulesUnderMap.

(** What is kept by the rules satisfies what the input satisfies. *)
Lemma cancel_pass_Forall {A} (view : A -> GateNode) (P : A -> Prop) (l : list A) :
  Forall P l -> Forall P (cancel_pass view l).
Proof.
  remember (length l) as k eqn:Hk. revert l Hk.
  induction k as [k IH] using lt_wf_ind. intros l Hk Hall.
  destruct l as [|g1 [|g2 rest]]; try assumption.
  rewrite cancel_pass_cons2.
  inversion Hall as [|? ? H1 Hall']; subst. inversion Hall' as [|? ? H2 Hall'']; subst.
  destruct (is_inverse_of (view g1) (view g2)).
  - eapply IH; [|reflexivity|exact Hall'']. simpl. lia.
  - constructor; [exact H1|]. eapply IH; [|reflexivity|exact Hall']. simpl. lia.
Qed.

Lemma scan_run_Forall {A} (view : A -> GateNode) (P : A -> Prop) gate (l : list A) total :
  Forall P l -> Forall P (fst (scan_run view gate l total)).
Proof.
  revert total. induction l as [|g l IH]; intros total Hall; simpl; [constructor|].
  destruct (same_run gate (view g)); simpl; [|exact Hall].
  apply IH. inversion Hall; assumption.
Qed.

(** The references in the output of merge_rotations are references of the
    input. *)
Lemma merge_pass_refs {A} (view : A -> GateNode) (P : A -> Prop) k :
  forall (l : list A),
  Forall P l ->
  Forall (fun e => match e with
                   | inl a => P a
                   | inr _ => True
                   end) (merge_pass view k l).
Proof.
  induction k as [|k IH]; intros l Hall; [constructor|].
  destruct l as [|g tl]; [constructor|]. cbn [merge_pass].
  inversion Hall as [|? ? Hg Htl]; subst.
  pose proof (scan_run_Forall view _ (view g) tl
                (params_get (params (view g)) "theta") Htl) as Hrest.
  destruct (_ && _).
  - destruct (merged_gate _ _); [constructor; [exact I|]|]; apply IH; exact Hrest.
  - constructor; [exact Hg|]. apply IH. exact Htl.
Qed.

(** The entries of the output of merge_rotations are references of the
    input, or new records with the depth of a record of the input. *)
Lemma merge_pass_Forall {A} (view : A -> GateNode) (P : A -> Prop) (d : Z) k :
  forall (l : list A),
  Forall (fun a => P a /\ depth (view a) = d) l ->
  Forall (fun e => match e with
                   | inl a => P a /\ depth (view a) = d
                   | inr g => depth g = d
                   end) (merge_pass view k l).
Proof.
  induction k as [k IH] using lt_wf_ind. intros l Hall.
  destruct k as [|k]; [constructor|].
  destruct l as [|g tl]; [constructor|]. cbn [merge_pass].
  inversion Hall as [|? ? Hgd Htl]; subst. destruct Hgd as [Hg Hd].
  destruct (rotation_gates (gate_name (view g)) && (length (qubits (view g)) =? 1)%nat).
  - pose proof (scan_run_Forall view _ (view g) tl
                  (params_get (params (view g)) "theta") Htl) as Hrest.
    unfold merged_gate. destruct (Rgt_dec _ _).
    + constructor; [exact Hd|]. apply IH; [lia|exact Hrest].
    + apply IH; [lia|exact Hrest].
  - constructor; [split; assumption|]. apply IH; [lia|exact Htl].
Qed.

(** The record an entry of a rule's output stands for, in the store [h]. *)
Definition entry_in (h : heap) (e : ref + GateNode) : GateNode :=
  match e with
  | inl r => deref h r
  | inr g => g
  end.

Lemma alloc_all_spec out : forall h,
  Forall (fun e => match e with inl r => r < length h | inr _ => True end) out ->
  exists ext,
    fst (alloc_all h out) = h ++ ext
    /\ map (deref (fst (alloc_all h out))) (snd (alloc_all h out)) = map (entry_in h) out
    /\ Forall (fun r => r < length (fst (alloc_all h out))) (snd (alloc_all h out)).
Proof.
  induction out as [|e out IH]; intros h Hall.
  - exists []. simpl. rewrite app_nil_r. repeat split. constructor.
  - inversion Hall as [|? ? He Hout]; subst. destruct e as [r|g]; simpl.
    + destruct (IH h Hout) as (ext & Hh & Hmap & Hvalid).
      destruct (alloc_all h out) as [h' rs]. simpl in *. subst h'.
      exists ext. repeat split.
      * f_equal; [apply deref_app_l; exact He|exact Hmap].
      * constructor; [rewrite length_app; lia|exact Hvalid].
    + destruct (IH (h ++ [g])) as (ext & Hh & Hmap & Hvalid).
      { eapply Forall_impl; [exact Hout|]. intros [r|g'] Hr; [|exact I].
        rewrite length_app. simpl. lia. }
      destruct (alloc_all (h ++ [g]) out) as [h' rs]. simpl in *. subst h'.
      exists ([g] ++ ext). rewrite app_assoc. repeat split.
      * f_equal.
        -- unfold deref. rewrite lookup_app_l by (rewrite length_app; simpl; lia).
           rewrite lookup_app_r by lia. rewrite Nat.sub_diag. reflexivity.
        -- rewrite Hmap. apply map_ext_Forall.
           eapply Forall_impl; [exact Hout|]. intros [r|g'] Hr; [|reflexivity].
           simpl. apply deref_app_l. exact Hr.
      * constructor; [rewrite !length_app; simpl; lia|exact Hvalid].
Qed.

(** ** commute_gates on records of equal depth *)

Lemma commute_pass_equal_depths h ids d :
  Forall (fun r => depth (deref h r) = d) ids ->
  commute_pass h ids = (h, false).
Proof.
  intros Hall. unfold commute_pass.
  generalize (seq 0 (length ids - 1)). intros l.
  induction l as [|i l IH]; simpl; [reflexivity|].
  destruct (ids !! i) as [r1|] eqn:H1; [|exact IH].
  destruct (ids !! (i + 1)) as [r2|] eqn:H2; [|exact IH].
  rewrite (proj1 (Forall_lookup _ _) Hall _ _ H1).
  rewrite (proj1 (Forall_lookup _ _) Hall _ _ H2).
  rewrite Z.ltb_irrefl, andb_false_r. exact IH.
Qed.

Lemma commute_gates_equal_depths h ids d :
  Forall (fun r => depth (deref h r) = d) ids ->
  _commute_gates h ids = Ok (h, ids).
Proof.
  intros Hall. unfold _commute_gates. simpl.
  rewrite (commute_pass_equal_depths h ids d Hall). reflexivity.
Qed.

(** ** The optimizer on the program of a circuit *)

(** The records the default pipeline leaves, as a function of the records
    it is given: cancel_inverse, then merge_rotations; commute_gates keeps
    the list. *)
Definition optimized_nodes (l : list GateNode) : list GateNode :=
  map entry_node
    (merge_pass (fun g => g)
       (length (cancel_pass (fun g => g) l)) (cancel_pass (fun g => g) l)).

Lemma optimize_default h ids :
  optimize h ids None =
  try st2 <-
      (try st1 <- (try out <- _cancel_inverse_gates (deref h) ids in Ok (h, out)) in
       try out <- _merge_rotation_gates (deref (fst st1)) (snd st1) in
       Ok (alloc_all (fst st1) out)) in
  _commute_gates (fst st2) (snd st2).
Proof. reflexivity. Qed.

(** On references to records of depth 0, as [add_gate] creates them, the
    default pipeline ends and leaves references to [optimized_nodes]; the
    store only grows. *)
Lemma optimize_fresh h ids :
  Forall (fun r => r < length h /\ depth (deref h r) = 0%Z) ids ->
  exists h' ids',
    optimize h ids None = Ok (h', ids')
    /\ map (deref h') ids' = optimized_nodes (map (deref h) ids)
    /\ exists ext, h' = h ++ ext.
Proof.
  intros Hall.
  pose proof (cancel_pass_Forall (deref h) _ ids Hall) as H1.
  set (ids1 := cancel_pass (deref h) ids) in *.
  pose proof (merge_pass_Forall (deref h) (fun r => r < length h) 0 (length ids1) ids1 H1)
    as H2.
  set (out := merge_pass (deref h) (length ids1) ids1) in *.
  destruct (alloc_all_spec out h) as (ext & Hh & Hmap & Hvalid).
  { eapply Forall_impl; [exact H2|]. intros [r|g]; tauto. }
  exists (fst (alloc_all h out)), (snd (alloc_all h out)).
  assert (Hnodes : map (entry_in h) out = optimized_nodes (map (deref h) ids)).
  { unfold optimized_nodes.
    rewrite (cancel_pass_map (deref h) (deref h) (fun g => g)) by reflexivity.
    fold ids1. rewrite length_map.
    rewrite (merge_pass_map (deref h) (deref h) (fun g => g)) by reflexivity.
    fold out. rewrite map_map. apply map_ext. intros [r|g]; reflexivity. }
  split; [|split].
  - rewrite optimize_default, cancel_inverse_gates_pass. cbn [rbind fst snd].
    rewrite merge_rotation_gates_pass. cbn [rbind]. fold ids1. fold out.
    rewrite (commute_gates_equal_depths _ _ 0%Z).
    + destruct (alloc_all h out); reflexivity.
    + apply Forall_map with (f := deref (fst (alloc_all h out)))
                            (P := fun g => depth g = 0%Z).
      rewrite Hmap. apply Forall_map.
      eapply Forall_impl; [exact H2|]. intros [r|g]; simpl; tauto.
  - rewrite Hmap. exact Hnodes.
  - exists ext. exact Hh.
Qed.

(** The records a run executes for a circuit built from [data]. *)
Definition executed (optimize_flag : bool) (data : list gate_data) : list GateNode :=
  if optimize_flag then optimized_nodes (map node_of data) else map node_of data.

Lemma built_fresh h0 n sparse tn st0 data :
  let w := add_gates (h0, mkCircuit n sparse tn st0 []) data in
  Forall (fun r => r < length (fst w) /\ depth (deref (fst w) r) = 0%Z) (gates (snd w)).
Proof.
  simpl. pose proof (built_program h0 n sparse tn st0 data) as Hp. simpl in Hp.
  rewrite add_gates_spec in *. simpl in *.
  apply Forall_and. split.
  - apply Forall_forall. intros r Hr. apply elem_of_seq in Hr.
    rewrite length_app, length_map. lia.
  - apply Forall_map with (f := deref (h0 ++ map node_of data))
                          (P := fun g => depth g = 0%Z).
    rewrite Hp. apply Forall_map. apply Forall_forall. intros; reflexivity.
Qed.

(** The state-vector branch of [run] on a built circuit, in both modes: it
    runs the loop over [executed] from the all-zero state; the loops of the
    optimizer end within their fuel. *)
Lemma run_built h0 n sparse st0 data optimize_flag :
  let w := add_gates (h0, mkCircuit n sparse false st0 []) data in
  let loop := sv_loop n sparse (executed optimize_flag data) (zero_state n) in
  exists h',
    run optimize_flag (fst w) (snd w)
    = (h', set_state (snd w) (snd loop),
       match fst loop with
       | Ok _ => Ok (snd loop)
       | Raise e => Raise e
       | OutOfFuel => OutOfFuel
       end).
Proof.
  intros w loop.
  pose proof (built_program h0 n sparse false st0 data) as Hp.
  pose proof (built_fresh h0 n sparse false st0 data) as Hf.
  simpl in Hp, Hf. fold w in Hp, Hf.
  assert (Hn : n_qubits (snd w) = n) by (subst w; rewrite add_gates_spec; reflexivity).
  assert (Hs : use_sparse (snd w) = sparse) by (subst w; rewrite add_gates_spec; reflexivity).
  assert (Ht : use_tensor_network (snd w) = false)
    by (subst w; rewrite add_gates_spec; reflexivity).
  destruct optimize_flag.
  - destruct (optimize_fresh _ _ Hf) as (h' & ids' & Hopt & Hnodes & _).
    exists h'. unfold run. rewrite Hopt, Ht, create_zero_state, Hn, Hs, Hnodes, Hp.
    subst loop. unfold executed. destruct (sv_loop _ _ _ _) as [o st]. reflexivity.
  - exists (fst w). rewrite run_unoptimized by exact Ht.
    rewrite Hn, Hs, Hp. reflexivity.
Qed.

(** ** The basis index of a flipped qubit *)

Lemma single_x_product n i sparse :
  i < n ->
  sparse_state_vector_product
    (apply_single_qubit_gate pauli_x (Z.of_nat i) n sparse) (zero_state n)
  = Ok (basis (2 ^ n) (2 ^ (n - 1 - i))).
Proof.
  intros Hi.
  assert (Hop : sparse_state_vector_product
                  (apply_single_qubit_gate pauli_x (Z.of_nat i) n sparse) (zero_state n)
                = np_dot (operator_array
                    (apply_single_qubit_gate pauli_x (Z.of_nat i) n false)) (zero_state n)).
  { destruct sparse; [|reflexivity].
    rewrite <- apply_single_qubit_gate_sparse_dense. reflexivity. }
  rewrite Hop. apply sends_zero_np_dot. apply single_x_dense. exact Hi.
Qed.

(** A table filled with one outcome only has one key. *)
Lemma measure_counts_one_outcome (st : vector) (k : nat) (outcomes : list nat) :
  outcomes <> [] -> Forall (fun x => x = k) outcomes ->
  measure_counts st outcomes
  = [(format_0b (Nat.log2 (length st)) k, length outcomes)].
Proof.
  intros Hne Hall. unfold measure_counts.
  set (key := format_0b (Nat.log2 (length st)) k).
  assert (H : forall l c, Forall (fun x => x = k) l ->
            fold_left (fun counts outcome =>
                         count_incr counts (format_0b (Nat.log2 (length st)) outcome))
              l [(key, c)] = [(key, c + length l)]).
  { induction l as [|x l IH]; intros c Hl; simpl.
    - rewrite Nat.add_0_r. reflexivity.
    - inversion Hl as [|? ? Hx Hl']; subst x. fold key.
      rewrite String.eqb_refl, (IH (S c) Hl'). do 2 f_equal. lia. }
  destruct outcomes as [|x l]; [congruence|].
  inversion Hall as [|? ? Hx Hl]; subst x. simpl. fold key.
  rewrite (H l 1 Hl). reflexivity.
Qed.

(** The draw on a basis state can only give its index: every other index
    has probability 0. *)
Lemma basis_positive_probability (len m k : nat) (p : R) :
  m < len -> get_probabilities (basis len m) !! k = Some p -> (0 < p)%R -> k = m.
Proof.
  intros Hm Hp Hpos. unfold get_probabilities in Hp.
  rewrite list_lookup_fmap in Hp.
  destruct (basis len m !! k) as [a|] eqn:E; [|discriminate].
  assert (Hk : k < len).
  { apply lookup_lt_Some in E. rewrite basis_length in E. exact E. }
  rewrite (basis_lookup len m k Hm Hk) in E. inversion E; subst a.
  simpl in Hp. inversion Hp; subst p.
  destruct (Nat.eqb_spec k m) as [Heq|_]; [exact Heq|].
  rewrite Cmod2_0 in Hpos. lra.
Qed.

(** C3, as the code has it.  The basis index is big-endian in the qubits:
    for every register size [n], every qubit [i < n] and both construction
    policies, the operator that [apply_single_qubit_gate] builds for X on
    qubit [i] sends the all-zero state to the vector with amplitude 1 at
    index [2 ^ (n - 1 - i)] and 0 at every other index, and so does a run of
    the circuit that holds this one gate; the key that [measure_counts]
    prints for that index has its single '1' at position [i] counted from
    the left, so the leftmost (most significant) digit of a key is
    qubit 0; and the table that [measure_counts] returns for the session
    after that run, whatever outcomes the draw gives (indices of positive
    probability, at least one shot), holds that key alone, with the number
    of shots. *)
Theorem x_gate_sets_bit_counted_from_msb (n i : nat) (sparse : bool) :
  i < n ->
  (try st0 <- create_multi_qubit_state n 0 in
   sparse_state_vector_product
     (apply_single_qubit_gate pauli_x (Z.of_nat i) n sparse) st0)
  = Ok (basis (2 ^ n) (2 ^ (n - 1 - i)))
  /\ (forall h0 st0 optimize_flag,
        let w := add_gates (h0, mkCircuit n sparse false st0 [])
                   [("X"%string, [Z.of_nat i], [])] in
        snd (run optimize_flag (fst w) (snd w))
        = Ok (basis (2 ^ n) (2 ^ (n - 1 - i))))
  /\ (forall j, j < 2 ^ n ->
        basis (2 ^ n) (2 ^ (n - 1 - i)) !! j
        = Some (if Nat.eqb j (2 ^ (n - 1 - i)) then C1 else C0))
  /\ format_0b n (2 ^ (n - 1 - i))
     = (zeros i ++ String "1" (zeros (n - 1 - i)))%string
  /\ (forall h0 st0 optimize_flag outcomes,
        let w := add_gates (h0, mkCircuit n sparse false st0 [])
                   [("X"%string, [Z.of_nat i], [])] in
        let session := snd (fst (run optimize_flag (fst w) (snd w))) in
        outcomes <> [] ->
        Forall (fun k => exists p, get_probabilities (state session) !! k = Some p
                                   /\ (0 < p)%R) outcomes ->
        measure_counts (state session) outcomes
        = [((zeros i ++ String "1" (zeros (n - 1 - i)))%string, length outcomes)]).
Proof.
  intros Hi.
  assert (Hlt : 2 ^ (n - 1 - i) < 2 ^ n)
    by (apply Nat.pow_lt_mono_r; lia).
  assert (Hex : forall optimize_flag,
            executed optimize_flag [("X"%string, [Z.of_nat i], [])]
            = [node_of ("X"%string, [Z.of_nat i], [])])
    by (intros []; reflexivity).
  assert (Hloop : forall optimize_flag,
            sv_loop n sparse (executed optimize_flag [("X"%string, [Z.of_nat i], [])])
              (zero_state n)
            = (Ok tt, basis (2 ^ n) (2 ^ (n - 1 - i)))).
  { intros optimize_flag. rewrite Hex. cbn [sv_loop]. unfold apply_gate_node.
    cbn [node_of gate_name params qubits fst snd].
    change (get_gate "X" []) with (Ok pauli_x). cbn [rbind].
    rewrite (single_x_product n i sparse Hi). reflexivity. }
  assert (Hkey : format_0b n (2 ^ (n - 1 - i))
                 = (zeros i ++ String "1" (zeros (n - 1 - i)))%string).
  { rewrite format_0b_pow2 by lia. do 2 f_equal. lia. }
  split; [|split; [|split; [|split]]].
  - rewrite create_zero_state. apply single_x_product. exact Hi.
  - intros h0 st0 optimize_flag.
    destruct (run_built h0 n sparse st0 [("X"%string, [Z.of_nat i], [])] optimize_flag)
      as (h' & Hrun).
    cbv zeta. rewrite Hrun, Hloop. reflexivity.
  - intros j Hj. apply basis_lookup; assumption.
  - exact Hkey.
  - intros h0 st0 optimize_flag outcomes.
    destruct (run_built h0 n sparse st0 [("X"%string, [Z.of_nat i], [])] optimize_flag)
      as (h' & Hrun).
    cbv zeta. rewrite Hrun, Hloop. unfold set_state. cbn [fst snd state].
    intros Hne Hdrawn.
    rewrite (measure_counts_one_outcome _ (2 ^ (n - 1 - i)) outcomes Hne).
    + rewrite basis_length, Nat.log2_pow2 by lia. rewrite Hkey. reflexivity.
    + eapply Forall_impl; [exact Hdrawn|]. simpl. intros k (p & Hp & Hpos).
      eapply basis_positive_probability; eassumption.
Qed.

Lemma x_gate_sets_bit_counted_from_msb_witness :
  (try st0 <- create_multi_qubit_state 3 0 in
   sparse_state_vector_product
     (apply_single_qubit_gate pauli_x (Z.of_nat 0) 3 false) st0)
  = Ok (basis (2 ^ 3) (2 ^ (3 - 1 - 0)))
  /\ (forall h0 st0 optimize_flag,
        let w := add_gates (h0, mkCircuit 3 false false st0 [])
                   [("X"%string, [Z.of_nat 0], [])] in
        snd (run optimize_flag (fst w) (snd w))
        = Ok (basis (2 ^ 3) (2 ^ (3 - 1 - 0))))
  /\ (forall j, j < 2 ^ 3 ->
        basis (2 ^ 3) (2 ^ (3 - 1 - 0)) !! j
        = Some (if Nat.eqb j (2 ^ (3 - 1 - 0)) then C1 else C0))
  /\ format_0b 3 (2 ^ (3 - 1 - 0))
     = (zeros 0 ++ String "1" (zeros (3 - 1 - 0)))%string
  /\ (forall h0 st0 optimize_flag outcomes,
        let w := add_gates (h0, mkCircuit 3 false false st0 [])
                   [("X"%string, [Z.of_nat 0], [])] in
        let session := snd (fst (run optimize_flag (fst w) (snd w))) in
        outcomes <> [] ->
        Forall (fun k => exists p, get_probabilities (state session) !! k = Some p
                                   /\ (0 < p)%R) outcomes ->
        measure_counts (state session) outcomes
        = [((zeros 0 ++ String "1" (zeros (3 - 1 - 0)))%string, length outcomes)]).
Proof. apply (x_gate_sets_bit_counted_from_msb 3 0 false). lia. Defined.

(** C3 as stated fails: on two qubits, X on qubit 0 leaves amplitude 0 at
    basis index [2 ^ 0 = 1]; the amplitude 1 is at index 2. *)
Lemma x_on_qubit_0_of_2_is_at_index_2 :
  (try st0 <- create_multi_qubit_state 2 0 in
   sparse_state_vector_product (apply_single_qubit_gate pauli_x 0 2 false) st0)
  = Ok [C0; C0; C1; C0]
  /\ (let w := add_gates ([], mkCircuit 2 false false (zero_state 2) [])
                 [("X"%string, [0%Z], [])] in
      snd (run true (fst w) (snd w)) = Ok [C0; C0; C1; C0])
  /\ [C0; C0; C1; C0] !! (2 ^ 0) = Some C0
  /\ C0 <> C1.
Proof.
  split; [|split; [|split]].
  - rewrite create_zero_state.
    exact (sends_zero_np_dot 2 _ _ (single_x_dense 2 0 ltac:(lia))).
  - vm_compute. f_equal. vector_eq.
  - reflexivity.
  - intros H. apply (f_equal fst) in H. simpl in H. lra.
Qed.

(** ** Runs that reach a gate on non-adjacent targets *)

(** C10, as the code has it.  For target indices with [|a - b| <> 1] the
    expansion of a two-qubit gate raises UnsupportedTopology under both
    construction policies, whatever the gate matrix.  A run of the
    state-vector backend stops with that error when the sequence it
    executes (the program, or with optimization what the optimizer leaves
    of it) reaches a gate on such targets whose name is a recognised one,
    the gates before it having been applied without error; the session's
    vector is then the one those gates produced.  Without optimization the
    executed sequence is the program itself. *)
Theorem non_adjacent_two_qubit_gate_is_refused
    (gate : Matrix) (a b : Z) (n : nat) (sparse : bool) :
  Z.abs (a - b) <> 1%Z ->
  apply_two_qubit_gate gate a b n sparse = Raise UnsupportedTopology
  /\ (forall h0 st0 data optimize_flag pre g post gate_matrix st,
        executed optimize_flag data = pre ++ g :: post ->
        qubits g = [a; b] ->
        get_gate (gate_name g) (params g) = Ok gate_matrix ->
        sv_loop n sparse pre (zero_state n) = (Ok tt, st) ->
        let w := add_gates (h0, mkCircuit n sparse false st0 []) data in
        let r := run optimize_flag (fst w) (snd w) in
        snd r = Raise UnsupportedTopology /\ state (snd (fst r)) = st)
  /\ (forall h0 st0 pre name ps post gate_matrix st,
        get_gate name ps = Ok gate_matrix ->
        sv_loop n sparse (map node_of pre) (zero_state n) = (Ok tt, st) ->
        let w := add_gates (h0, mkCircuit n sparse false st0 [])
                   (pre ++ (name, [a; b], ps) :: post) in
        run false (fst w) (snd w)
        = (fst w, set_state (snd w) st, Raise UnsupportedTopology)).
Proof.
  intros Hab. split; [apply non_adjacent_raises; exact Hab|]. split.
  - intros h0 st0 data optimize_flag pre g post gate_matrix st Hex Hq Hname Hpre.
    destruct (run_built h0 n sparse st0 data optimize_flag) as (h' & Hrun).
    cbv zeta. rewrite Hrun. clear Hrun.
    rewrite Hex, (sv_loop_app _ _ _ _ _ _ Hpre).
    cbn [sv_loop]. unfold apply_gate_node. rewrite Hname, Hq. cbn [rbind].
    rewrite (non_adjacent_raises _ _ _ _ _ Hab). split; reflexivity.
  - intros h0 st0 pre name ps post gate_matrix st Hname Hpre w.
    rewrite run_unoptimized by (subst w; rewrite add_gates_spec; reflexivity).
    pose proof (built_program h0 n sparse false st0 (pre ++ (name, [a; b], ps) :: post)) as Hp.
    simpl in Hp. fold w in Hp. rewrite Hp.
    assert (Hn : n_qubits (snd w) = n) by (subst w; rewrite add_gates_spec; reflexivity).
    assert (Hs : use_sparse (snd w) = sparse) by (subst w; rewrite add_gates_spec; reflexivity).
    rewrite Hn, Hs, map_app. simpl.
    rewrite (sv_loop_app _ _ _ _ _ _ Hpre). simpl.
    unfold apply_gate_node. simpl. rewrite Hname. simpl.
    rewrite (non_adjacent_raises _ _ _ _ _ Hab). reflexivity.
Qed.

Lemma non_adjacent_two_qubit_gate_is_refused_witness :
  apply_two_qubit_gate cnot 0 2 3 false = Raise UnsupportedTopology
  /\ (let w := add_gates ([], mkCircuit 3 false false (zero_state 3) [])
                 [("CNOT"%string, [0%Z; 2%Z], [])] in
      let r := run true (fst w) (snd w) in
      snd r = Raise UnsupportedTopology /\ state (snd (fst r)) = zero_state 3)
  /\ (let w := add_gates ([], mkCircuit 3 false false (zero_state 3) [])
                 [("CNOT"%string, [0%Z; 2%Z], [])] in
      run false (fst w) (snd w)
      = (fst w, set_state (snd w) (zero_state 3), Raise UnsupportedTopology)).
Proof.
  assert (Hab : Z.abs (0 - 2) <> 1%Z) by (simpl; lia).
  destruct (non_adjacent_two_qubit_gate_is_refused cnot 0 2 3 false Hab)
    as (H1 & H2 & H3).
  split; [exact H1|]. split.
  - exact (H2 [] (zero_state 3) [("CNOT"%string, [0%Z; 2%Z], [])] true []
             {| gate_name := "CNOT"; qubits := [0%Z; 2%Z]; params := []; depth := 0 |}
             [] cnot (zero_state 3) eq_refl eq_refl eq_refl eq_refl).
  - exact (H3 [] (zero_state 3) [] "CNOT"%string [] [] cnot (zero_state 3) eq_refl eq_refl).
Defined.

(** C10 as stated fails for runs: with optimization (the default of [run]),
    two equal CNOT gates on the non-adjacent targets 0 and 2 are cancelled
    before any expansion, and the run returns the all-zero state. *)
Lemma cancelled_non_adjacent_pair_runs :
  Z.abs (0 - 2) <> 1%Z
  /\ (let w := add_gates ([], mkCircuit 3 false false (zero_state 3) [])
                 [("CNOT"%string, [0%Z; 2%Z], []); ("CNOT"%string, [0%Z; 2%Z], [])] in
      snd (run true (fst w) (snd w)) = Ok (zero_state 3)).
Proof.
  split; [simpl; lia|].
  vm_compute. reflexivity.
Qed.

(** ** Expanded operators preserve the norm *)

Lemma fold_kron_norm_preserving {X} (f : Matrix -> X -> Matrix) (l : list X) :
  (forall M c x, norm_preserving c M -> exists c', norm_preserving c' (f M x)) ->
  forall M c, norm_preserving c M -> exists c', norm_preserving c' (fold_left f l M).
Proof.
  intros Hstep. induction l as [|x l IH]; intros M c HM; simpl.
  - exists c. exact HM.
  - destruct (Hstep M c x HM) as (c' & HM'). apply (IH _ c' HM').
Qed.

Lemma apply_single_norm_preserving gate d q n sparse :
  norm_preserving d gate ->
  exists c, norm_preserving c (operator_array (apply_single_qubit_gate gate q n sparse)).
Proof.
  intros Hg.
  assert (Hdense : exists c,
    norm_preserving c (operator_array (apply_single_qubit_gate gate q n false))).
  { unfold apply_single_qubit_gate. simpl.
    assert (H0 : exists c, norm_preserving c (if (q =? 0)%Z then gate else eye 2)).
    { destruct (q =? 0)%Z; eauto using eye2_norm_preserving. }
    destruct H0 as (c0 & H0).
    eapply fold_kron_norm_preserving; [|exact H0].
    intros M c x HM. destruct (x =? q)%Z; eexists;
      apply kron_norm_preserving; eauto using eye2_norm_preserving. }
  destruct sparse; [|exact Hdense].
  rewrite apply_single_qubit_gate_sparse_dense. exact Hdense.
Qed.

Lemma sparse_place_norm_preserving idxs min_idx gate d : forall result c,
  norm_preserving d gate -> norm_preserving c (toarray result) ->
  exists c', norm_preserving c'
    (toarray (sparse_place idxs min_idx (CSR gate) (sparse_identity 2) result)).
Proof.
  induction idxs as [|i idxs IH]; intros result c Hg Hr; simpl.
  - exists c. exact Hr.
  - destruct (i =? min_idx)%Z.
    + eexists. simpl. apply kron_norm_preserving; eassumption.
    + eapply IH; [exact Hg|]. simpl.
      apply kron_norm_preserving; [exact Hr|apply eye2_norm_preserving].
Qed.

Lemma apply_two_norm_preserving gate d a b n sparse op :
  norm_preserving d gate ->
  apply_two_qubit_gate gate a b n sparse = Ok op ->
  exists c, norm_preserving c (operator_array op).
Proof.
  intros Hg. unfold apply_two_qubit_gate.
  destruct (negb _); [discriminate|].
  assert (Hid : forall (l : list Z) M c, norm_preserving c M ->
            exists c', norm_preserving c'
              (fold_left (fun result _ => kron result (eye 2)) l M)).
  { intros l. apply fold_kron_norm_preserving.
    intros M c _ HM. eexists. apply kron_norm_preserving;
      [exact HM|apply eye2_norm_preserving]. }
  destruct sparse; intros H; inversion H; subst; clear H; simpl.
  - destruct (sparse_place_norm_preserving (range_step2 (Z.of_nat n)) (Z.min a b)
                gate d (sparse_identity 1) 1 Hg eye1_norm_preserving) as (c1 & H1).
    generalize dependent (sparse_place (range_step2 (Z.of_nat n)) (Z.min a b)
                            (CSR gate) (sparse_identity 2) (sparse_identity 1)).
    intros result H1. clear Hg.
    generalize (range (Z.min a b + 2) (Z.of_nat n)). intros l.
    revert result c1 H1. induction l as [|x l IH]; intros result c1 H1; simpl.
    + exists c1. exact H1.
    + eapply IH. simpl. apply kron_norm_preserving;
        [exact H1|apply eye2_norm_preserving].
  - destruct (Hid (range 0 (Z.min a b)) (eye 1) 1 eye1_norm_preserving) as (c1 & H1).
    eapply Hid. apply kron_norm_preserving; eassumption.
Qed.

Lemma np_dot_norm c M v v' :
  norm_preserving c M -> np_dot M v = Ok v' -> normsq v' = normsq v.
Proof.
  intros (Hwf & Hne & Hn). unfold np_dot.
  rewrite (ncols_wf c M Hwf Hne).
  destruct (Nat.eqb_spec c (length v)) as [Hc|]; [|discriminate].
  intros H. inversion H; subst. apply Hn. reflexivity.
Qed.

Lemma apply_gate_node_norm n sparse g st st' :
  apply_gate_node n sparse g st = Ok st' -> normsq st' = normsq st.
Proof.
  unfold apply_gate_node.
  destruct (get_gate (gate_name g) (params g)) as [M| |] eqn:Hget; try discriminate.
  destruct (get_gate_norm_preserving _ _ _ Hget) as (d & Hd). simpl.
  assert (Hprod : forall op c, norm_preserving c (operator_array op) ->
            sparse_state_vector_product op st = Ok st' -> normsq st' = normsq st).
  { intros [m|m] c Hc; simpl; apply (np_dot_norm c); exact Hc. }
  destruct (qubits g) as [|q0 [|q1 [|q2 qs]]]; simpl; try discriminate.
  - destruct (apply_single_norm_preserving M d q0 n sparse Hd) as (c & Hc).
    apply (Hprod _ c Hc).
  - destruct (apply_two_qubit_gate M q0 q1 n sparse) as [op| |] eqn:Hop;
      try discriminate. simpl.
    destruct (apply_two_norm_preserving M d q0 q1 n sparse op Hd Hop) as (c & Hc).
    apply (Hprod _ c Hc).
Qed.

(** The session's vector keeps its norm through the loop, whether the loop
    ends or an exception leaves it. *)
Lemma sv_loop_norm n sparse l : forall st0,
  normsq (snd (sv_loop n sparse l st0)) = normsq st0.
Proof.
  induction l as [|g l IH]; intros st0; simpl; [reflexivity|].
  destruct (apply_gate_node n sparse g st0) as [st'| |] eqn:Hg; try reflexivity.
  rewrite IH. apply (apply_gate_node_norm _ _ _ _ _ Hg).
Qed.

(** The loop has no [while]: it never reports exhausted fuel. *)
Lemma get_gate_ends name ps : get_gate name ps <> OutOfFuel.
Proof.
  unfold get_gate. destruct (GATE_MAP name); [discriminate|].
  repeat match goal with
         | |- context [String.eqb ?a ?b] => destruct (String.eqb a b)
         end; discriminate.
Qed.

Lemma apply_gate_node_ends n sparse g st : apply_gate_node n sparse g st <> OutOfFuel.
Proof.
  unfold apply_gate_node.
  pose proof (get_gate_ends (gate_name g) (params g)) as Hg.
  destruct (get_gate _ _) as [M| |]; simpl; try congruence.
  assert (Hprod : forall op, sparse_state_vector_product op st <> OutOfFuel).
  { intros [m|m]; simpl; unfold np_dot; destruct (_ =? _)%nat; discriminate. }
  destruct (qubits g) as [|q0 [|q1 [|q2 qs]]]; simpl; try discriminate.
  - apply Hprod.
  - unfold apply_two_qubit_gate.
    destruct (negb _); [discriminate|].
    destruct sparse; cbn [rbind]; apply Hprod.
Qed.

Lemma sv_loop_ends n sparse l : forall st0, fst (sv_loop n sparse l st0) <> OutOfFuel.
Proof.
  induction l as [|g l IH]; intros st0; simpl; [discriminate|].
  pose proof (apply_gate_node_ends n sparse g st0) as Hg.
  destruct (apply_gate_node n sparse g st0); simpl;
    [apply IH|discriminate|congruence].
Qed.

Lemma sv_loop_prefix n sparse pre post : forall st0 st,
  sv_loop n sparse (pre ++ post) st0 = (Ok tt, st) ->
  exists st_pre, sv_loop n sparse pre st0 = (Ok tt, st_pre).
Proof.
  induction pre as [|g pre IH]; intros st0 st H; simpl in *.
  - eexists. reflexivity.
  - destruct (apply_gate_node n sparse g st0); try discriminate.
    eapply IH. exact H.
Qed.

Lemma normsq_basis len k : k < len -> normsq (basis len k) = 1%R.
Proof.
  intros Hk. rewrite (basis_split _ k Hk).
  assert (H : forall j, normsq (replicate j C0) = 0%R).
  { induction j as [|j IH]; simpl; [reflexivity|]. rewrite IH, Cmod2_0. ring. }
  rewrite normsq_app. simpl. rewrite !H, Cmod2_1. ring.
Qed.

Lemma normsq_zero_state n : normsq (zero_state n) = 1%R.
Proof. apply normsq_basis. apply pow2_pos. Qed.

(** For a circuit built with [add_gate] and run on the state-vector
    backend under either construction policy, with or without
    optimization: the run ends (the loops of the model do not exhaust
    their fuel); the session's vector after the run has squared norm 1,
    also when an exception stopped the run; a returned vector is that
    vector; when the run completes, the vector after each gate
    application of the executed sequence has squared norm 1; and the loop of
    [run], started on any basis state, leaves a vector of squared norm 1
    whatever gates it is given.  Floats are real numbers here, so the norm
    is exactly 1. *)
Lemma state_vector_run_preserves_unit_norm (h0 : heap) (n : nat) (sparse : bool) (st0 : vector)
    (data : list gate_data) (optimize_flag : bool) :
  let w := add_gates (h0, mkCircuit n sparse false st0 []) data in
  let r := run optimize_flag (fst w) (snd w) in
  snd r <> OutOfFuel
  /\ normsq (state (snd (fst r))) = 1%R
  /\ (forall st, snd r = Ok st -> st = state (snd (fst r)) /\ normsq st = 1%R)
  /\ (forall st pre post,
        snd r = Ok st -> executed optimize_flag data = pre ++ post ->
        exists st_pre,
          sv_loop n sparse pre (zero_state n) = (Ok tt, st_pre)
          /\ normsq st_pre = 1%R)
  /\ (forall k gates_to_run,
        k < 2 ^ n ->
        normsq (snd (sv_loop n sparse gates_to_run (basis (2 ^ n) k))) = 1%R).
Proof.
  intros w r.
  destruct (run_built h0 n sparse st0 data optimize_flag) as (h' & Hrun).
  fold w in Hrun. fold r in Hrun. simpl in Hrun.
  pose proof (sv_loop_norm n sparse (executed optimize_flag data) (zero_state n)) as Hnorm.
  rewrite normsq_zero_state in Hnorm.
  destruct (sv_loop n sparse (executed optimize_flag data) (zero_state n))
    as [o st_end] eqn:Hloop.
  simpl in Hrun, Hnorm. rewrite Hrun. simpl.
  pose proof (sv_loop_ends n sparse (executed optimize_flag data) (zero_state n)) as Ho.
  rewrite Hloop in Ho. simpl in Ho.
  split; [|split; [|split; [|split]]].
  - destruct o as [[]| |]; congruence.
  - exact Hnorm.
  - intros st Hst. destruct o as [[]| |]; inversion Hst; subst. split; [reflexivity|exact Hnorm].
  - intros st pre post Hst Hpre.
    destruct o as [[]| |]; try discriminate.
    rewrite Hpre in Hloop.
    destruct (sv_loop_prefix _ _ _ _ _ _ Hloop) as (st_pre & Hp).
    exists st_pre. split; [exact Hp|].
    pose proof (sv_loop_norm n sparse pre (zero_state n)) as Hn.
    rewrite Hp, normsq_zero_state in Hn. exact Hn.
  - intros k gates_to_run Hk. rewrite sv_loop_norm. apply normsq_basis. exact Hk.
Qed.

(** C6 as stated fails on the tensor-contraction backend, which [run]
    selects with [use_tensor_network]: a CNOT whose two targets are both
    qubit 0 of a one-qubit register is contracted without an error, with or
    without optimization, and the run returns the vector [1, 1], of squared
    norm 2. *)
Lemma tensor_network_cnot_on_one_qubit_has_norm_2 :
  (forall optimize_flag,
     let w := add_gates ([], mkCircuit 1 false true (zero_state 1) [])
                [("CNOT"%string, [0%Z; 0%Z], [])] in
     let r := run optimize_flag (fst w) (snd w) in
     snd r = Ok [C1; C1] /\ state (snd (fst r)) = [C1; C1])
  /\ normsq [C1; C1] = 2%R
  /\ 2%R <> 1%R.
Proof.
  split; [|split].
  - intros []; vm_compute; (split; [f_equal; vector_eq|vector_eq]).
  - simpl. rewrite Cmod2_1. ring.
  - lra.
Qed.

(** ** A gate with an unknown name *)

Lemma unknown_name_rules name ps e :
  get_gate name ps = Raise e ->
  e = UnknownGate name /\ inverse_pairs name = None /\ rotation_gates name = false.
Proof.
  unfold get_gate, GATE_MAP, inverse_pairs, rotation_gates.
  repeat match goal with
         | |- context [String.eqb name ?b] => destruct (String.eqb name b)
         end; try discriminate.
  intros H. inversion H. auto.
Qed.

Section Barrier.
Context {A : Type} (view : A -> GateNode) (bad : A).
Hypothesis bad_no_inverse : inverse_pairs (gate_name (view bad)) = None.
Hypothesis bad_no_rotation : rotation_gates (gate_name (view bad)) = false.

Lemma bad_is_no_inverse g : is_inverse_of (view g) (view bad) = false.
Proof.
  unfold is_inverse_of.
  destruct (inverse_pairs (gate_name (view g))) as [inv|] eqn:E; [|reflexivity].
  apply inverse_pairs_spec in E. destruct E as [Hn ->].
  destruct (String.eqb_spec (gate_name (view bad)) (gate_name (view g))) as [Heq|];
    [|reflexivity].
  assert (H : inverse_pairs (gate_name (view g)) = Some (gate_name (view g)))
    by (apply inverse_pairs_spec; auto).
  congruence.
Qed.

Lemma bad_has_no_inverse g : is_inverse_of (view bad) (view g) = false.
Proof. unfold is_inverse_of. rewrite bad_no_inverse. reflexivity. Qed.

Lemma cancel_pass_barrier pre rest :
  cancel_pass view (pre ++ bad :: rest)
  = cancel_pass view pre ++ bad :: cancel_pass view rest.
Proof.
  remember (length pre) as k eqn:Hk. revert pre Hk.
  induction k as [k IH] using lt_wf_ind. intros pre Hk.
  destruct pre as [|g1 [|g2 pre]].
  - simpl. destruct rest as [|g rest]; [reflexivity|].
    rewrite bad_has_no_inverse. reflexivity.
  - change ([g1] ++ bad :: rest) with (g1 :: bad :: rest).
    rewrite cancel_pass_cons2, bad_is_no_inverse.
    pose proof (IH 0 ltac:(subst k; simpl; lia) [] eq_refl) as H0.
    change ([] ++ bad :: rest) with (bad :: rest) in H0.
    rewrite H0. reflexivity.
  - change ((g1 :: g2 :: pre) ++ bad :: rest) with (g1 :: g2 :: (pre ++ bad :: rest)).
    rewrite !cancel_pass_cons2.
    destruct (is_inverse_of (view g1) (view g2)).
    + apply (IH (length pre)); [subst k; simpl; lia|reflexivity].
    + change (g2 :: pre ++ bad :: rest) with ((g2 :: pre) ++ bad :: rest).
      rewrite (IH (length (g2 :: pre)) ltac:(subst k; simpl; lia) _ eq_refl).
      reflexivity.
Qed.

Lemma scan_run_barrier gate l rest total :
  rotation_gates (gate_name gate) = true ->
  scan_run view gate (l ++ bad :: rest) total
  = (fst (scan_run view gate l total) ++ bad :: rest,
     snd (scan_run view gate l total)).
Proof.
  intros Hrot. revert total. induction l as [|g l IH]; intros total; simpl.
  - unfold same_run.
    destruct (String.eqb_spec (gate_name (view bad)) (gate_name gate)) as [Heq|];
      [|reflexivity].
    congruence.
  - destruct (same_run gate (view g)); [apply IH|reflexivity].
Qed.

Lemma merge_pass_barrier k : forall pre rest,
  length (pre ++ bad :: rest) <= k ->
  merge_pass view k (pre ++ bad :: rest)
  = merge_pass view (length pre) pre ++ inl bad :: merge_pass view (length rest) rest.
Proof.
  induction k as [k IH] using lt_wf_ind. intros pre rest Hk.
  destruct k as [|k]; [rewrite length_app in Hk; simpl in Hk; lia|].
  destruct pre as [|g pre].
  - simpl in *. rewrite bad_no_rotation. simpl.
    rewrite merge_pass_fuel by lia. reflexivity.
  - simpl in Hk. cbn [app length merge_pass].
    destruct (rotation_gates (gate_name (view g))) eqn:Hrot; cbn [andb].
    + destruct (length (qubits (view g)) =? 1)%nat.
      * rewrite scan_run_barrier by exact Hrot. cbn [fst snd].
        pose proof (scan_run_length view (view g) pre
                      (params_get (params (view g)) "theta")) as Hlen.
        rewrite (IH k) by (try rewrite length_app in *; simpl in *; lia).
        rewrite (merge_pass_fuel view (length pre)) by lia.
        destruct (merged_gate (view g) _); reflexivity.
      * rewrite (IH k) by lia. reflexivity.
    + rewrite (IH k) by lia. reflexivity.
Qed.

End Barrier.

Lemma optimized_nodes_barrier pre bad rest :
  inverse_pairs (gate_name bad) = None ->
  rotation_gates (gate_name bad) = false ->
  optimized_nodes (pre ++ bad :: rest)
  = optimized_nodes pre ++ bad :: optimized_nodes rest.
Proof.
  intros Hinv Hrot. unfold optimized_nodes.
  rewrite (cancel_pass_barrier (fun g => g) bad Hinv).
  rewrite (merge_pass_barrier (fun g => g) bad Hrot) by reflexivity.
  rewrite map_app. reflexivity.
Qed.

Lemma executed_barrier optimize_flag pre d post :
  inverse_pairs (fst (fst d)) = None ->
  rotation_gates (fst (fst d)) = false ->
  executed optimize_flag (pre ++ d :: post)
  = executed optimize_flag pre ++ node_of d :: executed optimize_flag post.
Proof.
  intros Hinv Hrot. unfold executed. rewrite map_app. simpl.
  destruct optimize_flag; [|reflexivity].
  apply optimized_nodes_barrier; assumption.
Qed.

(** C9, as the code has it.  On the state-vector backend, when the gate
    after a prefix [pre] has a name the gate library does not know, and the
    run of [pre] alone (same policy, same [optimize] flag) returns [st],
    then the run of the whole program raises UnknownGate and leaves [st] in
    the session; without optimization [st] is the result of the loop over
    the gates of [pre] from the all-zero state. *)
Theorem unknown_gate_leaves_intermediate_state
    (h0 : heap) (n : nat) (sparse : bool) (st0 : vector)
    (pre : list gate_data) (name : string) (qs : list Z) (ps : params_t)
    (post : list gate_data) (optimize_flag : bool) (st : vector) :
  get_gate name ps = Raise (UnknownGate name) ->
  (let w := add_gates (h0, mkCircuit n sparse false st0 []) pre in
   snd (run optimize_flag (fst w) (snd w)) = Ok st) ->
  let w := add_gates (h0, mkCircuit n sparse false st0 [])
             (pre ++ (name, qs, ps) :: post) in
  let r := run optimize_flag (fst w) (snd w) in
  snd r = Raise (UnknownGate name)
  /\ state (snd (fst r)) = st
  /\ (optimize_flag = false ->
      sv_loop n sparse (map node_of pre) (zero_state n) = (Ok tt, st)).
Proof.
  intros Hbad Hpre w r.
  destruct (unknown_name_rules _ _ _ Hbad) as (_ & Hinv & Hrot).
  destruct (run_built h0 n sparse st0 pre optimize_flag) as (h1 & Hrun1).
  simpl in Hpre, Hrun1. rewrite Hrun1 in Hpre. simpl in Hpre.
  destruct (sv_loop n sparse (executed optimize_flag pre) (zero_state n))
    as [o st1] eqn:Hloop1. simpl in Hpre.
  destruct o as [[]| |]; try discriminate. inversion Hpre; subst st1. clear Hpre.
  destruct (run_built h0 n sparse st0 (pre ++ (name, qs, ps) :: post) optimize_flag)
    as (h2 & Hrun2).
  fold w in Hrun2. fold r in Hrun2. simpl in Hrun2.
  rewrite (executed_barrier optimize_flag pre (name, qs, ps) post Hinv Hrot) in Hrun2.
  rewrite (sv_loop_app _ _ _ _ _ _ Hloop1) in Hrun2.
  simpl in Hrun2. unfold apply_gate_node in Hrun2. simpl in Hrun2.
  rewrite Hbad in Hrun2. simpl in Hrun2.
  rewrite Hrun2. simpl. repeat split.
  intros ->. exact Hloop1.
Qed.

Lemma unknown_gate_leaves_intermediate_state_witness :
  let w := add_gates ([], mkCircuit 1 false false (zero_state 1) [])
             ([("X"%string, [0%Z], [])] ++ ("FOO"%string, [0%Z], []) :: []) in
  let r := run false (fst w) (snd w) in
  snd r = Raise (UnknownGate "FOO")
  /\ state (snd (fst r)) = [C0; C1]
  /\ (false = false ->
      sv_loop 1 false (map node_of [("X"%string, [0%Z], [])]) (zero_state 1)
      = (Ok tt, [C0; C1])).
Proof.
  apply (unknown_gate_leaves_intermediate_state [] 1 false (zero_state 1)
           [("X"%string, [0%Z], [])] "FOO" [0%Z] [] [] false [C0; C1]).
  - reflexivity.
  - vm_compute. f_equal. vector_eq.
Defined.

(** C9 as stated fails on the tensor-network backend: [run] resolves every
    gate matrix before it assigns the session's vector, so the unknown gate
    behind an X leaves the vector the session had before the run, [1, 0],
    not the result [0, 1] of the X. *)
Lemma tensor_network_run_leaves_state_untouched :
  (let w := add_gates ([], mkCircuit 1 false true (zero_state 1) [])
              [("X"%string, [0%Z], []); ("FOO"%string, [0%Z], [])] in
   let r := run true (fst w) (snd w) in
   snd r = Raise (UnknownGate "FOO") /\ state (snd (fst r)) = [C1; C0])
  /\ (let w := add_gates ([], mkCircuit 1 false true (zero_state 1) [])
                 [("X"%string, [0%Z], [])] in
      snd (run true (fst w) (snd w)) = Ok [C0; C1])
  /\ [C1; C0] <> [C0; C1].
Proof.
  split; [|split].
  - vm_compute. split; reflexivity.
  - vm_compute. f_equal. vector_eq.
  - intros H. inversion H. lra.
Qed.

(** ** Optimizer equivalence *)

Section OptimizerEquivalence.
Local Open Scope R_scope.

(** Two vectors agree entry by entry within the tolerance [tol]. *)
Definition allclose (tol : R) (u v : vector) : Prop :=
  Forall2 (fun a b => Cmod2 (Cminus a b) <= tol * tol) u v.

Lemma py_mod_self m : m <> 0 -> py_mod m m = 0.
Proof.
  intros Hm. unfold py_mod.
  replace (m / m) with (IZR 1) by (field; exact Hm).
  rewrite ZfloorZ. ring.
Qed.

Lemma two_PI_neq_0 : 2 * PI <> 0.
Proof. pose proof PI_RGT_0. lra. Qed.

(** A rotation by a full turn is dropped by merge_rotations. *)
Lemma merged_gate_full_turn gate : merged_gate gate (2 * PI) = None.
Proof.
  unfold merged_gate. rewrite (py_mod_self _ two_PI_neq_0), Rabs_R0.
  destruct (Rgt_dec 0 (1 / 10 ^ 10)) as [H|]; [|reflexivity].
  exfalso. assert (0 < 1 / 10 ^ 10) by (apply Rdiv_lt_0_compat; [lra|apply pow_lt; lra]).
  lra.
Qed.

Lemma rx_full_turn : rx (2 * PI) = [[Copp C1; C0]; [C0; Copp C1]].
Proof.
  unfold rx. replace (2 * PI / 2) with PI by field.
  rewrite cos_PI, sin_PI.
  repeat (f_equal; try (apply C_eq; simpl; ring)).
Qed.

Lemma apply_rx_full_turn :
  apply_gate_node 1 false
    {| gate_name := "RX"; qubits := [0%Z];
       params := [("theta"%string, 2 * PI)]; depth := 0 |}
    (zero_state 1)
  = Ok [Copp C1; C0].
Proof.
  unfold apply_gate_node. cbn [gate_name qubits params].
  change (get_gate "RX" [("theta"%string, 2 * PI)]) with (Ok (rx (2 * PI))).
  rewrite rx_full_turn. vm_compute. f_equal. vector_eq.
Qed.

(** C1 at the one-qubit program RX(2 pi).  With optimization the angle is
    reduced modulo 2 pi to 0 and the gate is dropped, so the run returns
    [1, 0]; without optimization RX(2 pi) = -I is applied and the run
    returns [-1, 0].  The two vectors differ by 2 in their first entry. *)
Theorem optimizer_drops_rx_full_turn :
  let w := add_gates ([], mkCircuit 1 false false (zero_state 1) [])
             [("RX"%string, [0%Z], [("theta"%string, 2 * PI)])] in
  snd (run true (fst w) (snd w)) = Ok [C1; C0]
  /\ snd (run false (fst w) (snd w)) = Ok [Copp C1; C0]
  /\ ~ allclose (1 / 10 ^ 9) [C1; C0] [Copp C1; C0].
Proof.
  cbv zeta. split; [|split].
  - destruct (run_built [] 1 false (zero_state 1)
                [("RX"%string, [0%Z], [("theta"%string, 2 * PI)])] true) as (h' & Hrun).
    rewrite Hrun. clear Hrun. cbn [snd].
    unfold executed, optimized_nodes. cbn [map cancel_pass length merge_pass node_of
      fst snd gate_name qubits params rotation_gates].
    simpl String.eqb. cbn [orb andb Nat.eqb length scan_run fst snd params_get].
    simpl String.eqb. cbn iota.
    rewrite merged_gate_full_turn. reflexivity.
  - destruct (run_built [] 1 false (zero_state 1)
                [("RX"%string, [0%Z], [("theta"%string, 2 * PI)])] false) as (h' & Hrun).
    rewrite Hrun. clear Hrun. cbn [snd].
    unfold executed, node_of. cbn [map fst snd sv_loop].
    rewrite apply_rx_full_turn. reflexivity.
  - intros H. inversion H as [|a b u v Hab _]; subst.
    unfold Cmod2, Cminus, Cplus, Copp, C1 in Hab. simpl in Hab.
    assert (Htol : 1 / 10 ^ 9 * (1 / 10 ^ 9) < 1).
    { assert (0 < 1 / 10 ^ 9 < 1).
      { split; [apply Rdiv_lt_0_compat; [lra|apply pow_lt; lra]|].
        apply Rmult_lt_reg_r with (10 ^ 9); [apply pow_lt; lra|].
        unfold Rdiv. rewrite Rmult_assoc, Rinv_l by (apply pow_nonzero; lra).
        simpl. lra. }
      nra. }
    lra.
Qed.

End OptimizerEquivalence.

(** ** commute_gates ends, and what [optimize] does to the store *)

(** The records of [h] are still in [h'], with the same name, targets and
    parameters, at a depth that is not larger. *)
Definition store_frame (h h' : heap) : Prop :=
  length h <= length h' /\
  forall r g, h !! r = Some g ->
    exists g', h' !! r = Some g'
      /\ gate_name g' = gate_name g /\ qubits g' = qubits g
      /\ params g' = params g /\ (depth g' <= depth g)%Z.

Lemma store_frame_refl h : store_frame h h.
Proof. split; [lia|]. intros r g Hg. exists g. repeat split; [exact Hg|lia]. Qed.

Lemma store_frame_trans h1 h2 h3 :
  store_frame h1 h2 -> store_frame h2 h3 -> store_frame h1 h3.
Proof.
  intros [Hl1 H1] [Hl2 H2]. split; [lia|].
  intros r g Hg. destruct (H1 r g Hg) as (g' & Hg' & Hn & Hq & Hp & Hd).
  destruct (H2 r g' Hg') as (g'' & Hg'' & Hn' & Hq' & Hp' & Hd').
  exists g''. repeat split; try congruence. lia.
Qed.

Lemma store_frame_app h ext : store_frame h (h ++ ext).
Proof.
  split; [rewrite length_app; lia|].
  intros r g Hg. exists g. repeat split; [|lia].
  rewrite lookup_app_l; [exact Hg|]. eapply lookup_lt_Some. exact Hg.
Qed.

(** The sum of the depths above a bound [m]. *)
Definition excess (m : Z) (h : heap) : Z :=
  fold_right Z.add 0%Z (map (fun g => (depth g - m)%Z) h).

Lemma excess_nonneg m h : Forall (fun g => (m <= depth g)%Z) h -> (0 <= excess m h)%Z.
Proof.
  unfold excess. induction 1 as [|g h Hg _ IH]; simpl; lia.
Qed.

Lemma excess_insert m h : forall r g g',
  h !! r = Some g ->
  excess m (<[r := g']> h) = (excess m h - depth g + depth g')%Z.
Proof.
  unfold excess. induction h as [|x h IH]; intros [|r] g g' Hr; simpl in *;
    try discriminate.
  - inversion Hr; subst. lia.
  - rewrite (IH r g g' Hr). lia.
Qed.

Section CommuteEnds.
Variable m : Z.
Variable ids : list nat.

Definition commute_inv (h : heap) : Prop :=
  Forall (fun r => r < length h) ids /\ Forall (fun g => (m <= depth g)%Z) h.

Lemma commute_step_progress h changed i :
  commute_inv h ->
  let st := commute_step ids (h, changed) i in
  commute_inv (fst st) /\ length (fst st) = length h /\ store_frame h (fst st)
  /\ ((fst st = h /\ snd st = changed)
      \/ (snd st = true /\ (excess m (fst st) < excess m h)%Z)).
Proof.
  intros Hinv.
  assert (Hsame : commute_inv h /\ length h = length h /\ store_frame h h
                  /\ ((h = h /\ changed = changed)
                      \/ (changed = true /\ (excess m h < excess m h)%Z)))
    by (split; [exact Hinv|split; [reflexivity|split;
          [apply store_frame_refl|left; split; reflexivity]]]).
  destruct Hinv as [Hvalid Hm]. unfold commute_step.
  destruct (ids !! i) as [r1|] eqn:H1; [|exact Hsame].
  destruct (ids !! (i + 1)) as [r2|] eqn:H2; [|exact Hsame].
  destruct (isdisjoint _ _ && _) eqn:Hc; [|exact Hsame].
  clear Hsame.
  apply andb_true_iff in Hc. destruct Hc as [_ Hlt]. apply Z.ltb_lt in Hlt.
  pose proof (proj1 (Forall_lookup _ _) Hvalid _ _ H1) as Hr1.
  pose proof (proj1 (Forall_lookup _ _) Hvalid _ _ H2) as Hr2.
  destruct (lookup_lt_is_Some_2 _ _ Hr1) as [g1 Hg1].
  destruct (lookup_lt_is_Some_2 _ _ Hr2) as [g2 Hg2].
  unfold deref in *. rewrite Hg1, Hg2 in *. simpl in Hlt |- *.
  unfold set_depth. rewrite Hg2.
  pose proof (proj1 (Forall_lookup _ _) Hm _ _ Hg1) as Hm1. simpl in Hm1.
  split; [split|split; [|split]].
  - rewrite length_insert. exact Hvalid.
  - apply Forall_insert; [exact Hm|]. simpl. exact Hm1.
  - apply length_insert.
  - split; [rewrite length_insert; lia|].
    intros r g Hg. destruct (Nat.eq_dec r r2) as [->|Hne].
    + rewrite list_lookup_insert_eq by exact Hr2.
      eexists. split; [reflexivity|]. simpl.
      assert (g = g2) by congruence. subst g. repeat split; lia.
    + rewrite list_lookup_insert_ne by congruence.
      exists g. repeat split; [exact Hg|lia].
  - right. split; [reflexivity|].
    rewrite (excess_insert m h r2 g2 _ Hg2). simpl. lia.
Qed.

Lemma commute_fold_progress l : forall h changed,
  commute_inv h ->
  let st := fold_left (commute_step ids) l (h, changed) in
  commute_inv (fst st) /\ length (fst st) = length h /\ store_frame h (fst st)
  /\ (excess m (fst st) <= excess m h)%Z
  /\ (snd st = true -> changed = true \/ (excess m (fst st) < excess m h)%Z).
Proof.
  induction l as [|i l IH]; intros h changed Hinv; cbn [fold_left].
  - cbn [fst snd].
    split; [exact Hinv|]. split; [reflexivity|]. split; [apply store_frame_refl|].
    split; [lia|]. intros ->. left. reflexivity.
  - destruct (commute_step_progress h changed i Hinv) as (Hinv1 & Hl1 & Hf1 & Hcase).
    destruct (commute_step ids (h, changed) i) as [h1 c1]. cbn [fst snd] in *.
    destruct (IH h1 c1 Hinv1) as (Hinv2 & Hl2 & Hf2 & Hle & Hch).
    split; [exact Hinv2|]. split; [lia|].
    split; [eapply store_frame_trans; eassumption|].
    split; [destruct Hcase as [[-> _]|[_ Hlt]]; lia|].
    intros Ht. specialize (Hch Ht).
    destruct Hcase as [[-> ->]|[_ Hlt]]; [exact Hch|]. right. lia.
Qed.

Lemma commute_while_ends fuel : forall h,
  commute_inv h -> (excess m h < Z.of_nat fuel)%Z ->
  exists h', commute_while fuel h ids = Ok h'
             /\ store_frame h h' /\ length h' = length h.
Proof.
  induction fuel as [|fuel IH]; intros h Hinv Hfuel.
  - pose proof (excess_nonneg m h (proj2 Hinv)). lia.
  - simpl. unfold commute_pass.
    destruct (commute_fold_progress (seq 0 (length ids - 1)) h false Hinv)
      as (Hinv1 & Hl1 & Hf1 & Hle & Hch).
    destruct (fold_left (commute_step ids) (seq 0 (length ids - 1)) (h, false))
      as [h1 changed]. simpl in *.
    destruct changed.
    + destruct (Hch eq_refl) as [Hc|Hlt]; [discriminate|].
      destruct (IH h1 Hinv1 ltac:(lia)) as (h' & Hw & Hf & Hl).
      exists h'. split; [exact Hw|].
      split; [eapply store_frame_trans; eassumption|lia].
    + exists h1. split; [reflexivity|]. split; [exact Hf1|exact Hl1].
Qed.

End CommuteEnds.

(** The least depth of a store. *)
Definition least_depth (h : heap) : Z :=
  match h with
  | [] => 0%Z
  | g :: rest => fold_right Z.min (depth g) (map depth rest)
  end.

Lemma least_depth_le h : Forall (fun g => (least_depth h <= depth g)%Z) h.
Proof.
  destruct h as [|g rest]; [constructor|]. simpl.
  assert (H : forall d l, (fold_right Z.min d (map depth l) <= d)%Z
                          /\ Forall (fun x => (fold_right Z.min d (map depth l) <= depth x)%Z) l).
  { intros d l. induction l as [|x l [IH1 IH2]]; simpl.
    - split; [lia|constructor].
    - split; [lia|]. constructor; [lia|].
      eapply Forall_impl; [exact IH2|]. simpl. intros; lia. }
  destruct (H (depth g) rest) as [H1 H2]. constructor; assumption.
Qed.

Lemma depth_excess_excess h : Z.of_nat (depth_excess h) = excess (least_depth h) h.
Proof.
  pose proof (excess_nonneg _ _ (least_depth_le h)) as Hnn.
  destruct h as [|g rest]; [reflexivity|].
  unfold depth_excess. rewrite Z2Nat.id; [reflexivity|exact Hnn].
Qed.

(** [_commute_gates] ends on every list of references into the store; it
    keeps the list and the names, targets and parameters of all records,
    and lowers depths only. *)
Lemma commute_gates_ends h ids :
  Forall (fun r => r < length h) ids ->
  exists h', _commute_gates h ids = Ok (h', ids)
             /\ store_frame h h' /\ length h' = length h.
Proof.
  intros Hvalid. unfold _commute_gates.
  destruct (commute_while_ends (least_depth h) ids (S (depth_excess h)) h)
    as (h' & Hw & Hf & Hl).
  - split; [exact Hvalid|apply least_depth_le].
  - rewrite Nat2Z.inj_succ, depth_excess_excess. lia.
  - exists h'. rewrite Hw. simpl. repeat split; try apply Hf. exact Hl.
Qed.

(** [optimize] ends for every selection of rules on every list of
    references into the store, returns references into the new store, and
    never changes the name, the targets or the parameters of a record; a
    depth can only get smaller. *)
Lemma optimize_ends_and_frames rules h ids :
  Forall (fun r => r < length h) ids ->
  exists h' ids',
    optimize h ids rules = Ok (h', ids')
    /\ store_frame h h'
    /\ Forall (fun r => r < length h') ids'.
Proof.
  unfold optimize. generalize (default default_rules rules). clear rules.
  intros rules. revert h ids.
  induction rules as [|rule rules IH]; intros h ids Hvalid; simpl.
  - exists h, ids. repeat split; auto using store_frame_refl; apply store_frame_refl.
  - assert (Hstep : exists h1 ids1,
              apply_rule rule h ids = Ok (h1, ids1)
              /\ store_frame h h1 /\ Forall (fun r => r < length h1) ids1).
    { unfold apply_rule.
      destruct (String.eqb rule "cancel_inverse").
      { rewrite cancel_inverse_gates_pass. simpl. exists h, (cancel_pass (deref h) ids).
        split; [reflexivity|]. split; [apply store_frame_refl|].
        apply cancel_pass_Forall. exact Hvalid. }
      destruct (String.eqb rule "merge_rotations").
      { rewrite merge_rotation_gates_pass. simpl.
        set (out := merge_pass (deref h) (length ids) ids).
        destruct (alloc_all_spec out h) as (ext & Hh & _ & Hv);
          [apply merge_pass_refs; exact Hvalid|].
        exists (fst (alloc_all h out)), (snd (alloc_all h out)).
        split; [destruct (alloc_all h out); reflexivity|].
        split; [rewrite Hh; apply store_frame_app|exact Hv]. }
      destruct (String.eqb rule "commute_gates").
      { destruct (commute_gates_ends h ids Hvalid) as (h' & Hc & Hf & Hl).
        exists h', ids. split; [exact Hc|]. split; [exact Hf|].
        rewrite Hl. exact Hvalid. }
      exists h, ids. split; [reflexivity|]. split; [apply store_frame_refl|exact Hvalid]. }
    destruct Hstep as (h1 & ids1 & Hrule & Hf1 & Hv1).
    rewrite Hrule.
    destruct (IH h1 ids1 Hv1) as (h' & ids' & Hopt & Hf & Hv).
    exists h', ids'. split; [exact Hopt|].
    split; [eapply store_frame_trans; eassumption|exact Hv].
Qed.

(** ** Records of the caller under [optimize] *)

(** C5 at a list of two X gates on different qubits, the second recorded at
    depth 5.  [optimize] copies the list, not the records: commute_gates
    assigns the depth of the first record to the second one, which is the
    caller's record.  The same happens when commute_gates is the only rule
    selected.  (Names, targets and parameters are never written, see
    [optimize_ends_and_frames].) *)
Theorem optimize_lowers_depth_of_callers_record :
  let h := [ {| gate_name := "X"; qubits := [0%Z]; params := []; depth := 0 |};
             {| gate_name := "X"; qubits := [1%Z]; params := []; depth := 5 |} ] in
  let h' := [ {| gate_name := "X"; qubits := [0%Z]; params := []; depth := 0 |};
              {| gate_name := "X"; qubits := [1%Z]; params := []; depth := 0 |} ] in
  optimize h [0; 1] None = Ok (h', [0; 1])
  /\ optimize h [0; 1] (Some ["commute_gates"%string]) = Ok (h', [0; 1])
  /\ depth (deref h 1) = 5%Z
  /\ depth (deref h' 1) = 0%Z.
Proof. vm_compute. repeat split. Qed.

(** ** Matrix product states *)

(** On four qubits the decomposition goes through, with the chain of shapes
    (2,2), (2,2,4), (4,2,2), (2,2), whatever entries the decompositions
    have. *)
Example from_state_vector_four_qubits_shapes svd_entries (st : vector) :
  length st = 16 ->
  exists mps,
    from_state_vector svd_entries st 100 = Ok mps
    /\ map shape (tensors mps) = [[2; 2]; [2; 2; 4]; [4; 2; 2]; [2; 2]].
Proof.
  intros Hlen. unfold from_state_vector. rewrite Hlen.
  eexists. split; vm_compute; reflexivity.
Qed.

(** C4 on five qubits.  [from_state_vector] reshapes the remainder to
    [2 * 2 ** i] rows; at [i = 3] the remainder has 16 entries (bond 4), so
    it becomes a 16 x 1 array, its [U] has 16 entries, and
    [U.reshape(4, 2, 1)] raises.  This holds for every state vector of
    length 32 and whatever entries the decompositions have: no chain is
    produced, so there is nothing to convert back. *)
Theorem from_state_vector_raises_on_five_qubits svd_entries (st : vector) :
  length st = 32 ->
  from_state_vector svd_entries st 100 = Raise ShapeMismatch.
Proof.
  intros Hlen. unfold from_state_vector. rewrite Hlen.
  vm_compute. reflexivity.
Qed.

Lemma from_state_vector_raises_on_five_qubits_witness :
  from_state_vector (fun _ _ _ => ([], [], [])) (zero_state 5) 100
  = Raise ShapeMismatch.
Proof.
  apply (from_state_vector_raises_on_five_qubits (fun _ _ _ => ([], [], [])) (zero_state 5)).
  reflexivity.
Defined.

(** * Further properties of the code *)

(** ** Linear maps on vectors *)

(** [u + v] and [a * v] on numpy vectors. *)
Definition vadd (u v : vector) : vector := zip_with Cplus u v.
Definition vscale (a : C) (v : vector) : vector := map (Cmult a) v.

Section Linear.

Lemma vadd_length u v : length u = length v -> length (vadd u v) = length v.
Proof. intros H. unfold vadd. rewrite length_zip_with. lia. Qed.

Lemma vscale_length a v : length (vscale a v) = length v.
Proof. apply length_map. Qed.

Lemma vadd_app u1 u2 v1 v2 :
  length u1 = length v1 -> vadd (u1 ++ u2) (v1 ++ v2) = vadd u1 v1 ++ vadd u2 v2.
Proof. intros H. unfold vadd. apply zip_with_app. exact H. Qed.

Lemma vadd_zeros_l v : vadd (replicate (length v) C0) v = v.
Proof.
  induction v as [|a v IH]; simpl; [reflexivity|].
  unfold vadd in *. simpl. rewrite IH, Cplus_0_l. reflexivity.
Qed.

Lemma vadd_zeros_r v : vadd v (replicate (length v) C0) = v.
Proof.
  induction v as [|a v IH]; simpl; [reflexivity|].
  unfold vadd in *. simpl. rewrite IH, Cplus_0_r. reflexivity.
Qed.

Lemma vadd_zeros_l_len v k : length v = k -> vadd (replicate k C0) v = v.
Proof. intros <-. apply vadd_zeros_l. Qed.

Lemma vadd_zeros_r_len v k : length v = k -> vadd v (replicate k C0) = v.
Proof. intros <-. apply vadd_zeros_r. Qed.

Lemma vscale_zeros a k : vscale a (replicate k C0) = replicate k C0.
Proof.
  induction k as [|k IH]; simpl; [reflexivity|].
  unfold vscale in *. simpl. rewrite IH, Cmult_0_r. reflexivity.
Qed.

Lemma vscale_app a u v : vscale a (u ++ v) = vscale a u ++ vscale a v.
Proof. apply map_app. Qed.

Lemma dot_vadd r u v :
  length u = length v -> dot r (vadd u v) = Cplus (dot r u) (dot r v).
Proof.
  revert u v. induction r as [|a r IH]; intros [|x u] [|y v] H; simpl in *;
    try discriminate; try (rewrite Cplus_0_l; reflexivity).
  unfold vadd in *. rewrite IH by lia. apply C_eq; simpl; ring.
Qed.

Lemma dot_vscale r a v : dot r (vscale a v) = Cmult a (dot r v).
Proof.
  revert v. induction r as [|b r IH]; intros [|x v]; simpl;
    try (rewrite Cmult_0_r; reflexivity).
  unfold vscale in *. rewrite IH. apply C_eq; simpl; ring.
Qed.

Lemma dot_zeros_r r k : dot r (replicate k C0) = C0.
Proof.
  revert k. induction r as [|a r IH]; intros [|k]; simpl; try reflexivity.
  rewrite IH. apply C_eq; simpl; ring.
Qed.

Lemma matvec_vadd M u v :
  length u = length v -> matvec M (vadd u v) = vadd (matvec M u) (matvec M v).
Proof.
  intros H. unfold matvec, vadd.
  induction M as [|r M IH]; simpl; [reflexivity|].
  rewrite IH. f_equal. apply dot_vadd. exact H.
Qed.

Lemma matvec_vscale M a v : matvec M (vscale a v) = vscale a (matvec M v).
Proof.
  unfold matvec, vscale. rewrite map_map. apply map_ext. intros r. apply dot_vscale.
Qed.

Lemma matvec_zeros M k : matvec M (replicate k C0) = replicate (nrows M) C0.
Proof.
  unfold matvec, nrows. induction M as [|r M IH]; simpl; [reflexivity|].
  rewrite IH, dot_zeros_r. reflexivity.
Qed.

(** A map on vectors of length [c] that respects sums and multiples. *)
Definition linear_on (c : nat) (F : vector -> vector) : Prop :=
  (forall u v, length u = c -> length v = c -> F (vadd u v) = vadd (F u) (F v))
  /\ (forall a v, length v = c -> F (vscale a v) = vscale a (F v)).

Lemma linear_on_matvec c M : linear_on c (matvec M).
Proof.
  split.
  - intros u v Hu Hv. apply matvec_vadd. congruence.
  - intros a v _. apply matvec_vscale.
Qed.

Lemma linear_on_id c : linear_on c (fun v => v).
Proof. split; reflexivity. Qed.

Lemma linear_on_compose c d F G :
  linear_on c G -> linear_on d F -> (forall v, length v = c -> length (G v) = d) ->
  linear_on c (fun v => F (G v)).
Proof.
  intros [Ga Gs] [Fa Fs] Hlen. split.
  - intros u v Hu Hv. rewrite Ga, Fa; auto.
  - intros a v Hv. rewrite Gs, Fs; auto.
Qed.

(** A vector is the sum of its first entry times a basis vector and the
    rest. *)
Lemma vector_head_split i a (v : vector) :
  replicate i C0 ++ a :: v =
  vadd (vscale a (basis (i + S (length v)) i)) (replicate (S i) C0 ++ v).
Proof.
  rewrite (basis_split (i + S (length v)) i) by lia.
  replace (i + S (length v) - S i) with (length v) by lia.
  rewrite vscale_app. change (vscale a (C1 :: ?l)) with (Cmult a C1 :: vscale a l).
  rewrite !vscale_zeros, Cmult_1_r.
  replace (replicate (S i) C0 ++ v) with (replicate i C0 ++ C0 :: v).
  - rewrite vadd_app by (rewrite !length_replicate; reflexivity).
    f_equal.
    + rewrite <- (length_replicate i C0) at 2. symmetry. apply vadd_zeros_l.
    + unfold vadd. simpl. rewrite Cplus_0_r. f_equal.
      fold (vadd (replicate (length v) C0) v). symmetry. apply vadd_zeros_l.
  - rewrite replicate_S_end, <- app_assoc. reflexivity.
Qed.

(** Two linear maps that agree on the basis vectors agree everywhere. *)
Lemma linear_ext c F G :
  linear_on c F -> linear_on c G ->
  F (replicate c C0) = G (replicate c C0) ->
  (forall k, k < c -> F (basis c k) = G (basis c k)) ->
  forall v, length v = c -> F v = G v.
Proof.
  intros [Fa Fs] [Ga Gs] Hz Hb.
  assert (H : forall v i, i + length v = c ->
            F (replicate i C0 ++ v) = G (replicate i C0 ++ v)).
  { induction v as [|a v IH]; intros i Hi; simpl in Hi.
    - rewrite app_nil_r. replace i with c by lia. exact Hz.
    - rewrite vector_head_split.
      replace (i + S (length v)) with c by lia.
      assert (Hl : length (replicate (S i) C0 ++ v) = c)
        by (rewrite length_app, length_replicate; lia).
      rewrite Fa, Ga by (rewrite ?vscale_length, ?basis_length; auto).
      rewrite Fs, Gs by apply basis_length.
      rewrite Hb by lia. f_equal. apply IH. lia. }
  intros v Hv. apply (H v 0). exact Hv.
Qed.

End Linear.

(** ** Identity operators *)

Lemma eye_row_basis k i : i < k -> eye_row k i = basis k i.
Proof.
  intros Hi. apply list_eq. intros j. unfold eye_row.
  rewrite list_lookup_fmap.
  destruct (Nat.lt_ge_cases j k) as [Hj|Hj].
  - rewrite lookup_seq_lt by exact Hj. simpl.
    rewrite basis_lookup by assumption. rewrite Nat.eqb_sym. reflexivity.
  - rewrite lookup_seq_ge by exact Hj. simpl. symmetry.
    apply lookup_ge_None. rewrite basis_length. exact Hj.
Qed.

Lemma eye_basis k : eye k = map (basis k) (seq 0 k).
Proof.
  unfold eye. apply map_ext_Forall. apply Forall_forall. intros i Hi.
  apply elem_of_seq in Hi. apply eye_row_basis. lia.
Qed.

Lemma dot_basis_l (v : vector) k :
  k < length v -> dot (basis (length v) k) v = nth k v C0.
Proof.
  revert k. induction v as [|a v IH]; intros k Hk; simpl in Hk; [lia|].
  destruct k as [|k].
  - unfold basis. simpl. rewrite dot_comm, dot_zeros_r. apply C_eq; simpl; ring.
  - change (basis (length (a :: v)) (S k)) with (C0 :: basis (length v) k).
    simpl. rewrite IH by lia. apply C_eq; simpl; ring.
Qed.

Lemma matvec_eye (v : vector) : matvec (eye (length v)) v = v.
Proof.
  rewrite eye_basis. unfold matvec. rewrite map_map.
  apply list_eq. intros j. rewrite list_lookup_fmap.
  destruct (Nat.lt_ge_cases j (length v)) as [Hj|Hj].
  - rewrite lookup_seq_lt by exact Hj. simpl. rewrite dot_basis_l by exact Hj.
    destruct (lookup_lt_is_Some_2 v j Hj) as [x Hx]. rewrite Hx.
    f_equal. apply nth_lookup_Some. exact Hx.
  - rewrite lookup_seq_ge by exact Hj. simpl. symmetry.
    apply lookup_ge_None. exact Hj.
Qed.

Lemma matvec_eye_len k (v : vector) : length v = k -> matvec (eye k) v = v.
Proof. intros <-. apply matvec_eye. Qed.

Lemma eye_wf k : wf_matrix k (eye k).
Proof.
  unfold wf_matrix, eye. apply Forall_map. apply Forall_forall. intros i _.
  unfold eye_row. simpl. rewrite length_map, length_seq. reflexivity.
Qed.

Lemma eye_nrows k : nrows (eye k) = k.
Proof. unfold nrows, eye. rewrite length_map, length_seq. reflexivity. Qed.

Lemma map_add_seq c s b : map (fun j => c + j) (seq s b) = seq (c + s) b.
Proof.
  revert s. induction b as [|b IH]; intros s; simpl; [reflexivity|].
  rewrite IH. f_equal. f_equal. lia.
Qed.

Lemma seq_blocks a b :
  flat_map (fun i => map (fun j => i * b + j) (seq 0 b)) (seq 0 a) = seq 0 (a * b).
Proof.
  induction a as [|a IH]; [reflexivity|].
  rewrite seq_S, flat_map_app, IH. simpl. rewrite app_nil_r.
  replace (b + a * b) with (a * b + b) by lia.
  rewrite seq_app. f_equal. rewrite map_add_seq. f_equal. lia.
Qed.

(** [np.kron(np.eye(a), np.eye(b))] is [np.eye(a * b)]. *)
Lemma kron_eye a b : kron (eye a) (eye b) = eye (a * b).
Proof.
  rewrite (eye_basis (a * b)), <- seq_blocks.
  unfold kron. rewrite (eye_basis a), (eye_basis b).
  rewrite flat_map_concat_map, map_map.
  rewrite (flat_map_concat_map _ (seq 0 a)), concat_map, map_map.
  f_equal. apply map_ext_Forall. apply Forall_forall. intros i Hi.
  apply elem_of_seq in Hi. rewrite !map_map.
  apply map_ext_Forall. apply Forall_forall. intros j Hj.
  apply elem_of_seq in Hj. apply kron_row_basis; lia.
Qed.

Lemma eye_ncols k : 0 < k -> ncols (eye k) = k.
Proof.
  intros Hk. apply ncols_wf; [apply eye_wf|].
  intros H. apply (f_equal nrows) in H. rewrite eye_nrows in H. simpl in H. lia.
Qed.

Lemma np_dot_eye (st : vector) : 0 < length st -> np_dot (eye (length st)) st = Ok st.
Proof.
  intros H. unfold np_dot. rewrite eye_ncols by exact H.
  rewrite Nat.eqb_refl, matvec_eye. reflexivity.
Qed.

(** ** A single-qubit target outside the register *)

Lemma fold_kron_eye (q : Z) (gate : Matrix) (l : list Z) : forall k,
  Forall (fun i => i <> q) l ->
  fold_left (fun result i => if (i =? q)%Z then kron result gate else kron result (eye 2))
    l (eye (2 ^ k))
  = eye (2 ^ (k + length l)).
Proof.
  induction l as [|i l IH]; intros k Hl; simpl.
  - rewrite Nat.add_0_r. reflexivity.
  - inversion Hl as [|? ? Hi Hl']; subst.
    destruct (Z.eqb_spec i q) as [|_]; [contradiction|].
    rewrite kron_eye. replace (2 ^ k * 2) with (2 ^ S k) by (simpl; lia).
    rewrite IH by exact Hl'. f_equal. f_equal. lia.
Qed.

Lemma range_length lo hi : length (range lo hi) = Z.to_nat (hi - lo).
Proof. unfold range. rewrite length_map, length_seq. reflexivity. Qed.

Lemma range_bounds lo hi i : In i (range lo hi) -> (lo <= i < hi)%Z.
Proof.
  unfold range. rewrite in_map_iff. intros (k & <- & Hk).
  apply in_seq in Hk. lia.
Qed.

Lemma single_outside_dense gate q n :
  0 < n -> (q < 0 \/ Z.of_nat n <= q)%Z ->
  operator_array (apply_single_qubit_gate gate q n false) = eye (2 ^ n).
Proof.
  intros Hn Hq. unfold apply_single_qubit_gate. simpl.
  destruct (Z.eqb_spec q 0) as [|_]; [lia|].
  change (eye 2) with (eye (2 ^ 1)) at 2.
  rewrite fold_kron_eye.
  - rewrite range_length. f_equal. f_equal. lia.
  - apply Forall_forall. intros i Hi. apply list_elem_of_In, range_bounds in Hi. lia.
Qed.

(** X1.  A single-qubit gate whose target index is negative or at least
    [n_qubits] is expanded to the identity of dimension [2 ^ n_qubits],
    under both construction policies; the gate matrix is never used.  The
    engine then leaves the state as it is, whatever the gate. *)
Theorem single_qubit_target_outside_register_is_identity
    (gate : Matrix) (q : Z) (n : nat) (sparse : bool) :
  0 < n -> (q < 0 \/ Z.of_nat n <= q)%Z ->
  operator_array (apply_single_qubit_gate gate q n sparse) = eye (2 ^ n)
  /\ (forall st, length st = 2 ^ n ->
        sparse_state_vector_product (apply_single_qubit_gate gate q n sparse) st = Ok st)
  /\ (forall g M st, qubits g = [q] -> get_gate (gate_name g) (params g) = Ok M ->
        length st = 2 ^ n -> apply_gate_node n sparse g st = Ok st).
Proof.
  intros Hn Hq.
  assert (Harr : forall G, operator_array (apply_single_qubit_gate G q n sparse) = eye (2 ^ n)).
  { intros G. destruct sparse; [rewrite apply_single_qubit_gate_sparse_dense|];
      apply single_outside_dense; assumption. }
  assert (Hprod : forall G st, length st = 2 ^ n ->
            sparse_state_vector_product (apply_single_qubit_gate G q n sparse) st = Ok st).
  { intros G st Hst. specialize (Harr G).
    assert (Hpos : 0 < length st) by (rewrite Hst; apply pow2_pos).
    destruct (apply_single_qubit_gate G q n sparse) as [m|m]; simpl in *;
      rewrite Harr, <- Hst; apply np_dot_eye; exact Hpos. }
  split; [apply Harr|]. split; [apply Hprod|].
  intros g M st Hqs Hget Hst. unfold apply_gate_node.
  rewrite Hget, Hqs. simpl. apply Hprod. exact Hst.
Qed.

Lemma single_qubit_target_outside_register_is_identity_witness :
  operator_array (apply_single_qubit_gate pauli_x 5 2 false) = eye (2 ^ 2)
  /\ sparse_state_vector_product (apply_single_qubit_gate pauli_x 5 2 false) (zero_state 2)
     = Ok (zero_state 2).
Proof.
  destruct (single_qubit_target_outside_register_is_identity pauli_x 5 2 false
              ltac:(lia) ltac:(lia)) as (H1 & H2 & _).
  split; [exact H1|]. apply H2. reflexivity.
Defined.

(** ** Operators that are their own inverse *)

(** [M] is a [c] x [c] array. *)
Definition square (c : nat) (M : Matrix) : Prop := wf_matrix c M /\ nrows M = c.

Lemma square_kron p q A B : square p A -> square q B -> square (p * q) (kron A B).
Proof.
  intros [HA HAr] [HB HBr]. split; [apply kron_wf; assumption|].
  rewrite kron_nrows, HAr, HBr. reflexivity.
Qed.

Lemma square_eye k : square k (eye k).
Proof. split; [apply eye_wf|apply eye_nrows]. Qed.

Lemma square_ncols c M : square c M -> ncols M = c.
Proof.
  intros [Hwf Hr]. destruct M as [|r M].
  - simpl in Hr. subst c. reflexivity.
  - apply ncols_wf; [exact Hwf|discriminate].
Qed.

(** Two linear maps on vectors of length [p * q] agree once they agree on
    the products of basis vectors. *)
Lemma kron_basis_ext p q F G :
  linear_on (p * q) F -> linear_on (p * q) G ->
  F (replicate (p * q) C0) = G (replicate (p * q) C0) ->
  (forall a b, a < p -> b < q ->
     F (kron_row (basis p a) (basis q b)) = G (kron_row (basis p a) (basis q b))) ->
  forall v, length v = p * q -> F v = G v.
Proof.
  intros HF HG Hz Hb. apply linear_ext; try assumption.
  intros k Hk.
  assert (Hq : 0 < q) by nia.
  assert (Ha : k / q < p) by (apply Nat.Div0.div_lt_upper_bound; lia).
  assert (Hm : k mod q < q) by (apply Nat.mod_upper_bound; lia).
  specialize (Hb (k / q) (k mod q) Ha Hm).
  rewrite kron_row_basis in Hb by assumption.
  replace (k / q * q + k mod q) with k in Hb; [exact Hb|].
  rewrite (Nat.div_mod_eq k q) at 1. lia.
Qed.

Definition involutive (c : nat) (M : Matrix) : Prop :=
  square c M /\ forall v, length v = c -> matvec M (matvec M v) = v.

Lemma kron_involutive p q A B :
  involutive p A -> involutive q B -> involutive (p * q) (kron A B).
Proof.
  intros [[HA HAr] HAi] [[HB HBr] HBi].
  assert (Hsq : square (p * q) (kron A B)) by (apply square_kron; split; assumption).
  split; [exact Hsq|].
  apply (kron_basis_ext p q (fun v => matvec (kron A B) (matvec (kron A B) v)) (fun v => v)).
  - apply (linear_on_compose _ (p * q)); try apply linear_on_matvec.
    intros v _. rewrite matvec_length. apply Hsq.
  - apply linear_on_id.
  - rewrite !matvec_zeros. f_equal. apply Hsq.
  - intros a b Ha Hb.
    rewrite matvec_kron by (rewrite basis_length; assumption).
    rewrite matvec_kron by (rewrite matvec_length; congruence).
    rewrite HAi, HBi by apply basis_length. reflexivity.
Qed.

Lemma eye_involutive k : involutive k (eye k).
Proof.
  split; [apply square_eye|]. intros v <-. rewrite !matvec_eye. reflexivity.
Qed.

(** Splits a vector of known length into its entries and reduces an
    equation between vectors to equations between real polynomials. *)
Ltac vector_entries :=
  let v := fresh "v" in let Hlen := fresh "Hlen" in
  intros v Hlen;
  repeat (destruct v as [|[? ?] v]; [discriminate Hlen|]);
  destruct v; [|discriminate Hlen];
  unfold matvec; simpl;
  repeat (apply (f_equal2 (@cons C)); [apply C_eq; simpl|]); try reflexivity.

Ltac square_matrix := split; [split; [repeat constructor|reflexivity]|].

Section GateAlgebra.
Local Open Scope R_scope.

Lemma pauli_x_involutive : involutive 2 pauli_x.
Proof. square_matrix. vector_entries; ring. Qed.

Lemma pauli_y_involutive : involutive 2 pauli_y.
Proof. square_matrix. vector_entries; ring. Qed.

Lemma pauli_z_involutive : involutive 2 pauli_z.
Proof. square_matrix. vector_entries; ring. Qed.

Lemma hadamard_involutive : involutive 2 hadamard.
Proof.
  square_matrix. vector_entries; unfold Rdiv;
    pose proof inv_sqrt2_sq as H; set (t := / sqrt 2) in *; nsatz.
Qed.

Lemma cnot_involutive : involutive 4 cnot.
Proof. square_matrix. vector_entries; ring. Qed.

Lemma cz_involutive : involutive 4 cz.
Proof. square_matrix. vector_entries; ring. Qed.

Lemma swap_involutive : involutive 4 swap.
Proof. square_matrix. vector_entries; ring. Qed.

Lemma toffoli_involutive : involutive 8 toffoli.
Proof. square_matrix. vector_entries; ring. Qed.

End GateAlgebra.

(** ** cancel_inverse against the state-vector loop *)

Lemma fold_kron_involutive {X} (f : Matrix -> X -> Matrix) (l : list X) :
  (forall M c x, involutive c M -> exists c', involutive c' (f M x)) ->
  forall M c, involutive c M -> exists c', involutive c' (fold_left f l M).
Proof.
  intros Hstep. induction l as [|x l IH]; intros M c HM; simpl.
  - exists c. exact HM.
  - destruct (Hstep M c x HM) as (c' & HM'). apply (IH _ c' HM').
Qed.

Lemma apply_single_involutive gate d q n sparse :
  involutive d gate ->
  exists c, involutive c (operator_array (apply_single_qubit_gate gate q n sparse)).
Proof.
  intros Hg.
  assert (Hdense : exists c,
    involutive c (operator_array (apply_single_qubit_gate gate q n false))).
  { unfold apply_single_qubit_gate. simpl.
    assert (H0 : exists c, involutive c (if (q =? 0)%Z then gate else eye 2)).
    { destruct (q =? 0)%Z; eauto using eye_involutive. }
    destruct H0 as (c0 & H0).
    eapply fold_kron_involutive; [|exact H0].
    intros M c x HM. destruct (x =? q)%Z; eexists;
      apply kron_involutive; eauto using eye_involutive. }
  destruct sparse; [|exact Hdense].
  rewrite apply_single_qubit_gate_sparse_dense. exact Hdense.
Qed.

Lemma sparse_place_involutive idxs min_idx gate d : forall result c,
  involutive d gate -> involutive c (toarray result) ->
  exists c', involutive c'
    (toarray (sparse_place idxs min_idx (CSR gate) (sparse_identity 2) result)).
Proof.
  induction idxs as [|i idxs IH]; intros result c Hg Hr; simpl.
  - exists c. exact Hr.
  - destruct (i =? min_idx)%Z.
    + eexists. simpl. apply kron_involutive; eassumption.
    + eapply IH; [exact Hg|]. simpl.
      apply kron_involutive; [exact Hr|apply eye_involutive].
Qed.

Lemma apply_two_involutive gate d a b n sparse op :
  involutive d gate ->
  apply_two_qubit_gate gate a b n sparse = Ok op ->
  exists c, involutive c (operator_array op).
Proof.
  intros Hg. unfold apply_two_qubit_gate.
  destruct (negb _); [discriminate|].
  assert (Hid : forall (l : list Z) M c, involutive c M ->
            exists c', involutive c'
              (fold_left (fun result _ => kron result (eye 2)) l M)).
  { intros l. apply fold_kron_involutive.
    intros M c _ HM. eexists. apply kron_involutive;
      [exact HM|apply eye_involutive]. }
  destruct sparse; intros H; inversion H; subst; clear H; simpl.
  - destruct (sparse_place_involutive (range_step2 (Z.of_nat n)) (Z.min a b)
                gate d (sparse_identity 1) 1 Hg (eye_involutive 1)) as (c1 & H1).
    generalize dependent (sparse_place (range_step2 (Z.of_nat n)) (Z.min a b)
                            (CSR gate) (sparse_identity 2) (sparse_identity 1)).
    intros result H1. clear Hg.
    generalize (range (Z.min a b + 2) (Z.of_nat n)). intros l.
    revert result c1 H1. induction l as [|x l IH]; intros result c1 H1; simpl.
    + exists c1. exact H1.
    + eapply IH. simpl. apply kron_involutive;
        [exact H1|apply eye_involutive].
  - destruct (Hid (range 0 (Z.min a b)) (eye 1) 1 (eye_involutive 1)) as (c1 & H1).
    eapply Hid. apply kron_involutive; eassumption.
Qed.

Lemma involutive_product c op st st1 st2 :
  involutive c (operator_array op) ->
  sparse_state_vector_product op st = Ok st1 ->
  sparse_state_vector_product op st1 = Ok st2 ->
  st2 = st.
Proof.
  intros [Hsq Hinv].
  assert (H : forall M, involutive c M ->
            np_dot M st = Ok st1 -> np_dot M st1 = Ok st2 -> st2 = st).
  { clear. intros M [Hsq Hinv]. unfold np_dot. rewrite (square_ncols c M Hsq).
    destruct (Nat.eqb_spec c (length st)) as [Hc|]; [|discriminate].
    intros E1. inversion E1; subst st1.
    rewrite matvec_length, (proj2 Hsq), Nat.eqb_refl.
    intros E2. inversion E2. apply Hinv. symmetry. exact Hc. }
  destruct op as [m|m]; simpl in *; apply H; split; assumption.
Qed.

(** The names of [inverse_pairs] denote matrices that are their own
    inverse, whatever parameters come with them. *)
Lemma self_inverse_gate name :
  self_inverse_name name ->
  exists M d, involutive d M /\ forall ps, get_gate name ps = Ok M.
Proof.
  intros [-> | [-> | [-> | [-> | ->]]]].
  - exists pauli_x, 2. split; [apply pauli_x_involutive|reflexivity].
  - exists pauli_y, 2. split; [apply pauli_y_involutive|reflexivity].
  - exists pauli_z, 2. split; [apply pauli_z_involutive|reflexivity].
  - exists hadamard, 2. split; [apply hadamard_involutive|reflexivity].
  - exists cnot, 4. split; [apply cnot_involutive|reflexivity].
Qed.

Lemma inverse_pair_cancels n sparse g1 g2 st st1 st2 :
  self_inverse_pair g1 g2 ->
  apply_gate_node n sparse g1 st = Ok st1 ->
  apply_gate_node n sparse g2 st1 = Ok st2 ->
  st2 = st.
Proof.
  intros (Hname & Hn & Hq).
  destruct (self_inverse_gate _ Hname) as (M & d & HM & Hget).
  unfold apply_gate_node. rewrite Hn, <- Hq, !Hget. cbn [rbind].
  destruct (qubits g1) as [|q0 [|q1 [|q2 qs]]]; cbn [rbind]; try discriminate.
  - destruct (apply_single_involutive M d q0 n sparse HM) as (c & Hc).
    apply (involutive_product c _ _ _ _ Hc).
  - destruct (apply_two_qubit_gate M q0 q1 n sparse) as [op| |] eqn:Hop;
      try discriminate. cbn [rbind].
    destruct (apply_two_involutive M d q0 q1 n sparse op HM Hop) as (c & Hc).
    apply (involutive_product c _ _ _ _ Hc).
Qed.

Lemma cancel_pass_sound n sparse (l : list GateNode) : forall st0 st,
  sv_loop n sparse l st0 = (Ok tt, st) ->
  sv_loop n sparse (cancel_pass (fun g => g) l) st0 = (Ok tt, st).
Proof.
  remember (length l) as k eqn:Hk. revert l Hk.
  induction k as [k IH] using lt_wf_ind. intros l Hk st0 st Hrun.
  destruct l as [|g1 [|g2 rest]]; try exact Hrun.
  rewrite cancel_pass_cons2.
  destruct (is_inverse_of g1 g2) eqn:E.
  - apply is_inverse_of_spec in E. cbn [sv_loop] in Hrun.
    destruct (apply_gate_node n sparse g1 st0) as [st1| |] eqn:H1; try discriminate.
    destruct (apply_gate_node n sparse g2 st1) as [st2| |] eqn:H2; try discriminate.
    rewrite (inverse_pair_cancels _ _ _ _ _ _ _ E H1 H2) in Hrun.
    eapply IH; [|reflexivity|exact Hrun]. subst k. simpl. lia.
  - cbn [sv_loop] in Hrun |- *.
    destruct (apply_gate_node n sparse g1 st0) as [st1| |]; try discriminate.
    eapply IH; [|reflexivity|exact Hrun]. subst k. simpl. lia.
Qed.

(** X2.  Whenever the state-vector loop completes on a gate list, it completes
    with the same vector on the list [_cancel_inverse_gates] returns for it:
    the pairs the rule drops (X X, Y Y, Z Z, H H, CNOT CNOT on equal target
    lists) are products of an operator with itself that is the identity,
    under both construction policies and for every target list the
    expansion accepts. *)
Theorem cancel_inverse_keeps_completed_runs
    (n : nat) (sparse : bool) (gates : list GateNode) (st0 st : vector) :
  sv_loop n sparse gates st0 = (Ok tt, st) ->
  exists out,
    _cancel_inverse_gates (fun g => g) gates = Ok out
    /\ sv_loop n sparse out st0 = (Ok tt, st).
Proof.
  intros Hrun. exists (cancel_pass (fun g => g) gates).
  split; [apply cancel_inverse_gates_pass|apply cancel_pass_sound; exact Hrun].
Qed.

Lemma cancel_inverse_keeps_completed_runs_witness :
  exists out,
    _cancel_inverse_gates (fun g => g)
      [mkGateNode "X" [0%Z] [] 0; mkGateNode "X" [0%Z] [] 0] = Ok out
    /\ sv_loop 1 false out (zero_state 1)
       = (Ok tt, snd (sv_loop 1 false
                        [mkGateNode "X" [0%Z] [] 0; mkGateNode "X" [0%Z] [] 0]
                        (zero_state 1))).
Proof.
  apply (cancel_inverse_keeps_completed_runs 1 false
           [mkGateNode "X" [0%Z] [] 0; mkGateNode "X" [0%Z] [] 0] (zero_state 1)).
  vm_compute. reflexivity.
Defined.

(** ** Optimization of circuits without rotations *)

(** The test that opens a run in [_merge_rotation_gates]. *)
Definition opens_run (g : GateNode) : bool :=
  rotation_gates (gate_name g) && (length (qubits g) =? 1)%nat.

Lemma merge_pass_no_rotation {A} (view : A -> GateNode) k : forall (l : list A),
  Forall (fun g => opens_run (view g) = false) l ->
  length l <= k ->
  merge_pass view k l = map inl l.
Proof.
  induction k as [|k IH]; intros l Hl Hk.
  - destruct l; [reflexivity|simpl in Hk; lia].
  - destruct l as [|g tl]; [reflexivity|].
    inversion Hl as [|? ? Hg Htl]; subst. cbn [merge_pass map].
    unfold opens_run in Hg. rewrite Hg. f_equal. apply IH; [exact Htl|].
    simpl in Hk. lia.
Qed.

Lemma optimized_nodes_no_rotation (l : list GateNode) :
  Forall (fun g => opens_run g = false) l ->
  optimized_nodes l = cancel_pass (fun g => g) l.
Proof.
  intros Hl. unfold optimized_nodes.
  rewrite merge_pass_no_rotation.
  - rewrite map_map. simpl. apply map_id.
  - apply (cancel_pass_Forall (fun g => g) (fun g => opens_run g = false)). exact Hl.
  - lia.
Qed.

Lemma run_result_ok h0 n sparse st0 data optimize_flag st :
  let w := add_gates (h0, mkCircuit n sparse false st0 []) data in
  snd (run optimize_flag (fst w) (snd w)) = Ok st <->
  sv_loop n sparse (executed optimize_flag data) (zero_state n) = (Ok tt, st).
Proof.
  intros w.
  destruct (run_built h0 n sparse st0 data optimize_flag) as (h' & Hrun).
  fold w in Hrun. rewrite Hrun. simpl.
  destruct (sv_loop n sparse (executed optimize_flag data) (zero_state n)) as [o s].
  simpl. destruct o as [[]| |]; split; intros H; inversion H; subst; reflexivity.
Qed.

(** X3.  On the state-vector backend ([use_tensor_network] false), for a
    circuit built with [add_gate] that holds no RX, RY or RZ gate on a
    single target: when the run without optimization returns a vector, the
    run with optimization returns the same vector and leaves it in the
    session. *)
Theorem optimization_keeps_completed_runs_without_rotations
    (h0 : heap) (n : nat) (sparse : bool) (st0 : vector) (data : list gate_data)
    (st : vector) :
  Forall (fun d => opens_run (node_of d) = false) data ->
  let w := add_gates (h0, mkCircuit n sparse false st0 []) data in
  snd (run false (fst w) (snd w)) = Ok st ->
  snd (run true (fst w) (snd w)) = Ok st
  /\ state (snd (fst (run true (fst w) (snd w)))) = st.
Proof.
  intros Hdata w Hrun.
  apply (run_result_ok h0 n sparse st0 data false st) in Hrun.
  assert (Hopt : sv_loop n sparse (executed true data) (zero_state n) = (Ok tt, st)).
  { unfold executed in *. rewrite optimized_nodes_no_rotation.
    - apply cancel_pass_sound. exact Hrun.
    - apply Forall_map. exact Hdata. }
  split; [apply (run_result_ok h0 n sparse st0 data true st); exact Hopt|].
  destruct (run_built h0 n sparse st0 data true) as (h' & Hb).
  fold w in Hb. rewrite Hb. unfold set_state. cbn [fst snd state].
  rewrite Hopt. reflexivity.
Qed.

Lemma optimization_keeps_completed_runs_without_rotations_witness :
  let data := [("Z"%string, [0%Z], []); ("X"%string, [0%Z], []); ("X"%string, [0%Z], [])] in
  let w := add_gates ([], mkCircuit 1 false false [] []) data in
  snd (run true (fst w) (snd w)) = snd (run false (fst w) (snd w))
  /\ exists st, snd (run false (fst w) (snd w)) = Ok st.
Proof.
  intros data w.
  assert (Hrun : exists st, snd (run false (fst w) (snd w)) = Ok st)
    by (vm_compute; eexists; reflexivity).
  destruct Hrun as (st & Hst). split; [|exists st; exact Hst].
  rewrite Hst.
  apply (optimization_keeps_completed_runs_without_rotations [] 1 false [] data st).
  - repeat constructor.
  - exact Hst.
Defined.

(** ** The two targets of a two-qubit gate *)

Lemma apply_two_qubit_gate_swap gate a b n sparse :
  apply_two_qubit_gate gate a b n sparse = apply_two_qubit_gate gate b a n sparse.
Proof.
  unfold apply_two_qubit_gate.
  replace (Z.abs (b - a)) with (Z.abs (a - b)) by lia.
  rewrite (Z.min_comm b a). reflexivity.
Qed.

(** X4.  [apply_two_qubit_gate] uses its two targets only through their distance
    and their minimum: exchanging control and target gives the same
    operator, and the engine the same step.  On two qubits, X on qubit 1
    followed by a CNOT "controlled by qubit 1" leaves qubit 0 alone (index
    1, not 3), while after X on qubit 0 the same CNOT flips qubit 1
    (index 3). *)
Theorem two_qubit_gate_ignores_which_target_is_control
    (gate : Matrix) (a b : Z) (n : nat) (sparse : bool) :
  apply_two_qubit_gate gate a b n sparse = apply_two_qubit_gate gate b a n sparse
  /\ (forall g g' st,
        gate_name g' = gate_name g -> params g' = params g ->
        qubits g = [a; b] -> qubits g' = [b; a] ->
        apply_gate_node n sparse g' st = apply_gate_node n sparse g st)
  /\ (let w := add_gates ([], mkCircuit 2 false false [] [])
                 [("X"%string, [1%Z], []); ("CNOT"%string, [1%Z; 0%Z], [])] in
      snd (run false (fst w) (snd w)) = Ok (basis 4 1))
  /\ (let w := add_gates ([], mkCircuit 2 false false [] [])
                 [("X"%string, [0%Z], []); ("CNOT"%string, [1%Z; 0%Z], [])] in
      snd (run false (fst w) (snd w)) = Ok (basis 4 3)).
Proof.
  split; [apply apply_two_qubit_gate_swap|]. split; [|split].
  - intros g g' st Hn Hp Hq Hq'. unfold apply_gate_node.
    rewrite Hn, Hp, Hq, Hq'.
    destruct (get_gate (gate_name g) (params g)) as [M| |]; cbn [rbind]; try reflexivity.
    rewrite (apply_two_qubit_gate_swap M b a). reflexivity.
  - vm_compute. f_equal. vector_eq.
  - vm_compute. f_equal. vector_eq.
Qed.

(** ** Shapes of the dense two-qubit expansion *)

Lemma fold_eye_square {X} (l : list X) : forall M c,
  square c M ->
  square (c * 2 ^ length l) (fold_left (fun result _ => kron result (eye 2)) l M).
Proof.
  induction l as [|x l IH]; intros M c HM; simpl.
  - rewrite Nat.mul_1_r. exact HM.
  - replace (c * (2 ^ length l + (2 ^ length l + 0))) with (c * 2 * 2 ^ length l) by lia.
    apply IH. apply square_kron; [exact HM|apply square_eye].
Qed.

Lemma dense_two_square gate d a b n :
  square d gate -> Z.abs (a - b) = 1%Z ->
  exists op,
    apply_two_qubit_gate gate a b n false = Ok (Dense op)
    /\ square (2 ^ Z.to_nat (Z.min a b) * d * 2 ^ Z.to_nat (Z.of_nat n - (Z.min a b + 2))) op.
Proof.
  intros Hg Hab. unfold apply_two_qubit_gate.
  rewrite Hab. simpl. eexists. split; [reflexivity|].
  rewrite <- (range_length (Z.min a b + 2) (Z.of_nat n)).
  apply fold_eye_square. apply square_kron; [|exact Hg].
  replace (Z.to_nat (Z.min a b)) with (length (range 0 (Z.min a b)))
    by (rewrite range_length; f_equal; lia).
  rewrite <- (Nat.mul_1_l (2 ^ _)).
  apply fold_eye_square. apply (square_eye 1).
Qed.

Lemma np_dot_wrong_shape c M (st : vector) :
  square c M -> c <> length st -> np_dot M st = Raise ShapeMismatch.
Proof.
  intros Hsq Hne. unfold np_dot. rewrite (square_ncols c M Hsq).
  destruct (Nat.eqb_spec c (length st)); [contradiction|reflexivity].
Qed.

Lemma np_dot_square c M (st : vector) :
  square c M -> length st = c -> np_dot M st = Ok (matvec M st).
Proof.
  intros Hsq Hlen. unfold np_dot. rewrite (square_ncols c M Hsq), Hlen, Nat.eqb_refl.
  reflexivity.
Qed.

Lemma pow2_exponent a b : 2 ^ a = 2 ^ b -> a = b.
Proof. apply Nat.pow_inj_r. lia. Qed.

(** X5.  The dense expansion of a 4 x 4 gate on two adjacent targets has
    [2 ^ n_qubits] rows and columns exactly when both targets lie in the
    register; otherwise the operator is larger and the product with the
    state raises the shape error, where a single-qubit gate outside the
    register is ignored. *)
Theorem dense_two_qubit_expansion_fits_only_inside_register
    (gate : Matrix) (a b : Z) (n : nat) :
  square 4 gate -> Z.abs (a - b) = 1%Z ->
  exists op,
    apply_two_qubit_gate gate a b n false = Ok (Dense op)
    /\ ((0 <= Z.min a b /\ Z.max a b < Z.of_nat n)%Z ->
          square (2 ^ n) op
          /\ forall st, length st = 2 ^ n ->
               sparse_state_vector_product (Dense op) st = Ok (matvec op st))
    /\ (~ (0 <= Z.min a b /\ Z.max a b < Z.of_nat n)%Z ->
          forall st, length st = 2 ^ n ->
            sparse_state_vector_product (Dense op) st = Raise ShapeMismatch).
Proof.
  intros Hg Hab.
  destruct (dense_two_square gate 4 a b n Hg Hab) as (op & Hop & Hsq).
  exists op. split; [exact Hop|].
  set (k1 := Z.to_nat (Z.min a b)) in *.
  set (k2 := Z.to_nat (Z.of_nat n - (Z.min a b + 2))) in *.
  assert (Hdim : 2 ^ k1 * 4 * 2 ^ k2 = 2 ^ (k1 + 2 + k2)).
  { rewrite !Nat.pow_add_r. simpl. lia. }
  rewrite Hdim in Hsq. split.
  - intros Hin. assert (Hk : k1 + 2 + k2 = n) by lia. rewrite Hk in Hsq.
    split; [exact Hsq|]. intros st Hst. simpl. apply (np_dot_square (2 ^ n)); assumption.
  - intros Hout st Hst. simpl. apply (np_dot_wrong_shape (2 ^ (k1 + 2 + k2))); [exact Hsq|].
    rewrite Hst. intros E. apply pow2_exponent in E. lia.
Qed.

Lemma dense_two_qubit_expansion_fits_only_inside_register_witness :
  exists op,
    apply_two_qubit_gate cnot 1 2 2 false = Ok (Dense op)
    /\ sparse_state_vector_product (Dense op) (zero_state 2) = Raise ShapeMismatch.
Proof.
  destruct (dense_two_qubit_expansion_fits_only_inside_register cnot 1 2 2)
    as (op & Hop & _ & Hout).
  - split; [repeat constructor|reflexivity].
  - reflexivity.
  - exists op. split; [exact Hop|]. apply Hout; [lia|reflexivity].
Defined.

(** ** Operators built from identity factors, on product vectors *)

Lemma kron_row_one (u : vector) : kron_row u [C1] = u.
Proof.
  induction u as [|a u IH]; [reflexivity|].
  unfold kron_row in *. simpl in *. rewrite IH, Cmult_1_r. reflexivity.
Qed.

Lemma kron_row_vscale a (v w : vector) :
  kron_row (vscale a v) w = vscale a (kron_row v w).
Proof.
  unfold kron_row, vscale. induction v as [|x v IH]; [reflexivity|].
  simpl. rewrite IH, map_app. f_equal.
  rewrite map_map. apply map_ext. intros y. symmetry. apply Cmult_assoc.
Qed.

Lemma kron_row_assoc (u v w : vector) :
  kron_row (kron_row u v) w = kron_row u (kron_row v w).
Proof.
  induction u as [|a u IH]; [reflexivity|].
  change (kron_row (a :: u) v) with (vscale a v ++ kron_row u v).
  change (kron_row (a :: u) (kron_row v w))
    with (vscale a (kron_row v w) ++ kron_row u (kron_row v w)).
  rewrite kron_row_app, IH, kron_row_vscale. reflexivity.
Qed.

Lemma basis_high_low r low :
  low < 2 ^ S r ->
  basis (2 ^ S r) low = kron_row (basis 2 (low / 2 ^ r)) (basis (2 ^ r) (low mod 2 ^ r)).
Proof.
  intros Hlow. pose proof (pow2_pos r) as Hpos.
  assert (Hhi : low / 2 ^ r < 2).
  { apply Nat.Div0.div_lt_upper_bound. simpl in Hlow. lia. }
  assert (Hlo : low mod 2 ^ r < 2 ^ r) by (apply Nat.mod_upper_bound; lia).
  rewrite kron_row_basis by assumption.
  change (2 ^ S r) with (2 * 2 ^ r). f_equal.
  rewrite (Nat.div_mod_eq low (2 ^ r)) at 1. lia.
Qed.

(** Identity factors appended to an operator act on the first factor of a
    product vector only. *)
Lemma fold_eye_action {X} (l : list X) : forall M c u low,
  square c M -> length u = c -> low < 2 ^ length l ->
  matvec (fold_left (fun result _ => kron result (eye 2)) l M)
    (kron_row u (basis (2 ^ length l) low))
  = kron_row (matvec M u) (basis (2 ^ length l) low).
Proof.
  induction l as [|x l IH]; intros M c u low HM Hu Hlow.
  - simpl in *. assert (low = 0) by lia. subst low.
    change (basis 1 0) with [C1]. rewrite !kron_row_one. reflexivity.
  - cbn [fold_left length].
    rewrite (basis_high_low (length l) low Hlow).
    assert (Hhi : low / 2 ^ length l < 2).
    { apply Nat.Div0.div_lt_upper_bound. simpl in Hlow. lia. }
    assert (Hlo : low mod 2 ^ length l < 2 ^ length l)
      by (apply Nat.mod_upper_bound; pose proof (pow2_pos (length l)); lia).
    rewrite <- !kron_row_assoc.
    rewrite (IH (kron M (eye 2)) (c * 2)).
    + rewrite matvec_kron.
      * rewrite (matvec_eye_len 2) by apply basis_length. reflexivity.
      * rewrite Hu. apply HM.
      * rewrite basis_length. apply eye_wf.
    + apply square_kron; [exact HM|apply square_eye].
    + rewrite kron_row_length, basis_length, Hu. reflexivity.
    + exact Hlo.
Qed.

Lemma fold_eye_eye {X} (l : list X) : forall c,
  fold_left (fun result _ => kron result (eye 2)) l (eye c) = eye (c * 2 ^ length l).
Proof.
  induction l as [|x l IH]; intros c; simpl.
  - rewrite Nat.mul_1_r. reflexivity.
  - rewrite kron_eye, IH. f_equal. lia.
Qed.

(** ** The dense two-qubit expansion on product vectors *)

(** With [k] qubits in front of the pair and [r] behind it, the operator
    applies the gate to the middle factor of a product vector whose outer
    factors are basis vectors. *)
Lemma dense_two_on_product gate (k r a low : nat) (w : vector) :
  square 4 gate -> length w = 4 -> a < 2 ^ k -> low < 2 ^ r ->
  exists op,
    apply_two_qubit_gate gate (Z.of_nat k) (Z.of_nat k + 1) (k + 2 + r) false = Ok (Dense op)
    /\ square (2 ^ (k + 2 + r)) op
    /\ matvec op (kron_row (kron_row (basis (2 ^ k) a) w) (basis (2 ^ r) low))
       = kron_row (kron_row (basis (2 ^ k) a) (matvec gate w)) (basis (2 ^ r) low).
Proof.
  intros Hg Hw Ha Hlow.
  unfold apply_two_qubit_gate.
  replace (Z.abs (Z.of_nat k - (Z.of_nat k + 1))) with 1%Z by lia.
  replace (Z.min (Z.of_nat k) (Z.of_nat k + 1)) with (Z.of_nat k) by lia.
  simpl negb. cbv iota.
  eexists. split; [reflexivity|].
  assert (Hl1 : length (range 0 (Z.of_nat k)) = k) by (rewrite range_length; lia).
  assert (Hl2 : length (range (Z.of_nat k + 2) (Z.of_nat (k + 2 + r))) = r)
    by (rewrite range_length; lia).
  generalize dependent (range (Z.of_nat k + 2) (Z.of_nat (k + 2 + r))).
  generalize dependent (range 0 (Z.of_nat k)).
  intros l1 Hl1 l2 Hl2. subst k r.
  change (eye 1) with (eye (2 ^ 0)).
  rewrite (fold_eye_eye l1 (2 ^ 0)). simpl Nat.pow at 1. rewrite Nat.mul_1_l.
  assert (Hsq : square (2 ^ length l1 * 4) (kron (eye (2 ^ length l1)) gate))
    by (apply square_kron; [apply square_eye|exact Hg]).
  split.
  - replace (2 ^ (length l1 + 2 + length l2)) with (2 ^ length l1 * 4 * 2 ^ length l2)
      by (rewrite !Nat.pow_add_r; simpl; lia).
    apply fold_eye_square. exact Hsq.
  - rewrite (fold_eye_action l2 _ (2 ^ length l1 * 4)).
    + rewrite matvec_kron.
      * rewrite (matvec_eye_len (2 ^ length l1)) by apply basis_length. reflexivity.
      * rewrite basis_length. apply eye_wf.
      * rewrite Hw. apply Hg.
    + exact Hsq.
    + rewrite kron_row_length, basis_length, Hw. reflexivity.
    + exact Hlow.
Qed.

Lemma basis_triple k r a g low :
  a < 2 ^ k -> g < 4 -> low < 2 ^ r ->
  kron_row (kron_row (basis (2 ^ k) a) (basis 4 g)) (basis (2 ^ r) low)
  = basis (2 ^ (k + 2 + r)) ((a * 4 + g) * 2 ^ r + low).
Proof.
  intros Ha Hg Hlow.
  rewrite (kron_row_basis (2 ^ k) 4) by assumption.
  rewrite kron_row_basis by (try assumption; nia).
  f_equal. rewrite !Nat.pow_add_r. simpl. lia.
Qed.

(** The dense expansion of a 4 x 4 gate on the targets [k] and [k + 1]
    moves a basis state as the gate moves the two bits at the positions
    [k] and [k + 1], counted from the most significant bit. *)
Lemma dense_two_on_basis gate (k r a g g' low : nat) :
  square 4 gate -> matvec gate (basis 4 g) = basis 4 g' ->
  a < 2 ^ k -> g < 4 -> g' < 4 -> low < 2 ^ r ->
  exists op,
    apply_two_qubit_gate gate (Z.of_nat k) (Z.of_nat k + 1) (k + 2 + r) false = Ok (Dense op)
    /\ square (2 ^ (k + 2 + r)) op
    /\ matvec op (basis (2 ^ (k + 2 + r)) ((a * 4 + g) * 2 ^ r + low))
       = basis (2 ^ (k + 2 + r)) ((a * 4 + g') * 2 ^ r + low).
Proof.
  intros Hsq Hgate Ha Hg Hg' Hlow.
  destruct (dense_two_on_product gate k r a low (basis 4 g) Hsq (basis_length 4 g) Ha Hlow)
    as (op & Hop & Hsqop & Hact).
  exists op. split; [exact Hop|]. split; [exact Hsqop|].
  rewrite <- !basis_triple by assumption. rewrite Hact, Hgate. reflexivity.
Qed.

Definition cnot_bits (g : nat) : nat :=
  match g with
  | 2 => 3
  | 3 => 2
  | _ => g
  end.

Definition swap_bits (g : nat) : nat :=
  match g with
  | 1 => 2
  | 2 => 1
  | _ => g
  end.

Lemma cnot_square : square 4 cnot.
Proof. split; [repeat constructor|reflexivity]. Qed.

Lemma swap_square : square 4 swap.
Proof. split; [repeat constructor|reflexivity]. Qed.

Lemma cnot_on_basis g : g < 4 -> matvec cnot (basis 4 g) = basis 4 (cnot_bits g).
Proof.
  intros Hg. destruct g as [|[|[|[|g]]]]; try lia;
    unfold matvec, cnot, basis; simpl; vector_eq.
Qed.

Lemma swap_on_basis g : g < 4 -> matvec swap (basis 4 g) = basis 4 (swap_bits g).
Proof.
  intros Hg. destruct g as [|[|[|[|g]]]]; try lia;
    unfold matvec, swap, basis; simpl; vector_eq.
Qed.

Lemma cnot_bits_lt g : g < 4 -> cnot_bits g < 4.
Proof. intros Hg. destruct g as [|[|[|[|g]]]]; simpl; lia. Qed.

Lemma swap_bits_lt g : g < 4 -> swap_bits g < 4.
Proof. intros Hg. destruct g as [|[|[|[|g]]]]; simpl; lia. Qed.

(** X6.  On the dense path, CNOT and SWAP on the targets [k] and [k + 1] of a
    register of [k + 2 + r] qubits send the basis state with index
    [(a * 4 + g) * 2 ^ r + low] ([a] the [k] leading bits, [g] the two bits
    of the targets, [low] the [r] trailing bits) to the basis state where
    [g] is replaced by its image under the gate: qubit [k] is the more
    significant of the two bits and is the control of CNOT. *)
Theorem dense_cnot_and_swap_act_on_bits_counted_from_msb
    (k r a g low : nat) :
  a < 2 ^ k -> g < 4 -> low < 2 ^ r ->
  let n := k + 2 + r in
  let index g := (a * 4 + g) * 2 ^ r + low in
  (forall node, gate_name node = "CNOT"%string ->
     qubits node = [Z.of_nat k; (Z.of_nat k + 1)%Z] ->
     apply_gate_node n false node (basis (2 ^ n) (index g))
     = Ok (basis (2 ^ n) (index (cnot_bits g))))
  /\ (forall node, gate_name node = "SWAP"%string ->
        qubits node = [Z.of_nat k; (Z.of_nat k + 1)%Z] ->
        apply_gate_node n false node (basis (2 ^ n) (index g))
        = Ok (basis (2 ^ n) (index (swap_bits g)))).
Proof.
  intros Ha Hg Hlow n index. split; intros node Hname Hq; unfold apply_gate_node;
    rewrite Hname, Hq; cbn [get_gate GATE_MAP String.eqb Ascii.eqb Bool.eqb rbind].
  - destruct (dense_two_on_basis cnot k r a g (cnot_bits g) low cnot_square
                (cnot_on_basis g Hg) Ha Hg (cnot_bits_lt g Hg) Hlow)
      as (op & Hop & Hsq & Hact).
    fold n in Hop, Hsq, Hact. rewrite Hop. cbn [rbind sparse_state_vector_product].
    rewrite (np_dot_square (2 ^ n)) by (try exact Hsq; apply basis_length).
    subst index. cbv beta. rewrite Hact. reflexivity.
  - destruct (dense_two_on_basis swap k r a g (swap_bits g) low swap_square
                (swap_on_basis g Hg) Ha Hg (swap_bits_lt g Hg) Hlow)
      as (op & Hop & Hsq & Hact).
    fold n in Hop, Hsq, Hact. rewrite Hop. cbn [rbind sparse_state_vector_product].
    rewrite (np_dot_square (2 ^ n)) by (try exact Hsq; apply basis_length).
    subst index. cbv beta. rewrite Hact. reflexivity.
Qed.

Lemma dense_cnot_and_swap_act_on_bits_counted_from_msb_witness :
  apply_gate_node 3 false (mkGateNode "CNOT" [1%Z; 2%Z] [] 0) (basis 8 6) = Ok (basis 8 7).
Proof.
  apply (proj1 (dense_cnot_and_swap_act_on_bits_counted_from_msb 1 0 1 2 0
                  ltac:(simpl; lia) ltac:(lia) ltac:(simpl; lia))); reflexivity.
Defined.

(** ** The GHZ circuit *)

Section GHZ.
Local Open Scope R_scope.

(** The amplitude [1 / sqrt 2]. *)
Definition inv_sqrt2 : C := RtoC (/ sqrt 2).

(** The vector with [1 / sqrt 2] at the first and at the last index. *)
Definition ghz_state (n : nat) : vector :=
  <[(2 ^ n - 1)%nat := inv_sqrt2]> (<[0%nat := inv_sqrt2]> (replicate (2 ^ n) C0)).

(** The gates [create_ghz_state] adds. *)
Definition cnot_chain (k : nat) : list gate_data :=
  map (fun i => ("CNOT"%string, [i; (i + 1)%Z], [])) (range 0 (Z.of_nat k)).

Definition ghz_data (n : nat) : list gate_data :=
  ("H"%string, [0%Z], []) :: cnot_chain (n - 1).

(** The state after H and the first [k] CNOT gates. *)
Definition ghz_partial (n k : nat) : vector :=
  vadd (vscale inv_sqrt2 (basis (2 ^ n) 0))
       (vscale inv_sqrt2 (basis (2 ^ n) (2 ^ n - 2 ^ (n - 1 - k)))).

Lemma hadamard_zero : matvec hadamard (basis 2 0) = [inv_sqrt2; inv_sqrt2].
Proof.
  unfold matvec, hadamard, basis, inv_sqrt2. simpl.
  repeat (apply (f_equal2 (@cons C)); [apply C_eq; simpl; unfold Rdiv; ring|]).
  reflexivity.
Qed.

Lemma hadamard_square : square 2 hadamard.
Proof. split; [repeat constructor|reflexivity]. Qed.

Lemma kron_row_pair a b (w : vector) : kron_row [a; b] w = vscale a w ++ vscale b w.
Proof. unfold kron_row. simpl. rewrite app_nil_r. reflexivity. Qed.

Lemma kron_basis_00 k : (0 < k)%nat -> kron_row (basis 2 0) (basis k 0) = basis (2 * k) 0.
Proof. intros Hk. exact (kron_row_basis 2 k 0 0 ltac:(lia) Hk). Qed.

Lemma basis_first_half k : (0 < k)%nat -> basis (2 * k) 0 = basis k 0 ++ replicate k C0.
Proof.
  intros Hk. pose proof (kron_row_basis 2 k 0 0 ltac:(lia) Hk) as H.
  change (0 * k + 0)%nat with 0%nat in H. rewrite <- H.
  change (basis 2 0) with [C1; C0]. rewrite kron_row_pair.
  unfold vscale. rewrite map_Cmult_1, map_Cmult_0, basis_length. reflexivity.
Qed.

Lemma basis_second_half k : (0 < k)%nat -> basis (2 * k) k = replicate k C0 ++ basis k 0.
Proof.
  intros Hk. pose proof (kron_row_basis 2 k 1 0 ltac:(lia) Hk) as H.
  replace (1 * k + 0)%nat with k in H by lia. rewrite <- H.
  change (basis 2 1) with [C0; C1]. rewrite kron_row_pair.
  unfold vscale. rewrite map_Cmult_1, map_Cmult_0, basis_length. reflexivity.
Qed.

Lemma fold_never (q : Z) (gate : Matrix) (l : list Z) : forall M,
  Forall (fun i => i <> q) l ->
  fold_left (fun result i => if (i =? q)%Z then kron result gate else kron result (eye 2)) l M
  = fold_left (fun result _ => kron result (eye 2)) l M.
Proof.
  induction l as [|i l IH]; intros M Hl; simpl; [reflexivity|].
  inversion Hl as [|? ? Hi Hl']; subst.
  destruct (Z.eqb_spec i q); [contradiction|]. apply IH. exact Hl'.
Qed.

Lemma ghz_first_step n :
  (0 < n)%nat ->
  apply_gate_node n false (node_of ("H"%string, [0%Z], [])) (zero_state n)
  = Ok (ghz_partial n 0).
Proof.
  intros Hn. destruct n as [|n]; [lia|]. clear Hn.
  unfold apply_gate_node, node_of.
  cbn [gate_name params qubits fst snd get_gate GATE_MAP String.eqb Ascii.eqb Bool.eqb rbind].
  unfold apply_single_qubit_gate. cbn [Z.eqb sparse_state_vector_product].
  rewrite fold_never
    by (apply Forall_forall; intros i Hi; apply list_elem_of_In, range_bounds in Hi; lia).
  assert (Hl : length (range 1 (Z.of_nat (S n))) = n) by (rewrite range_length; lia).
  generalize dependent (range 1 (Z.of_nat (S n))). intros l Hl. subst n.
  pose proof (pow2_pos (length l)) as Hpos.
  rewrite (np_dot_square (2 * 2 ^ length l)).
  - f_equal. unfold zero_state. change (2 ^ S (length l))%nat with (2 * 2 ^ length l)%nat.
    rewrite <- (kron_basis_00 (2 ^ length l) Hpos) at 1.
    rewrite (fold_eye_action l hadamard 2) by (try apply hadamard_square; auto).
    rewrite hadamard_zero, kron_row_pair.
    unfold ghz_partial. change (2 ^ S (length l))%nat with (2 * 2 ^ length l)%nat.
    replace (2 * 2 ^ length l - 2 ^ (S (length l) - 1 - 0))%nat with (2 ^ length l)%nat
      by (replace (S (length l) - 1 - 0)%nat with (length l) by lia; lia).
    rewrite basis_first_half, basis_second_half by exact Hpos.
    rewrite !vscale_app, !vscale_zeros.
    rewrite vadd_app by (rewrite vscale_length, basis_length, length_replicate; reflexivity).
    rewrite vadd_zeros_r_len, vadd_zeros_l_len
      by (rewrite vscale_length; apply basis_length).
    reflexivity.
  - apply fold_eye_square. apply hadamard_square.
  - apply basis_length.
Qed.

Lemma ghz_cnot_step n k :
  (k + 2 <= n)%nat ->
  apply_gate_node n false
    (node_of ("CNOT"%string, [Z.of_nat k; (Z.of_nat k + 1)%Z], [])) (ghz_partial n k)
  = Ok (ghz_partial n (S k)).
Proof.
  intros Hk. remember (n - k - 2)%nat as r eqn:Hr.
  assert (Hn : n = (k + 2 + r)%nat) by lia. clear Hr Hk. subst n.
  pose proof (pow2_pos k) as Hpk. pose proof (pow2_pos r) as Hpr.
  destruct (dense_two_on_basis cnot k r 0 0 0 0 cnot_square (cnot_on_basis 0 ltac:(lia))
              Hpk ltac:(lia) ltac:(lia) Hpr) as (op & Hop & Hsq & H0).
  destruct (dense_two_on_basis cnot k r (2 ^ k - 1) 2 3 0 cnot_square
              (cnot_on_basis 2 ltac:(lia)) ltac:(lia) ltac:(lia) ltac:(lia) Hpr)
    as (op' & Hop' & _ & H1).
  rewrite Hop in Hop'. inversion Hop'; subst op'. clear Hop'.
  unfold apply_gate_node, node_of.
  cbn [gate_name params qubits fst snd get_gate GATE_MAP String.eqb Ascii.eqb Bool.eqb rbind].
  rewrite Hop. cbn [rbind sparse_state_vector_product].
  assert (Hpow : (2 ^ (k + 2 + r) = 2 ^ k * 4 * 2 ^ r)%nat)
    by (rewrite !Nat.pow_add_r; simpl; lia).
  assert (Hpow1 : (2 ^ (k + 2 + r - 1 - k) = 2 * 2 ^ r)%nat)
    by (replace (k + 2 + r - 1 - k)%nat with (S r) by lia; reflexivity).
  assert (Hpow2 : (2 ^ (k + 2 + r - 1 - S k) = 2 ^ r)%nat)
    by (f_equal; lia).
  assert (E0 : ((0 * 4 + 0) * 2 ^ r + 0 = 0)%nat) by lia.
  assert (E1 : ((2 ^ (k + 2 + r) - 2 ^ (k + 2 + r - 1 - k))
                = ((2 ^ k - 1) * 4 + 2) * 2 ^ r + 0)%nat) by (rewrite Hpow, Hpow1; nia).
  assert (E2 : ((2 ^ (k + 2 + r) - 2 ^ (k + 2 + r - 1 - S k))
                = ((2 ^ k - 1) * 4 + 3) * 2 ^ r + 0)%nat) by (rewrite Hpow, Hpow2; nia).
  rewrite E0 in H0. unfold ghz_partial. rewrite E1, E2.
  rewrite (np_dot_square (2 ^ (k + 2 + r))).
  - rewrite matvec_vadd by (rewrite !vscale_length, !basis_length; reflexivity).
    rewrite !matvec_vscale, H0, H1. reflexivity.
  - exact Hsq.
  - rewrite vadd_length; rewrite !vscale_length, !basis_length; reflexivity.
Qed.

Lemma range_snoc k : range 0 (Z.of_nat (S k)) = range 0 (Z.of_nat k) ++ [Z.of_nat k].
Proof.
  unfold range. replace (Z.to_nat (Z.of_nat (S k) - 0)) with (S k) by lia.
  replace (Z.to_nat (Z.of_nat k - 0)) with k by lia.
  rewrite seq_S, map_app. reflexivity.
Qed.

Lemma cnot_chain_snoc k :
  cnot_chain (S k)
  = cnot_chain k ++ [("CNOT"%string, [Z.of_nat k; (Z.of_nat k + 1)%Z], [])].
Proof. unfold cnot_chain. rewrite range_snoc, map_app. reflexivity. Qed.

Lemma ghz_loop n k :
  (k + 1 <= n)%nat ->
  sv_loop n false (map node_of (("H"%string, [0%Z], []) :: cnot_chain k)) (zero_state n)
  = (Ok tt, ghz_partial n k).
Proof.
  induction k as [|k IH]; intros Hk.
  - change (cnot_chain 0) with (@nil gate_data). cbn [map sv_loop].
    rewrite ghz_first_step by lia. reflexivity.
  - rewrite cnot_chain_snoc.
    change (?x :: ?l ++ ?m) with ((x :: l) ++ m). rewrite map_app.
    rewrite (sv_loop_app _ _ _ _ _ _ (IH ltac:(lia))).
    cbn [map sv_loop]. rewrite ghz_cnot_step by lia. reflexivity.
Qed.

Lemma two_point_vector N a :
  (2 <= N)%nat ->
  vadd (vscale a (basis N 0)) (vscale a (basis N (N - 1)))
  = <[(N - 1)%nat := a]> (<[0%nat := a]> (replicate N C0)).
Proof.
  intros HN. apply list_eq. intros j. unfold vadd, vscale.
  rewrite lookup_zip_with, !list_lookup_fmap.
  destruct (Nat.lt_ge_cases j N) as [Hj|Hj].
  - rewrite !basis_lookup by lia. simpl.
    destruct (Nat.eqb_spec j 0) as [->|H0]; [|destruct (Nat.eqb_spec j (N - 1)) as [->|H1]].
    + destruct (Nat.eqb_spec 0 (N - 1)); [lia|].
      rewrite list_lookup_insert_ne by lia.
      rewrite list_lookup_insert_eq by (rewrite length_replicate; lia).
      f_equal. apply C_eq; simpl; ring.
    + rewrite list_lookup_insert_eq by (rewrite length_insert, length_replicate; lia).
      f_equal. apply C_eq; simpl; ring.
    + rewrite !list_lookup_insert_ne by lia.
      rewrite lookup_replicate_2 by lia.
      f_equal. apply C_eq; simpl; ring.
  - rewrite (proj2 (lookup_ge_None (basis N 0) j)) by (rewrite basis_length; lia).
    simpl. symmetry. apply lookup_ge_None.
    rewrite !length_insert, length_replicate. lia.
Qed.

Lemma ghz_partial_last n : (0 < n)%nat -> ghz_partial n (n - 1) = ghz_state n.
Proof.
  intros Hn. unfold ghz_partial, ghz_state.
  replace (n - 1 - (n - 1))%nat with 0%nat by lia. simpl Nat.pow at 3.
  apply two_point_vector.
  destruct n as [|n]; [lia|]. pose proof (pow2_pos n). simpl. lia.
Qed.

(** The state-vector loop on the gates of the GHZ circuit, dense path. *)
Lemma ghz_dense_loop n :
  (0 < n)%nat ->
  sv_loop n false (map node_of (ghz_data n)) (zero_state n) = (Ok tt, ghz_state n).
Proof.
  intros Hn. unfold ghz_data. rewrite ghz_loop by lia.
  rewrite ghz_partial_last by exact Hn. reflexivity.
Qed.

End GHZ.

(** ** Gate lists the optimizer leaves as they are *)

Lemma cancel_pass_fixed (l : list GateNode) :
  (forall i g1 g2, l !! i = Some g1 -> l !! S i = Some g2 -> is_inverse_of g1 g2 = false) ->
  cancel_pass (fun g => g) l = l.
Proof.
  induction l as [|g1 l IH]; intros H; [reflexivity|].
  destruct l as [|g2 rest]; [reflexivity|].
  rewrite cancel_pass_cons2, (H 0 g1 g2 eq_refl eq_refl).
  f_equal. apply IH. intros i a b Ha Hb. apply (H (S i) a b); assumption.
Qed.

Lemma range_lookup lo hi (j : nat) :
  (Z.of_nat j < hi - lo)%Z -> range lo hi !! j = Some (lo + Z.of_nat j)%Z.
Proof.
  intros Hj. unfold range. rewrite list_lookup_fmap, lookup_seq_lt by lia. reflexivity.
Qed.

Lemma cnot_chain_lookup k j d :
  cnot_chain k !! j = Some d ->
  d = ("CNOT"%string, [Z.of_nat j; (Z.of_nat j + 1)%Z], []).
Proof.
  unfold cnot_chain. rewrite list_lookup_fmap. intros H.
  destruct (range 0 (Z.of_nat k) !! j) as [i|] eqn:Hi; [|discriminate].
  assert (Hlt : j < k).
  { apply lookup_lt_Some in Hi. rewrite range_length in Hi. lia. }
  rewrite range_lookup in Hi by lia. inversion Hi; subst i.
  simpl in H. inversion H. reflexivity.
Qed.

Lemma ghz_nodes_have_no_pair n i g1 g2 :
  map node_of (ghz_data n) !! i = Some g1 ->
  map node_of (ghz_data n) !! S i = Some g2 ->
  is_inverse_of g1 g2 = false.
Proof.
  unfold ghz_data. rewrite !list_lookup_fmap. intros H1 H2.
  destruct i as [|i]; simpl in H1, H2.
  - inversion H1; subst g1.
    destruct (cnot_chain (n - 1) !! 0) as [d|] eqn:Hd; [|discriminate].
    apply cnot_chain_lookup in Hd. subst d. inversion H2. reflexivity.
  - destruct (cnot_chain (n - 1) !! i) as [d1|] eqn:Hd1; [|discriminate].
    destruct (cnot_chain (n - 1) !! S i) as [d2|] eqn:Hd2; [|discriminate].
    apply cnot_chain_lookup in Hd1, Hd2. subst d1 d2.
    inversion H1; inversion H2. unfold is_inverse_of, node_of. simpl.
    apply bool_decide_eq_false_2. intros E. inversion E. lia.
Qed.

Lemma ghz_nodes_open_no_run n :
  Forall (fun g => opens_run g = false) (map node_of (ghz_data n)).
Proof.
  unfold ghz_data, cnot_chain. constructor; [reflexivity|].
  apply Forall_map, Forall_map, Forall_forall. intros; reflexivity.
Qed.

Lemma ghz_executed optimize_flag n :
  executed optimize_flag (ghz_data n) = map node_of (ghz_data n).
Proof.
  destruct optimize_flag; [|reflexivity]. unfold executed.
  rewrite optimized_nodes_no_rotation by apply ghz_nodes_open_no_run.
  apply cancel_pass_fixed. apply ghz_nodes_have_no_pair.
Qed.

Lemma should_use_sparse_default n : should_use_sparse n (5 / 10) = (10 <? n)%nat.
Proof.
  unfold should_use_sparse. destruct (Rlt_dec (7 / 10) (5 / 10)) as [H|_]; [lra|].
  apply orb_false_r.
Qed.

Lemma fold_left_fmap_list {X Y Z0} (f : Z0 -> Y -> Z0) (g : X -> Y) (l : list X) : forall a,
  fold_left f (map g l) a = fold_left (fun a x => f a (g x)) l a.
Proof. induction l as [|x l IH]; intros a; simpl; [reflexivity|apply IH]. Qed.

Lemma create_ghz_state_spec store n :
  create_ghz_state store n
  = Ok (add_gates (store, mkCircuit n (10 <? n)%nat false (zero_state n) []) (ghz_data n)).
Proof.
  unfold create_ghz_state, QuantumCircuit_init.
  rewrite create_zero_state, should_use_sparse_default. cbn [rbind].
  f_equal. unfold add_gates, ghz_data, cnot_chain. cbn [fold_left].
  rewrite fold_left_fmap_list.
  destruct n as [|n]; [reflexivity|].
  replace (Z.of_nat (S n - 1)) with (Z.of_nat (S n) - 1)%Z by lia. reflexivity.
Qed.

(** X7.  [create_ghz_state(n)] adds H on qubit 0 and the CNOT gates on (0, 1),
    (1, 2), ...; for [n] up to 10 the session is built with the dense policy.
    Run with or without optimization it returns the vector with
    [1 / sqrt 2] at index 0 and at index [2 ^ n - 1] and zeros elsewhere.
    The same holds for every [n >= 1] when the dense policy is asked for. *)
Theorem ghz_circuit_returns_ghz_state (store : heap) (n : nat) (optimize_flag : bool) :
  1 <= n ->
  (forall st0,
     let w := add_gates (store, mkCircuit n false false st0 []) (ghz_data n) in
     snd (run optimize_flag (fst w) (snd w)) = Ok (ghz_state n))
  /\ (n <= 10 ->
      exists w,
        create_ghz_state store n = Ok w
        /\ snd (run optimize_flag (fst w) (snd w)) = Ok (ghz_state n)
        /\ state (snd (fst (run optimize_flag (fst w) (snd w)))) = ghz_state n).
Proof.
  intros Hn.
  assert (Hloop : sv_loop n false (executed optimize_flag (ghz_data n)) (zero_state n)
                  = (Ok tt, ghz_state n))
    by (rewrite ghz_executed; apply ghz_dense_loop; lia).
  split.
  - intros st0 w. apply (run_result_ok store n false st0 (ghz_data n) optimize_flag).
    exact Hloop.
  - intros Hle. rewrite create_ghz_state_spec.
    destruct (Nat.ltb_spec 10 n) as [|_]; [lia|].
    eexists. split; [reflexivity|]. split.
    + apply (run_result_ok store n false (zero_state n) (ghz_data n) optimize_flag).
      exact Hloop.
    + destruct (run_built store n false (zero_state n) (ghz_data n) optimize_flag)
        as (h' & Hb).
      rewrite Hb. unfold set_state. cbn [fst snd state]. rewrite Hloop. reflexivity.
Qed.

Lemma ghz_circuit_returns_ghz_state_witness :
  exists w,
    create_ghz_state [] 3 = Ok w
    /\ snd (run true (fst w) (snd w)) = Ok (ghz_state 3).
Proof.
  destruct (ghz_circuit_returns_ghz_state [] 3 true ltac:(lia)) as [_ H].
  destruct (H ltac:(lia)) as (w & Hw & Hrun & _).
  exists w. split; assumption.
Defined.

(** ** The sparse two-qubit expansion *)

Lemma toarray_fold_identity {X} (l : list X) : forall r,
  toarray (fold_left (fun result _ => sparse_kron result (sparse_identity 2)) l r)
  = fold_left (fun result _ => kron result (eye 2)) l (toarray r).
Proof.
  induction l as [|x l IH]; intros r; simpl; [reflexivity|]. rewrite IH. reflexivity.
Qed.

Lemma sparse_place_no_match idxs m g : forall r,
  Forall (fun i => i <> m) idxs ->
  sparse_place idxs m g (sparse_identity 2) r
  = fold_left (fun result _ => sparse_kron result (sparse_identity 2)) idxs r.
Proof.
  induction idxs as [|i idxs IH]; intros r Hl; simpl; [reflexivity|].
  inversion Hl as [|? ? Hi Hl']; subst.
  destruct (Z.eqb_spec i m); [contradiction|]. apply IH. exact Hl'.
Qed.

Lemma sparse_place_match pre m post g : forall r,
  Forall (fun i => i <> m) pre ->
  sparse_place (pre ++ m :: post) m g (sparse_identity 2) r
  = sparse_kron (fold_left (fun result _ => sparse_kron result (sparse_identity 2)) pre r) g.
Proof.
  induction pre as [|i pre IH]; intros r Hl; simpl.
  - rewrite Z.eqb_refl. reflexivity.
  - inversion Hl as [|? ? Hi Hl']; subst.
    destruct (Z.eqb_spec i m); [contradiction|]. apply IH. exact Hl'.
Qed.

Lemma range_step2_length n : length (range_step2 (Z.of_nat n)) = (n + 1) / 2.
Proof.
  unfold range_step2. rewrite length_map, length_seq.
  rewrite <- (Nat2Z.id ((n + 1) / 2)). f_equal.
  rewrite Nat2Z.inj_div. f_equal. lia.
Qed.

Lemma range_step2_even n i : In i (range_step2 (Z.of_nat n)) -> (i mod 2 = 0)%Z.
Proof.
  unfold range_step2. rewrite in_map_iff. intros (k & <- & _).
  rewrite Z.mul_comm. apply Z.mod_mul. lia.
Qed.

Lemma range_step2_split n j :
  2 * j < n ->
  exists pre post,
    range_step2 (Z.of_nat n) = pre ++ Z.of_nat (2 * j) :: post
    /\ length pre = j
    /\ Forall (fun i => i <> Z.of_nat (2 * j)) pre.
Proof.
  intros Hj. unfold range_step2.
  assert (Hlen : Z.to_nat ((Z.of_nat n + 1) / 2) = (n + 1) / 2).
  { rewrite <- (Nat2Z.id ((n + 1) / 2)). f_equal.
    rewrite Nat2Z.inj_div. f_equal. lia. }
  rewrite Hlen.
  assert (Hjlt : j < (n + 1) / 2).
  { apply Nat.div_le_lower_bound; lia. }
  replace ((n + 1) / 2) with (j + S ((n + 1) / 2 - S j)) by lia.
  rewrite seq_app, map_app. simpl.
  eexists _, _. split; [f_equal; f_equal; lia|].
  split; [rewrite length_map, length_seq; reflexivity|].
  apply Forall_map, Forall_forall. intros k Hk. apply elem_of_seq in Hk. simpl. lia.
Qed.

(** Under the sparse policy the expansion of a gate on the adjacent targets
    with minimum [m], both inside the register, places the gate only when
    [m] is even, and then behind [m / 2] identity factors instead of [m]:
    - for [m = 0] the array is that of the dense expansion;
    - for an even [m >= 2] the operator has [2 ^ (n - m / 2)] rows and
      columns and the product with the state raises the shape error;
    - for an odd [m] the gate is never used: the operator is an identity
      array, whose product with the state raises the shape error, or
      returns the state unchanged when the array happens to have
      [2 ^ n] rows. *)
Lemma sparse_two_cases (gate : Matrix) (a b : Z) (n m : nat) :
  square 4 gate -> Z.abs (a - b) = 1%Z -> Z.min a b = Z.of_nat m -> m + 2 <= n ->
  exists op,
    apply_two_qubit_gate gate a b n true = Ok (Sparse op)
    /\ (m = 0 ->
          apply_two_qubit_gate gate a b n false = Ok (Dense (toarray op)))
    /\ (forall j, m = 2 * j -> 1 <= j ->
          square (2 ^ (n - j)) (toarray op)
          /\ forall st, length st = 2 ^ n ->
               sparse_state_vector_product (Sparse op) st = Raise ShapeMismatch)
    /\ (forall j, m = 2 * j + 1 ->
          toarray op = eye (2 ^ ((n + 1) / 2 + (n - m - 2)))
          /\ forall st, length st = 2 ^ n ->
               sparse_state_vector_product (Sparse op) st
               = if ((n + 1) / 2 =? m + 2)%nat then Ok st else Raise ShapeMismatch).
Proof.
  intros Hg Hab Hmin Hm. unfold apply_two_qubit_gate.
  rewrite Hab, Hmin. simpl negb. cbv iota.
  eexists. split; [reflexivity|].
  assert (Hl2 : length (range (Z.of_nat m + 2) (Z.of_nat n)) = n - m - 2)
    by (rewrite range_length; lia).
  set (l2 := range (Z.of_nat m + 2) (Z.of_nat n)) in *.
  cbn [sparse_state_vector_product]. rewrite toarray_fold_identity.
  split; [|split].
  - intros ->.
    destruct (range_step2_split n 0 ltac:(lia)) as (pre & post & Hsplit & Hpre & Hne).
    destruct pre; [|discriminate]. simpl in Hsplit. rewrite Hsplit. simpl.
    reflexivity.
  - intros j -> Hj.
    destruct (range_step2_split n j ltac:(lia)) as (pre & post & Hsplit & Hpre & Hne).
    rewrite Hsplit, sparse_place_match by exact Hne.
    cbn [toarray sparse_kron]. rewrite toarray_fold_identity.
    assert (Hsq : square (2 ^ (n - j))
              (fold_left (fun result _ => kron result (eye 2)) l2
                 (kron (fold_left (fun result _ => kron result (eye 2)) pre
                          (toarray (sparse_identity 1))) gate))).
    { replace (2 ^ (n - j)) with (1 * 2 ^ length pre * 4 * 2 ^ length l2).
      - apply fold_eye_square. apply square_kron; [|exact Hg].
        apply fold_eye_square. apply (square_eye 1).
      - rewrite Hpre, Hl2. replace (n - j) with (j + 2 + (n - 2 * j - 2)) by lia.
        rewrite !Nat.pow_add_r. simpl. lia. }
    split; [exact Hsq|]. intros st Hst.
    apply (np_dot_wrong_shape (2 ^ (n - j))); [exact Hsq|].
    rewrite Hst. intros E. apply pow2_exponent in E. lia.
  - intros j ->.
    rewrite sparse_place_no_match.
    + rewrite toarray_fold_identity. change (toarray (sparse_identity 1)) with (eye 1).
      rewrite !fold_eye_eye, range_step2_length, Hl2.
      assert (Hdim : 1 * 2 ^ ((n + 1) / 2) * 2 ^ (n - (2 * j + 1) - 2)
                     = 2 ^ ((n + 1) / 2 + (n - (2 * j + 1) - 2)))
        by (rewrite Nat.pow_add_r; lia).
      rewrite Hdim. split; [reflexivity|]. intros st Hst.
      destruct (Nat.eqb_spec ((n + 1) / 2) (2 * j + 1 + 2)) as [E|E].
      * replace ((n + 1) / 2 + (n - (2 * j + 1) - 2)) with n by lia.
        rewrite <- Hst. apply np_dot_eye. rewrite Hst. apply pow2_pos.
      * apply (np_dot_wrong_shape (2 ^ ((n + 1) / 2 + (n - (2 * j + 1) - 2))));
          [apply square_eye|].
        rewrite Hst. intros E'. apply pow2_exponent in E'. lia.
    + apply Forall_forall. intros i Hi.
      apply list_elem_of_In, range_step2_even in Hi. intros ->.
      replace (Z.of_nat (2 * j + 1)) with (1 + Z.of_nat j * 2)%Z in Hi by lia.
      rewrite Z.mod_add in Hi by lia. discriminate.
Qed.

(** X8.  Under the sparse policy, for a 4 x 4 gate on adjacent targets inside
    the register with minimum [m]: for [m = 0] the operator is the dense
    one; for an even [m >= 2] it has [2 ^ (n - m / 2)] rows and the product
    raises the shape error; for an odd [m] the gate is never used and the
    operator is an identity array, so that the product raises the shape
    error, or returns the state unchanged when [(n + 1) / 2 = m + 2]. *)
Theorem sparse_two_qubit_expansion_places_the_gate_only_at_zero
    (gate : Matrix) (a b : Z) (n m : nat) :
  square 4 gate -> Z.abs (a - b) = 1%Z -> Z.min a b = Z.of_nat m -> m + 2 <= n ->
  exists op,
    apply_two_qubit_gate gate a b n true = Ok (Sparse op)
    /\ (m = 0 ->
          apply_two_qubit_gate gate a b n false = Ok (Dense (toarray op)))
    /\ (forall j, m = 2 * j -> 1 <= j ->
          square (2 ^ (n - j)) (toarray op)
          /\ forall st, length st = 2 ^ n ->
               sparse_state_vector_product (Sparse op) st = Raise ShapeMismatch)
    /\ (forall j, m = 2 * j + 1 ->
          toarray op = eye (2 ^ ((n + 1) / 2 + (n - m - 2)))
          /\ forall st, length st = 2 ^ n ->
               sparse_state_vector_product (Sparse op) st
               = if ((n + 1) / 2 =? m + 2)%nat then Ok st else Raise ShapeMismatch).
Proof. apply sparse_two_cases. Qed.

Lemma sparse_two_qubit_expansion_places_the_gate_only_at_zero_witness :
  exists op,
    apply_two_qubit_gate cnot 1 2 5 true = Ok (Sparse op)
    /\ sparse_state_vector_product (Sparse op) (zero_state 5) = Ok (zero_state 5).
Proof.
  destruct (sparse_two_qubit_expansion_places_the_gate_only_at_zero cnot 1 2 5 1
              cnot_square eq_refl eq_refl ltac:(lia)) as (op & Hop & _ & _ & Hodd).
  exists op. split; [exact Hop|].
  destruct (Hodd 0 eq_refl) as [_ H]. apply (H (zero_state 5)). apply basis_length.
Defined.

(** ** Shapes of the single-qubit expansion *)

Lemma fold_single_square (q : Z) (gate : Matrix) (l : list Z) : forall M c,
  square 2 gate -> square c M ->
  square (c * 2 ^ length l)
    (fold_left (fun result i => if (i =? q)%Z then kron result gate else kron result (eye 2))
       l M).
Proof.
  induction l as [|i l IH]; intros M c Hg HM; simpl.
  - rewrite Nat.mul_1_r. exact HM.
  - replace (c * (2 ^ length l + (2 ^ length l + 0))) with (c * 2 * 2 ^ length l) by lia.
    apply IH; [exact Hg|].
    destruct (i =? q)%Z; apply square_kron; auto using square_eye.
Qed.

Lemma single_square gate q n sparse :
  square 2 gate -> 0 < n ->
  square (2 ^ n) (operator_array (apply_single_qubit_gate gate q n sparse)).
Proof.
  intros Hg Hn.
  assert (Hdense : square (2 ^ n) (operator_array (apply_single_qubit_gate gate q n false))).
  { unfold apply_single_qubit_gate. simpl.
    replace (2 ^ n) with (2 * 2 ^ length (range 1 (Z.of_nat n))).
    - apply fold_single_square; [exact Hg|].
      destruct (q =? 0)%Z; [exact Hg|apply square_eye].
    - rewrite range_length. replace (Z.to_nat (Z.of_nat n - 1)) with (n - 1) by lia.
      destruct n; [lia|]. simpl. rewrite Nat.sub_0_r. lia. }
  destruct sparse; [|exact Hdense].
  rewrite apply_single_qubit_gate_sparse_dense. exact Hdense.
Qed.

(** X9.  For a 2 x 2 gate and a register of at least one qubit, the single-qubit
    expansion is a [2 ^ n] x [2 ^ n] array for every target index, the same
    array under both construction policies, and its product with a state of
    length [2 ^ n] is a state of that length.  On an empty register the
    array is 2 x 2 and the product with the one-entry state raises the
    shape error. *)
Theorem single_qubit_expansion_has_the_shape_of_the_register
    (gate : Matrix) (q : Z) (n : nat) (sparse : bool) :
  square 2 gate ->
  operator_array (apply_single_qubit_gate gate q n true)
  = operator_array (apply_single_qubit_gate gate q n false)
  /\ (0 < n ->
      square (2 ^ n) (operator_array (apply_single_qubit_gate gate q n sparse))
      /\ forall st, length st = 2 ^ n ->
           exists st', sparse_state_vector_product
                         (apply_single_qubit_gate gate q n sparse) st = Ok st'
                       /\ length st' = 2 ^ n)
  /\ (n = 0 ->
      forall st, length st = 2 ^ n ->
        sparse_state_vector_product (apply_single_qubit_gate gate q n sparse) st
        = Raise ShapeMismatch).
Proof.
  intros Hg. split; [apply apply_single_qubit_gate_sparse_dense|]. split.
  - intros Hn. pose proof (single_square gate q n sparse Hg Hn) as Hsq.
    split; [exact Hsq|]. intros st Hst.
    exists (matvec (operator_array (apply_single_qubit_gate gate q n sparse)) st).
    split; [|rewrite matvec_length; apply Hsq].
    destruct (apply_single_qubit_gate gate q n sparse) as [m|m]; simpl in *;
      apply (np_dot_square (2 ^ n)); assumption.
  - intros -> st Hst.
    assert (Hsq : square 2 (operator_array (apply_single_qubit_gate gate q 0 sparse))).
    { destruct sparse; [rewrite apply_single_qubit_gate_sparse_dense|];
        unfold apply_single_qubit_gate; simpl;
        destruct (q =? 0)%Z; auto using square_eye. }
    destruct (apply_single_qubit_gate gate q 0 sparse) as [m|m]; simpl in *;
      apply (np_dot_wrong_shape 2); try assumption; rewrite Hst; simpl; lia.
Qed.

Lemma single_qubit_expansion_has_the_shape_of_the_register_witness :
  square 8 (operator_array (apply_single_qubit_gate hadamard 1 3 true)).
Proof.
  destruct (single_qubit_expansion_has_the_shape_of_the_register hadamard 1 3 true
              hadamard_square) as (_ & H & _).
  apply H. lia.
Defined.

(** ** The GHZ circuit under the sparse policy *)

Lemma apply_node_single_ok n sparse g M q st :
  get_gate (gate_name g) (params g) = Ok M -> qubits g = [q] ->
  square 2 M -> 0 < n -> length st = 2 ^ n ->
  exists st', apply_gate_node n sparse g st = Ok st' /\ length st' = 2 ^ n.
Proof.
  intros Hget Hq HM Hn Hst. unfold apply_gate_node. rewrite Hget, Hq. cbn [rbind].
  pose proof (single_square M q n sparse HM Hn) as Hsq.
  exists (matvec (operator_array (apply_single_qubit_gate M q n sparse)) st).
  split; [|rewrite matvec_length; apply Hsq].
  destruct (apply_single_qubit_gate M q n sparse) as [m|m]; simpl in *;
    apply (np_dot_square (2 ^ n)); assumption.
Qed.

Lemma sparse_cnot_01_ok n st :
  2 <= n -> length st = 2 ^ n ->
  exists st',
    apply_gate_node n true (node_of ("CNOT"%string, [0%Z; (0 + 1)%Z], [])) st = Ok st'
    /\ length st' = 2 ^ n.
Proof.
  intros Hn Hst.
  destruct (sparse_two_cases cnot 0 (0 + 1) n 0 cnot_square eq_refl eq_refl ltac:(lia))
    as (op & Hop & Hzero & _).
  destruct (dense_two_square cnot 4 0 (0 + 1) n cnot_square eq_refl) as (dop & Hdop & Hsq).
  rewrite (Hzero eq_refl) in Hdop. inversion Hdop; subst dop. clear Hdop.
  assert (Hsq' : square (2 ^ n) (toarray op)).
  { replace (2 ^ n) with (2 ^ Z.to_nat (Z.min 0 (0 + 1)) * 4
                          * 2 ^ Z.to_nat (Z.of_nat n - (Z.min 0 (0 + 1) + 2))); [exact Hsq|].
    replace (Z.to_nat (Z.min 0 (0 + 1))) with 0 by lia.
    replace (Z.to_nat (Z.of_nat n - (Z.min 0 (0 + 1) + 2))) with (n - 2) by lia.
    replace n with (2 + (n - 2)) at 2 by lia. rewrite Nat.pow_add_r. simpl. lia. }
  unfold apply_gate_node, node_of.
  cbn [gate_name params qubits fst snd get_gate GATE_MAP String.eqb Ascii.eqb Bool.eqb rbind].
  rewrite Hop. cbn [rbind sparse_state_vector_product].
  exists (matvec (toarray op) st). split; [|rewrite matvec_length; apply Hsq'].
  apply (np_dot_square (2 ^ n)); assumption.
Qed.

Lemma sparse_cnot_12_raises n st :
  7 <= n -> length st = 2 ^ n ->
  apply_gate_node n true (node_of ("CNOT"%string, [1%Z; (1 + 1)%Z], [])) st
  = Raise ShapeMismatch.
Proof.
  intros Hn Hst.
  destruct (sparse_two_cases cnot 1 (1 + 1) n 1 cnot_square eq_refl eq_refl ltac:(lia))
    as (op & Hop & _ & _ & Hodd).
  destruct (Hodd 0 eq_refl) as [_ Hprod].
  unfold apply_gate_node, node_of.
  cbn [gate_name params qubits fst snd get_gate GATE_MAP String.eqb Ascii.eqb Bool.eqb rbind].
  rewrite Hop. cbn [rbind]. rewrite (Hprod st Hst).
  destruct (Nat.eqb_spec ((n + 1) / 2) (1 + 2)) as [E|_]; [|reflexivity].
  assert (4 <= (n + 1) / 2) by (apply Nat.div_le_lower_bound; lia). lia.
Qed.

Lemma cnot_chain_first_two k :
  cnot_chain (S (S k))
  = ("CNOT"%string, [0%Z; (0 + 1)%Z], []) :: ("CNOT"%string, [1%Z; (1 + 1)%Z], [])
    :: map (fun i => ("CNOT"%string, [i; (i + 1)%Z], [])) (range 2 (Z.of_nat (S (S k)))).
Proof.
  unfold cnot_chain, range.
  replace (Z.to_nat (Z.of_nat (S (S k)) - 0)) with (S (S k)) by lia.
  replace (Z.to_nat (Z.of_nat (S (S k)) - 2)) with k by lia.
  cbn [seq map]. f_equal. f_equal. rewrite !map_map.
  rewrite <- seq_shift, <- seq_shift, !map_map.
  apply map_ext. intros i.
  replace (0 + Z.of_nat (S (S i)))%Z with (2 + Z.of_nat i)%Z by lia. reflexivity.
Qed.

Lemma ghz_sparse_loop n :
  11 <= n ->
  fst (sv_loop n true (map node_of (ghz_data n)) (zero_state n)) = Raise ShapeMismatch.
Proof.
  intros Hn. unfold ghz_data.
  destruct n as [|[|[|n]]]; try lia.
  replace (S (S (S n)) - 1) with (S (S n)) by lia.
  rewrite cnot_chain_first_two. set (N := S (S (S n))) in *.
  cbn [map sv_loop].
  destruct (apply_node_single_ok N true (node_of ("H"%string, [0%Z], [])) hadamard 0
              (zero_state N) eq_refl eq_refl hadamard_square ltac:(lia) (basis_length _ _))
    as (st1 & H1 & L1).
  rewrite H1.
  destruct (sparse_cnot_01_ok N st1 ltac:(lia) L1) as (st2 & H2 & L2).
  rewrite H2.
  rewrite (sparse_cnot_12_raises N st2 ltac:(lia) L2). reflexivity.
Qed.

(** X10.  [create_ghz_state(n)] for 11 qubits or more builds the session with
    the sparse policy, where the CNOT on the targets (1, 2) is expanded to
    an identity array of the wrong size: the run raises the shape error,
    with or without optimization.  On an empty register the run raises the
    same error at the H gate. *)
Theorem ghz_circuit_raises_on_large_registers
    (store : heap) (n : nat) (optimize_flag : bool) :
  n = 0 \/ 11 <= n ->
  exists w,
    create_ghz_state store n = Ok w
    /\ use_sparse (snd w) = (if (n =? 0)%nat then false else true)
    /\ snd (run optimize_flag (fst w) (snd w)) = Raise ShapeMismatch.
Proof.
  intros Hn. rewrite create_ghz_state_spec. eexists. split; [reflexivity|].
  destruct (run_built store n (10 <? n)%nat (zero_state n) (ghz_data n) optimize_flag)
    as (h' & Hb).
  rewrite Hb, ghz_executed. cbn [snd]. rewrite add_gates_spec. cbn [snd use_sparse].
  destruct Hn as [->|Hn].
  - split; [reflexivity|]. vm_compute. reflexivity.
  - destruct (Nat.ltb_spec 10 n) as [_|]; [|lia].
    destruct (Nat.eqb_spec n 0) as [|_]; [lia|]. split; [reflexivity|].
    pose proof (ghz_sparse_loop n Hn) as Hl.
    destruct (sv_loop n true (map node_of (ghz_data n)) (zero_state n)) as [o st].
    simpl in Hl. subst o. reflexivity.
Qed.

Lemma ghz_circuit_raises_on_large_registers_witness :
  exists w,
    create_ghz_state [] 11 = Ok w
    /\ snd (run true (fst w) (snd w)) = Raise ShapeMismatch.
Proof.
  destruct (ghz_circuit_raises_on_large_registers [] 11 true ltac:(lia))
    as (w & Hw & _ & Hrun).
  exists w. split; assumption.
Defined.

(** ** The Bell circuit *)

Lemma run_result_raise h0 n sparse st0 data optimize_flag e :
  fst (sv_loop n sparse (executed optimize_flag data) (zero_state n)) = Raise e ->
  let w := add_gates (h0, mkCircuit n sparse false st0 []) data in
  snd (run optimize_flag (fst w) (snd w)) = Raise e.
Proof.
  intros Hl w.
  destruct (run_built h0 n sparse st0 data optimize_flag) as (h' & Hrun).
  fold w in Hrun. rewrite Hrun. cbn [snd]. rewrite Hl. reflexivity.
Qed.

(** The gates [create_bell_state] adds. *)
Definition bell_data (qubit1 qubit2 : Z) : list gate_data :=
  [("H"%string, [qubit1], []); ("CNOT"%string, [qubit1; qubit2], [])].

Lemma create_bell_state_spec store q1 q2 :
  create_bell_state store q1 q2
  = Ok (add_gates (store, mkCircuit 2 false false (zero_state 2) []) (bell_data q1 q2)).
Proof.
  unfold create_bell_state, QuantumCircuit_init.
  rewrite create_zero_state, should_use_sparse_default. reflexivity.
Qed.

Lemma bell_executed optimize_flag q1 q2 :
  executed optimize_flag (bell_data q1 q2) = map node_of (bell_data q1 q2).
Proof. destruct optimize_flag; reflexivity. Qed.

Lemma bell_loop_after_h q1 q2 :
  exists st1,
    length st1 = 4
    /\ sv_loop 2 false (map node_of (bell_data q1 q2)) (zero_state 2)
       = match apply_gate_node 2 false (node_of ("CNOT"%string, [q1; q2], [])) st1 with
         | Ok st' => (Ok tt, st')
         | Raise e => (Raise e, st1)
         | OutOfFuel => (OutOfFuel, st1)
         end.
Proof.
  destruct (apply_node_single_ok 2 false (node_of ("H"%string, [q1], [])) hadamard q1
              (zero_state 2) eq_refl eq_refl hadamard_square ltac:(lia) (basis_length _ _))
    as (st1 & H1 & L1).
  exists st1. split; [exact L1|].
  unfold bell_data. cbn [map sv_loop]. rewrite H1.
  destruct (apply_gate_node 2 false _ st1); reflexivity.
Qed.

Lemma bell_10_loop :
  sv_loop 2 false (map node_of (bell_data 1 0)) (zero_state 2)
  = (Ok tt, [inv_sqrt2; inv_sqrt2; C0; C0]).
Proof.
  cbv -[sqrt Rplus Rmult Rinv Ropp Rminus Rdiv IZR]. f_equal.
  repeat (apply (f_equal2 (@cons C)); [apply C_eq; simpl; unfold Rdiv; ring|]).
  reflexivity.
Qed.

(** X11.  [create_bell_state(qubit1, qubit2)] run on its two-qubit register, with
    or without optimization:
    - for the targets (0, 1) it returns the Bell state, [1 / sqrt 2] at the
      indices 0 and 3;
    - for the targets (1, 0) it returns [1 / sqrt 2] at the indices 0 and
      1: H acts on qubit 1 and the CNOT, controlled by qubit 0 whatever the
      order of its targets, changes nothing;
    - for targets that are not adjacent it raises the topology error;
    - for every other adjacent pair it raises the shape error. *)
Theorem bell_circuit_by_targets
    (store : heap) (qubit1 qubit2 : Z) (optimize_flag : bool) :
  exists w,
    create_bell_state store qubit1 qubit2 = Ok w
    /\ (qubit1 = 0%Z /\ qubit2 = 1%Z ->
          snd (run optimize_flag (fst w) (snd w)) = Ok [inv_sqrt2; C0; C0; inv_sqrt2])
    /\ (qubit1 = 1%Z /\ qubit2 = 0%Z ->
          snd (run optimize_flag (fst w) (snd w)) = Ok [inv_sqrt2; inv_sqrt2; C0; C0])
    /\ (Z.abs (qubit1 - qubit2) <> 1%Z ->
          snd (run optimize_flag (fst w) (snd w)) = Raise UnsupportedTopology)
    /\ (Z.abs (qubit1 - qubit2) = 1%Z -> Z.min qubit1 qubit2 <> 0%Z ->
          snd (run optimize_flag (fst w) (snd w)) = Raise ShapeMismatch).
Proof.
  rewrite create_bell_state_spec. eexists. split; [reflexivity|].
  split; [|split; [|split]].
  - intros [-> ->].
    apply (run_result_ok store 2 false (zero_state 2) (bell_data 0 1) optimize_flag).
    rewrite bell_executed. exact (ghz_dense_loop 2 ltac:(lia)).
  - intros [-> ->].
    apply (run_result_ok store 2 false (zero_state 2) (bell_data 1 0) optimize_flag).
    rewrite bell_executed. exact bell_10_loop.
  - intros Hna.
    apply (run_result_raise store 2 false (zero_state 2) (bell_data qubit1 qubit2)).
    rewrite bell_executed.
    destruct (bell_loop_after_h qubit1 qubit2) as (st1 & L1 & ->).
    unfold apply_gate_node, node_of.
    cbn [gate_name params qubits fst snd get_gate GATE_MAP String.eqb Ascii.eqb Bool.eqb rbind].
    rewrite non_adjacent_raises by exact Hna. reflexivity.
  - intros Hadj Hmin.
    apply (run_result_raise store 2 false (zero_state 2) (bell_data qubit1 qubit2)).
    rewrite bell_executed.
    destruct (bell_loop_after_h qubit1 qubit2) as (st1 & L1 & ->).
    destruct (dense_two_square cnot 4 qubit1 qubit2 2 cnot_square Hadj) as (op & Hop & Hsq).
    unfold apply_gate_node, node_of.
    cbn [gate_name params qubits fst snd get_gate GATE_MAP String.eqb Ascii.eqb Bool.eqb rbind].
    rewrite Hop. cbn [rbind sparse_state_vector_product].
    rewrite (np_dot_wrong_shape _ _ _ Hsq); [reflexivity|].
    rewrite L1.
    set (k1 := Z.to_nat (Z.min qubit1 qubit2)).
    set (k2 := Z.to_nat (Z.of_nat 2 - (Z.min qubit1 qubit2 + 2))).
    replace (2 ^ k1 * 4 * 2 ^ k2) with (2 ^ (k1 + 2 + k2))
      by (rewrite !Nat.pow_add_r; simpl; lia).
    change 4 with (2 ^ 2). intros E. apply pow2_exponent in E. lia.
Qed.

Lemma bell_circuit_by_targets_witness :
  exists w,
    create_bell_state [] 0 1 = Ok w
    /\ snd (run true (fst w) (snd w)) = Ok [inv_sqrt2; C0; C0; inv_sqrt2].
Proof.
  destruct (bell_circuit_by_targets [] 0 1 true) as (w & Hw & H01 & _).
  exists w. split; [exact Hw|]. apply H01. split; reflexivity.
Defined.

(** ** What [optimize] returns, for every selection of rules *)

(** The name and the targets of a record. *)
Definition gate_key (g : GateNode) : string * list Z := (gate_name g, qubits g).

Lemma sublist_map {A B} (f : A -> B) (l1 l2 : list A) :
  sublist l1 l2 -> sublist (map f l1) (map f l2).
Proof.
  induction 1; simpl; [constructor|apply sublist_skip|apply sublist_cons]; assumption.
Qed.

Lemma cancel_pass_sublist {A} (view : A -> GateNode) (l : list A) :
  sublist (cancel_pass view l) l.
Proof.
  remember (length l) as k eqn:Hk. revert l Hk.
  induction k as [k IH] using lt_wf_ind. intros l Hk.
  destruct l as [|g1 [|g2 rest]]; try reflexivity.
  rewrite cancel_pass_cons2.
  destruct (is_inverse_of (view g1) (view g2)).
  - apply sublist_cons, sublist_cons. eapply IH; [|reflexivity]. subst k. simpl. lia.
  - apply sublist_skip. eapply IH; [|reflexivity]. subst k. simpl. lia.
Qed.

Lemma scan_run_sublist {A} (view : A -> GateNode) gate (l : list A) total :
  sublist (fst (scan_run view gate l total)) l.
Proof.
  revert total. induction l as [|g l IH]; intros total; simpl; [reflexivity|].
  destruct (same_run gate (view g)); simpl; [|reflexivity].
  apply sublist_cons. apply IH.
Qed.

Lemma merged_gate_key gate total m :
  merged_gate gate total = Some m -> gate_key m = gate_key gate.
Proof.
  unfold merged_gate. destruct (Rgt_dec _ _); [|discriminate].
  intros H. inversion H. reflexivity.
Qed.

Lemma merge_pass_keys {A} (view : A -> GateNode) k : forall (l : list A),
  sublist
    (map (fun e => gate_key match e with inl a => view a | inr g => g end)
       (merge_pass view k l))
    (map (fun a => gate_key (view a)) l).
Proof.
  induction k as [|k IH]; intros l; [apply sublist_nil_l|].
  destruct l as [|g tl]; [reflexivity|]. cbn [merge_pass map].
  destruct (rotation_gates (gate_name (view g)) && (length (qubits (view g)) =? 1)%nat).
  - assert (Hrest : sublist
              (map (fun e => gate_key match e with inl a => view a | inr g => g end)
                 (merge_pass view k
                    (fst (scan_run view (view g) tl (params_get (params (view g)) "theta")))))
              (map (fun a => gate_key (view a)) tl)).
    { etransitivity; [apply IH|]. apply sublist_map, scan_run_sublist. }
    destruct (merged_gate (view g) _) as [m|] eqn:Hm.
    + cbn [map]. rewrite (merged_gate_key _ _ _ Hm). apply sublist_skip. exact Hrest.
    + apply sublist_cons. exact Hrest.
  - cbn [map]. apply sublist_skip. apply IH.
Qed.

Lemma store_frame_key h h' r :
  store_frame h h' -> r < length h -> gate_key (deref h' r) = gate_key (deref h r).
Proof.
  intros [_ Hf] Hr. destruct (lookup_lt_is_Some_2 h r Hr) as [g Hg].
  destruct (Hf r g Hg) as (g' & Hg' & Hn & Hq & _).
  unfold deref, gate_key. rewrite Hg, Hg'. simpl. congruence.
Qed.

Lemma store_frame_keys h h' ids :
  store_frame h h' -> Forall (fun r => r < length h) ids ->
  map gate_key (map (deref h') ids) = map gate_key (map (deref h) ids).
Proof.
  intros Hf Hv. rewrite !map_map. apply map_ext_Forall.
  eapply Forall_impl; [exact Hv|]. intros r Hr. apply store_frame_key; assumption.
Qed.

Lemma apply_rule_spec rule h ids :
  Forall (fun r => r < length h) ids ->
  exists h1 ids1,
    apply_rule rule h ids = Ok (h1, ids1)
    /\ store_frame h h1
    /\ Forall (fun r => r < length h1) ids1
    /\ sublist (map gate_key (map (deref h1) ids1)) (map gate_key (map (deref h) ids)).
Proof.
  intros Hvalid. unfold apply_rule.
  destruct (String.eqb rule "cancel_inverse").
  { rewrite cancel_inverse_gates_pass. simpl. exists h, (cancel_pass (deref h) ids).
    split; [reflexivity|]. split; [apply store_frame_refl|].
    split; [apply cancel_pass_Forall; exact Hvalid|].
    apply sublist_map, sublist_map, cancel_pass_sublist. }
  destruct (String.eqb rule "merge_rotations").
  { rewrite merge_rotation_gates_pass. simpl.
    set (out := merge_pass (deref h) (length ids) ids).
    destruct (alloc_all_spec out h) as (ext & Hh & Hmap & Hv);
      [apply merge_pass_refs; exact Hvalid|].
    exists (fst (alloc_all h out)), (snd (alloc_all h out)).
    split; [destruct (alloc_all h out); reflexivity|].
    split; [rewrite Hh; apply store_frame_app|].
    split; [exact Hv|].
    rewrite Hmap, !map_map. apply (merge_pass_keys (deref h)). }
  destruct (String.eqb rule "commute_gates").
  { destruct (commute_gates_ends h ids Hvalid) as (h' & Hc & Hf & Hl).
    exists h', ids. split; [exact Hc|]. split; [exact Hf|].
    split; [rewrite Hl; exact Hvalid|].
    rewrite (store_frame_keys h h' ids Hf Hvalid). reflexivity. }
  exists h, ids. split; [reflexivity|]. split; [apply store_frame_refl|].
  split; [exact Hvalid|reflexivity].
Qed.

Lemma optimize_spec (rules : option (list string)) (h : heap) (ids : list nat) :
  Forall (fun r => r < length h) ids ->
  exists h' ids',
    optimize h ids rules = Ok (h', ids')
    /\ store_frame h h'
    /\ Forall (fun r => r < length h') ids'
    /\ sublist (map gate_key (map (deref h') ids')) (map gate_key (map (deref h) ids)).
Proof.
  unfold optimize. generalize (default default_rules rules). clear rules.
  intros rules. revert h ids.
  induction rules as [|rule rules IH]; intros h ids Hvalid; simpl.
  - exists h, ids. split; [reflexivity|]. split; [apply store_frame_refl|].
    split; [exact Hvalid|reflexivity].
  - destruct (apply_rule_spec rule h ids Hvalid) as (h1 & ids1 & Hrule & Hf1 & Hv1 & Hs1).
    rewrite Hrule.
    destruct (IH h1 ids1 Hv1) as (h' & ids' & Hopt & Hf & Hv & Hs).
    exists h', ids'. split; [exact Hopt|].
    split; [eapply store_frame_trans; eassumption|]. split; [exact Hv|].
    etransitivity; eassumption.
Qed.

(** X12.  [optimize], for every selection of rules and every list of records in
    the store: the loops end; the records of the input keep their names,
    targets and parameters (only depths are lowered); and the sequence of
    (name, targets) of the list returned is a subsequence of that of the
    input, so the list returned is never longer, never reordered, and
    holds no gate on a name or target list the input does not have. *)
Theorem optimize_returns_a_subsequence
    (rules : option (list string)) (h : heap) (ids : list nat) :
  Forall (fun r => r < length h) ids ->
  exists h' ids',
    optimize h ids rules = Ok (h', ids')
    /\ store_frame h h'
    /\ Forall (fun r => r < length h') ids'
    /\ sublist (map gate_key (map (deref h') ids')) (map gate_key (map (deref h) ids))
    /\ length ids' <= length ids.
Proof.
  intros Hvalid.
  destruct (optimize_spec rules h ids Hvalid) as (h' & ids' & Hopt & Hf & Hv & Hs).
  exists h', ids'. repeat split; try assumption; try apply Hf.
  apply sublist_length in Hs. rewrite !length_map in Hs. exact Hs.
Qed.

Lemma optimize_returns_a_subsequence_witness :
  exists h' ids',
    optimize [mkGateNode "X" [0%Z] [] 0; mkGateNode "X" [0%Z] [] 0; mkGateNode "H" [1%Z] [] 3]
      [0; 1; 2] None = Ok (h', ids')
    /\ length ids' <= 3.
Proof.
  destruct (optimize_returns_a_subsequence None
              [mkGateNode "X" [0%Z] [] 0; mkGateNode "X" [0%Z] [] 0; mkGateNode "H" [1%Z] [] 3]
              [0; 1; 2])
    as (h' & ids' & Hopt & _ & _ & _ & Hlen).
  - repeat constructor.
  - exists h', ids'. split; [exact Hopt|exact Hlen].
Defined.

(** ** Counting gates by name *)

(** [counts.get(key, 0)]. *)
Fixpoint counts_get (counts : list (string * nat)) (key : string) : nat :=
  match counts with
  | [] => 0
  | (k, c) :: rest => if String.eqb k key then c else counts_get rest key
  end.

Lemma counts_get_incr counts key key' :
  counts_get (count_incr counts key) key'
  = counts_get counts key' + (if String.eqb key key' then 1 else 0).
Proof.
  induction counts as [|[k c] rest IH]; simpl.
  - destruct (String.eqb key key'); reflexivity.
  - destruct (String.eqb_spec k key) as [->|Hne]; simpl.
    + destruct (String.eqb key key'); lia.
    + rewrite IH. destruct (String.eqb_spec k key') as [->|Hne'].
      * destruct (String.eqb_spec key key'); [congruence|lia].
      * reflexivity.
Qed.

Lemma count_incr_keys counts key :
  map fst (count_incr counts key)
  = if existsb (String.eqb key) (map fst counts) then map fst counts
    else map fst counts ++ [key].
Proof.
  induction counts as [|[k c] rest IH]; simpl; [reflexivity|].
  rewrite (String.eqb_sym key k).
  destruct (String.eqb k key); simpl; [reflexivity|].
  rewrite IH. destruct (existsb _ _); reflexivity.
Qed.

Lemma existsb_eqb_elem key (l : list string) :
  existsb (String.eqb key) l = true <-> key ∈ l.
Proof.
  rewrite existsb_exists. split.
  - intros (x & Hx & E). apply String.eqb_eq in E. subst. apply list_elem_of_In. exact Hx.
  - intros H. exists key. split; [apply list_elem_of_In; exact H|apply String.eqb_refl].
Qed.

Lemma count_incr_NoDup counts key :
  NoDup (map fst counts) -> NoDup (map fst (count_incr counts key)).
Proof.
  intros H. rewrite count_incr_keys.
  destruct (existsb (String.eqb key) (map fst counts)) eqn:E; [exact H|].
  apply NoDup_app. split; [exact H|]. split; [|apply NoDup_singleton].
  intros x Hx Hx'. apply list_elem_of_singleton in Hx'. subst x.
  apply existsb_eqb_elem in Hx. congruence.
Qed.

Lemma count_incr_total counts key :
  list_sum (map snd (count_incr counts key)) = S (list_sum (map snd counts)).
Proof.
  induction counts as [|[k c] rest IH]; simpl; [reflexivity|].
  destruct (String.eqb k key); simpl; [reflexivity|]. rewrite IH. lia.
Qed.

Section CountFold.
Context {X : Type} (key_of : X -> string).

Definition count_all (l : list X) (init : list (string * nat)) : list (string * nat) :=
  fold_left (fun counts x => count_incr counts (key_of x)) l init.

Lemma count_all_get l : forall init key,
  counts_get (count_all l init) key
  = counts_get init key + length (List.filter (fun x => String.eqb (key_of x) key) l).
Proof.
  induction l as [|x l IH]; intros init key; simpl; [lia|].
  unfold count_all in *. simpl. rewrite IH, counts_get_incr.
  destruct (String.eqb (key_of x) key); simpl; lia.
Qed.

Lemma count_all_NoDup l : forall init,
  NoDup (map fst init) -> NoDup (map fst (count_all l init)).
Proof.
  induction l as [|x l IH]; intros init H; simpl; [exact H|].
  apply IH, count_incr_NoDup, H.
Qed.

Lemma count_all_total l : forall init,
  list_sum (map snd (count_all l init)) = list_sum (map snd init) + length l.
Proof.
  induction l as [|x l IH]; intros init; simpl; [lia|].
  unfold count_all in *. simpl. rewrite IH, count_incr_total. lia.
Qed.

Lemma count_all_keys l : forall init key,
  key ∈ map fst (count_all l init) <-> key ∈ map fst init \/ key ∈ map key_of l.
Proof.
  induction l as [|x l IH]; intros init key; simpl.
  - split; [auto|]. intros [H|H]; [exact H|]. inversion H.
  - unfold count_all in *. simpl. rewrite IH, count_incr_keys.
    destruct (existsb (String.eqb (key_of x)) (map fst init)) eqn:E.
    + apply existsb_eqb_elem in E. rewrite elem_of_cons.
      split; [tauto|]. intros [H|[->|H]]; auto.
    + rewrite elem_of_app, list_elem_of_singleton, elem_of_cons. tauto.
Qed.

End CountFold.

(** X13.  [estimate_gate_count] returns a dictionary whose keys are the names
    that occur in the list, each once; the entry for a name is the number
    of gates with that name (and [counts.get(name, 0)] is that number for
    every name); the entries add up to the length of the list. *)
Theorem estimate_gate_count_counts_each_name (gates : list GateNode) :
  NoDup (map fst (estimate_gate_count gates))
  /\ (forall name, name ∈ map fst (estimate_gate_count gates) <-> name ∈ map gate_name gates)
  /\ (forall name,
        counts_get (estimate_gate_count gates) name
        = length (List.filter (fun g => String.eqb (gate_name g) name) gates))
  /\ list_sum (map snd (estimate_gate_count gates)) = length gates.
Proof.
  change (estimate_gate_count gates) with (count_all gate_name gates []).
  split; [apply count_all_NoDup; constructor|].
  split; [|split].
  - intros name. rewrite count_all_keys. simpl. split; [|auto].
    intros [H|H]; [inversion H|exact H].
  - intros name. rewrite count_all_get. reflexivity.
  - rewrite count_all_total. reflexivity.
Qed.

(** ** Outcome keys and the table of counts *)

(** The number a string of binary digits denotes, as [int(s, 2)] reads it. *)
Fixpoint bin_value_from (s : string) (acc : nat) : nat :=
  match s with
  | EmptyString => acc
  | String c s' => bin_value_from s' (2 * acc + (if Ascii.eqb c "1" then 1 else 0))
  end.

Definition bin_value (s : string) : nat := bin_value_from s 0.

Lemma bin_value_from_app s1 s2 acc :
  bin_value_from (s1 ++ s2)%string acc = bin_value_from s2 (bin_value_from s1 acc).
Proof. revert acc. induction s1 as [|c s1 IH]; intros acc; simpl; [reflexivity|apply IH]. Qed.

Lemma string_app_assoc (s1 s2 s3 : string) :
  ((s1 ++ s2) ++ s3 = s1 ++ (s2 ++ s3))%string.
Proof. induction s1 as [|c s1 IH]; simpl; [reflexivity|]. rewrite IH. reflexivity. Qed.

Lemma pos_bin_app p : forall acc, pos_bin p acc = (pos_bin p EmptyString ++ acc)%string.
Proof.
  induction p as [p IH|p IH|]; intros acc; simpl.
  - rewrite (IH (String "1" acc)), (IH (String "1" EmptyString)), string_app_assoc.
    reflexivity.
  - rewrite (IH (String "0" acc)), (IH (String "0" EmptyString)), string_app_assoc.
    reflexivity.
  - reflexivity.
Qed.

Lemma pos_bin_value p : forall acc,
  bin_value_from (pos_bin p EmptyString) acc
  = 2 ^ String.length (pos_bin p EmptyString) * acc + Pos.to_nat p.
Proof.
  induction p as [p IH|p IH|]; intros acc; simpl pos_bin.
  - rewrite pos_bin_app, bin_value_from_app, string_length_app, IH. simpl.
    rewrite Nat.pow_add_r, Pos2Nat.inj_xI. simpl. lia.
  - rewrite pos_bin_app, bin_value_from_app, string_length_app, IH. simpl.
    rewrite Nat.pow_add_r, Pos2Nat.inj_xO. simpl. lia.
  - simpl. lia.
Qed.

Lemma pos_bin_length p : forall w,
  Pos.to_nat p < 2 ^ w -> String.length (pos_bin p EmptyString) <= w.
Proof.
  induction p as [p IH|p IH|]; intros w Hw; simpl pos_bin.
  - rewrite pos_bin_app, string_length_app. simpl.
    destruct w as [|w]; [simpl in Hw; lia|].
    rewrite Pos2Nat.inj_xI in Hw. simpl in Hw.
    specialize (IH w ltac:(lia)). lia.
  - rewrite pos_bin_app, string_length_app. simpl.
    destruct w as [|w]; [simpl in Hw; pose proof (Pos2Nat.is_pos p~0); lia|].
    rewrite Pos2Nat.inj_xO in Hw. simpl in Hw.
    specialize (IH w ltac:(lia)). lia.
  - destruct w; simpl in *; lia.
Qed.

Lemma bin_value_zeros k s :
  bin_value_from (zeros k ++ s)%string 0 = bin_value_from s 0.
Proof. induction k as [|k IH]; simpl; [reflexivity|exact IH]. Qed.

Lemma format_0b_value w k : bin_value (format_0b w k) = k.
Proof.
  unfold bin_value, format_0b. rewrite bin_value_zeros.
  destruct (N.of_nat k) as [|p] eqn:E.
  - simpl. lia.
  - rewrite pos_bin_value.
    assert (Pos.to_nat p = k) by (rewrite <- (Nat2N.id k), E; reflexivity). lia.
Qed.

Lemma format_0b_length w k :
  w <= String.length (format_0b w k)
  /\ (k < 2 ^ w -> 0 < w -> String.length (format_0b w k) = w).
Proof.
  unfold format_0b. rewrite string_length_app, zeros_length.
  split; [lia|]. intros Hk Hw.
  destruct (N.of_nat k) as [|p] eqn:E.
  - simpl. lia.
  - assert (Hp : Pos.to_nat p = k) by (rewrite <- (Nat2N.id k), E; reflexivity).
    pose proof (pos_bin_length p w ltac:(lia)). lia.
Qed.

Lemma filter_eqb_count (l : list nat) k :
  length (List.filter (fun x => Nat.eqb x k) l) = count_occ Nat.eq_dec l k.
Proof.
  induction l as [|x l IH]; simpl; [reflexivity|].
  destruct (Nat.eq_dec x k) as [E|E]; destruct (Nat.eqb_spec x k) as [E'|E'];
    simpl; try lia; congruence.
Qed.

(** X15.  [measure_counts], for the outcomes drawn: the keys of the table are the
    numerals of the outcomes that occur, each once; the count under the
    numeral of an outcome is the number of times that outcome was drawn;
    the counts add up to the number of shots; for a state of [2 ^ m]
    amplitudes and outcomes below [2 ^ m], every key has [m] digits. *)
Theorem measure_counts_tallies_the_outcomes (st : vector) (outcomes : list nat) :
  let n := Nat.log2 (length st) in
  NoDup (map fst (measure_counts st outcomes))
  /\ list_sum (map snd (measure_counts st outcomes)) = length outcomes
  /\ (forall k, counts_get (measure_counts st outcomes) (format_0b n k)
                = count_occ Nat.eq_dec outcomes k)
  /\ (forall key, key ∈ map fst (measure_counts st outcomes)
                  <-> exists k, k ∈ outcomes /\ key = format_0b n k)
  /\ (forall m, 0 < m -> length st = 2 ^ m -> Forall (fun k => k < 2 ^ m) outcomes ->
        Forall (fun key => String.length key = m) (map fst (measure_counts st outcomes))).
Proof.
  intros n.
  change (measure_counts st outcomes) with (count_all (format_0b n) outcomes []).
  split; [apply count_all_NoDup; constructor|].
  split; [rewrite count_all_total; reflexivity|].
  assert (Hkeys : forall key, key ∈ map fst (count_all (format_0b n) outcomes [])
                  <-> exists k, k ∈ outcomes /\ key = format_0b n k).
  { intros key. rewrite count_all_keys. simpl. rewrite list_elem_of_fmap. split.
    - intros [H|(k & -> & Hk)]; [inversion H|]. exists k. split; [exact Hk|reflexivity].
    - intros (k & Hk & ->). right. exists k. split; [reflexivity|exact Hk]. }
  split; [|split; [exact Hkeys|]].
  - intros k. rewrite count_all_get. simpl. rewrite <- filter_eqb_count.
    f_equal. apply filter_ext. intros x.
    destruct (String.eqb_spec (format_0b n x) (format_0b n k)) as [E|E];
      destruct (Nat.eqb_spec x k) as [E'|E']; try reflexivity.
    + exfalso. apply E'.
      rewrite <- (format_0b_value n x), E. apply format_0b_value.
    + subst x. congruence.
  - intros m Hm Hlen Hout. apply Forall_forall. intros key Hkey.
    apply Hkeys in Hkey. destruct Hkey as (k & Hk & ->).
    subst n. rewrite Hlen, Nat.log2_pow2 by lia.
    apply format_0b_length; [|exact Hm].
    apply (proj1 (Forall_forall _ _) Hout). exact Hk.
Qed.

(** ** Probabilities, collapse and partial measurement *)

Section Measurement.
Local Open Scope R_scope.

Lemma Rsum_nonneg (l : list R) : Forall (fun p => 0 <= p) l -> 0 <= Rsum l.
Proof. induction 1 as [|p l Hp _ IH]; simpl; lra. Qed.

(** X16.  After a run on the state-vector backend, completed or stopped by an
    exception, [get_probabilities] of the session is a probability
    distribution: one entry per amplitude, none negative, adding up
    to 1. *)
Theorem probabilities_after_a_run_add_up_to_one
    (h0 : heap) (n : nat) (sparse : bool) (st0 : vector) (data : list gate_data)
    (optimize_flag : bool) :
  let w := add_gates (h0, mkCircuit n sparse false st0 []) data in
  let session := snd (fst (run optimize_flag (fst w) (snd w))) in
  length (Circuit.get_probabilities session) = length (Circuit.get_statevector session)
  /\ Forall (fun p => 0 <= p) (Circuit.get_probabilities session)
  /\ Rsum (Circuit.get_probabilities session) = 1.
Proof.
  intros w session.
  unfold Circuit.get_probabilities, Circuit.get_statevector, get_probabilities.
  split; [apply length_map|]. split.
  - apply Forall_map, Forall_forall. intros a _. apply Cmod2_nonneg.
  - rewrite <- normsq_Rsum. subst session.
    destruct (run_built h0 n sparse st0 data optimize_flag) as (h' & Hrun).
    fold w in Hrun. rewrite Hrun. unfold set_state. cbn [fst snd state].
    rewrite sv_loop_norm. apply normsq_zero_state.
Qed.

(** X17.  [collapse_state] returns the basis vector of the outcome, of the length
    of the state and of norm 1, whatever the amplitudes are (also when the
    amplitude of the outcome is zero); for a register of [n] qubits it is
    [create_multi_qubit_state(n, outcome)]; an outcome beyond the state
    raises [IndexError]. *)
Theorem collapse_state_is_the_basis_state_of_the_outcome (st : vector) (outcome : nat) :
  ((outcome < length st)%nat ->
     collapse_state st outcome = Ok (basis (length st) outcome)
     /\ normsq (basis (length st) outcome) = 1
     /\ forall st', length st' = length st ->
          collapse_state st' outcome = collapse_state st outcome)
  /\ ((length st <= outcome)%nat -> collapse_state st outcome = Raise IndexError)
  /\ (forall n, length st = (2 ^ n)%nat ->
        collapse_state st outcome = create_multi_qubit_state n outcome).
Proof.
  unfold collapse_state, create_multi_qubit_state. split; [|split].
  - intros Hk. pose proof (proj2 (Nat.ltb_lt _ _) Hk) as Hk'. rewrite Hk'.
    split; [reflexivity|]. split; [apply normsq_basis; exact Hk|].
    intros st' Hl. rewrite Hl, Hk'. reflexivity.
  - intros Hk. destruct (Nat.ltb_spec outcome (length st)) as [|_]; [lia|reflexivity].
  - intros n ->. reflexivity.
Qed.

Lemma collapse_state_is_the_basis_state_of_the_outcome_witness :
  collapse_state [C0; C1; C0; C0] 2 = Ok (basis 4 2).
Proof.
  destruct (collapse_state_is_the_basis_state_of_the_outcome [C0; C1; C0; C0] 2)
    as [H _].
  destruct H as [H _]; [simpl; lia|exact H].
Defined.










End Measurement.

(** ** Single qubits *)

Section QubitFacts.
Local Open Scope R_scope.





















(** X20.  The Bloch coordinates are the expectation values of the Pauli
    matrices: for every pair of amplitudes, [expectation_value] of the
    state with X, Y and Z is the x, y and z that [get_bloch_vector]
    returns, with imaginary part zero. *)
Theorem bloch_vector_is_the_pauli_expectation (alpha beta : C) :
  let q := Qubit.mk (alpha, beta) in
  let x := fst (fst (Qubit.get_bloch_vector q)) in
  let y := snd (fst (Qubit.get_bloch_vector q)) in
  let z := snd (Qubit.get_bloch_vector q) in
  expectation_value [alpha; beta] pauli_x = Ok (RtoC x)
  /\ expectation_value [alpha; beta] pauli_y = Ok (RtoC y)
  /\ expectation_value [alpha; beta] pauli_z = Ok (RtoC z).
Proof.
  destruct alpha as [a1 a2], beta as [b1 b2].
  unfold expectation_value, np_dot, Qubit.get_bloch_vector. cbn.
  split; [|split]; apply f_equal; apply C_eq; unfold Cmod2, Cconj; simpl; ring.
Qed.

End QubitFacts.

(** ** The matrix product state of the all-zero state *)

Lemma reshape_ones (d : vector) :
  reshape (replicate (length d) 1) d = map (fun x => [x]) d.
Proof.
  induction d as [|x d IH]; simpl; [reflexivity|].
  rewrite take_0, drop_0, IH. reflexivity.
Qed.

Lemma rows_of_1 (d : vector) : rows_of 1 d = map (fun x => [x]) d.
Proof.
  unfold rows_of. change (Nat.max 1 1) with 1. rewrite Nat.div_1_r. apply reshape_ones.
Qed.

(** Contracting a bond of dimension 1 with a tensor that holds the amplitudes
    (1, 0): every entry [x] becomes the pair [x, 0]. *)
Lemma tensordot_zero_site (shp : list nat) (d : vector) (b_rest : list nat) :
  size_of b_rest = 2 ->
  tensordot_last_first (mkArray (shp ++ [1]) d) (mkArray (1 :: b_rest) [C1; C0])
  = Ok (mkArray (shp ++ b_rest) (kron_row d [C1; C0])).
Proof.
  intros Hq. unfold tensordot_last_first. cbn [shape entries].
  rewrite last_snoc. cbn [Nat.eqb negb]. cbv iota.
  rewrite removelast_last, Hq, rows_of_1. f_equal. f_equal.
  unfold kron_row. rewrite !flat_map_concat_map, map_map. f_equal.
  apply map_ext. intros x. simpl.
  repeat (apply (f_equal2 (@cons C)); [apply C_eq; simpl; ring|]). reflexivity.
Qed.

Lemma kron_row_zero_site k :
  kron_row (basis (2 ^ k) 0) [C1; C0] = basis (2 ^ S k) 0.
Proof.
  change [C1; C0] with (basis 2 0).
  rewrite kron_row_basis by (try apply pow2_pos; lia).
  f_equal. simpl. lia.
Qed.

Lemma mps_init_lookup n b i :
  i < n ->
  tensors (MPS_init n b) !! i
  = Some (if (i =? 0)%nat then mkArray [2; 1] [C1; C0]
          else if (i =? n - 1)%nat then mkArray [1; 2] [C1; C0]
          else mkArray [1; 2; 1] [C1; C0]).
Proof.
  intros Hi. unfold MPS_init. cbn [tensors].
  rewrite list_lookup_fmap, lookup_seq_lt by exact Hi. reflexivity.
Qed.

(** The contraction of the first [j] middle tensors after the first one. *)
Lemma mps_contract_middle n b j : forall i res,
  0 < i -> i + j < n - 1 + 1 -> i + j <= n - 1 ->
  res = mkArray (replicate i 2 ++ [1]) (basis (2 ^ i) 0) ->
  fold_left
    (fun acc i =>
       try res <- acc in
       match tensors (MPS_init n b) !! i with
       | Some t => tensordot_last_first res t
       | None => Raise IndexError
       end)
    (seq i j) (Ok res)
  = Ok (mkArray (replicate (i + j) 2 ++ [1]) (basis (2 ^ (i + j)) 0)).
Proof.
  induction j as [|j IH]; intros i res Hi Hlt Hle ->; cbn [seq fold_left rbind].
  - rewrite Nat.add_0_r. reflexivity.
  - rewrite mps_init_lookup by lia.
    destruct (Nat.eqb_spec i 0) as [|_]; [lia|].
    destruct (Nat.eqb_spec i (n - 1)) as [|_]; [lia|].
    rewrite (tensordot_zero_site (replicate i 2) _ [2; 1]) by reflexivity.
    rewrite kron_row_zero_site.
    replace (replicate i 2 ++ [2; 1]) with (replicate (S i) 2 ++ [1])
      by (rewrite replicate_S_end, <- app_assoc; reflexivity).
    rewrite (IH (S i) _ ltac:(lia) ltac:(lia) ltac:(lia) eq_refl).
    replace (S i + j) with (i + S j) by lia. reflexivity.
Qed.

Lemma mps_zero_state n b : 0 < n -> to_state_vector (MPS_init n b) = Ok (zero_state n).
Proof.
  intros Hn. unfold to_state_vector.
  assert (Hfirst : exists rest, tensors (MPS_init n b) = mkArray [2; 1] [C1; C0] :: rest).
  { destruct n as [|n]; [lia|]. eexists. reflexivity. }
  destruct Hfirst as (rest & Hfirst). rewrite Hfirst at 1.
  change (mps_n_qubits (MPS_init n b)) with n.
  destruct (Nat.eq_dec n 1) as [->|Hne]; [reflexivity|].
  replace (n - 1) with (n - 2 + 1) by lia. rewrite seq_app, fold_left_app.
  change (mkArray [2; 1] [C1; C0])
    with (mkArray (replicate 1 2 ++ [1]) (basis (2 ^ 1) 0)).
  rewrite (mps_contract_middle n b (n - 2) 1 _ ltac:(lia) ltac:(lia) ltac:(lia) eq_refl).
  cbn [seq fold_left rbind].
  rewrite mps_init_lookup by lia.
  destruct (Nat.eqb_spec (1 + (n - 2)) 0) as [|_]; [lia|].
  destruct (Nat.eqb_spec (1 + (n - 2)) (n - 1)) as [_|]; [|lia].
  rewrite (tensordot_zero_site (replicate (1 + (n - 2)) 2) _ [2]) by reflexivity.
  cbn [rbind entries]. rewrite kron_row_zero_site. unfold zero_state.
  replace (S (1 + (n - 2))) with n by lia. reflexivity.
Qed.

(** X21.  [MPS(n).to_state_vector()] is the all-zero state of [n] qubits, for
    every [n >= 1] and every bond bound; for [n = 0] there is no tensor and
    the [IndexError] of [self.tensors[0]] is raised. *)
Theorem mps_of_a_new_chain_is_the_zero_state (n max_bond : nat) :
  (0 < n -> to_state_vector (MPS_init n max_bond) = Ok (zero_state n))
  /\ (n = 0 -> to_state_vector (MPS_init n max_bond) = Raise IndexError).
Proof.
  split; [apply mps_zero_state|]. intros ->. reflexivity.
Qed.

Lemma mps_of_a_new_chain_is_the_zero_state_witness :
  to_state_vector (MPS_init 3 100) = Ok (zero_state 3).
Proof.
  apply (proj1 (mps_of_a_new_chain_is_the_zero_state 3 100)). lia.
Defined.

(** X22.  [tensor_network_simulator(n, gates, use_mps=True)] never returns a
    vector: on an empty register it raises the [IndexError] of the chain,
    and otherwise, after contracting the chain, it reads the local variable
    [state_tensor] that only the other branch assigns, with or without
    gates. *)
Theorem tensor_network_simulator_with_mps_never_returns
    (n : nat) (gates : list (Matrix * list Z)) :
  tensor_network_simulator_use_mps n gates true
  = if (n =? 0)%nat then Completed (Raise IndexError) else UnboundLocalError.
Proof.
  unfold tensor_network_simulator_use_mps.
  destruct (Nat.eqb_spec n 0) as [->|Hn]; [reflexivity|].
  rewrite mps_zero_state by lia. destruct gates; reflexivity.
Qed.

(** ** The interchange format *)

(** An entry of the format as [add_gate] receives it. *)
Definition gate_of_json (g : Circuit.gate_json) : gate_data :=
  (Circuit.json_gate g, Circuit.json_qubits g, default [] (Circuit.json_params g)).

(** An entry with the key ['params'] always present. *)
Definition with_params (g : Circuit.gate_json) : Circuit.gate_json :=
  {| Circuit.json_gate := Circuit.json_gate g;
     Circuit.json_qubits := Circuit.json_qubits g;
     Circuit.json_params := Some (default [] (Circuit.json_params g)) |}.

(** The parameters of an entry, as the call receives them. *)
Definition entry_params (g : Circuit.gate_json) : params_t :=
  default [] (Circuit.json_params g).

Lemma from_json_loop_raise (gate_list : list Circuit.gate_json) e :
  fold_left
    (fun acc gate_data =>
       try w <- acc in
       let ps := default [] (Circuit.json_params gate_data) in
       if Circuit.kwargs_clash ps then Raise TypeError
       else Ok (add_gate w (Circuit.json_gate gate_data)
                  (Circuit.json_qubits gate_data) ps))
    gate_list (Raise e) = Raise e.
Proof. induction gate_list as [|g l IH]; simpl; [reflexivity|exact IH]. Qed.

Lemma from_json_loop (gate_list : list Circuit.gate_json) : forall w,
  fold_left
    (fun acc gate_data =>
       try w <- acc in
       let ps := default [] (Circuit.json_params gate_data) in
       if Circuit.kwargs_clash ps then Raise TypeError
       else Ok (add_gate w (Circuit.json_gate gate_data)
                  (Circuit.json_qubits gate_data) ps))
    gate_list (Ok w)
  = if forallb (fun g => negb (Circuit.kwargs_clash (entry_params g))) gate_list
    then Ok (add_gates w (map gate_of_json gate_list))
    else Raise TypeError.
Proof.
  induction gate_list as [|g l IH]; intros w; simpl; [reflexivity|].
  unfold entry_params at 1.
  destruct (Circuit.kwargs_clash (default [] (Circuit.json_params g))); simpl.
  - apply from_json_loop_raise.
  - rewrite IH. reflexivity.
Qed.

Lemma from_json_spec store data :
  Circuit.from_json store data
  = if forallb (fun g => negb (Circuit.kwargs_clash (entry_params g)))
         (Circuit.json_gates data)
    then Ok (add_gates
               (store, mkCircuit (Circuit.json_n_qubits data)
                         (10 <? Circuit.json_n_qubits data)%nat
                         false (zero_state (Circuit.json_n_qubits data)) [])
               (map gate_of_json (Circuit.json_gates data)))
    else Raise TypeError.
Proof.
  unfold Circuit.from_json, QuantumCircuit_init.
  rewrite create_zero_state, should_use_sparse_default. cbn [rbind].
  apply from_json_loop.
Qed.

Lemma no_clash_spec (gate_list : list Circuit.gate_json) :
  forallb (fun g => negb (Circuit.kwargs_clash (entry_params g))) gate_list = true
  <-> Forall (fun g => Circuit.kwargs_clash (entry_params g) = false) gate_list.
Proof.
  induction gate_list as [|g l IH]; simpl.
  - split; [constructor|reflexivity].
  - rewrite andb_true_iff, IH, Forall_cons, negb_true_iff. reflexivity.
Qed.

Lemma some_clash_spec (gate_list : list Circuit.gate_json) :
  forallb (fun g => negb (Circuit.kwargs_clash (entry_params g))) gate_list = false
  <-> Exists (fun g => Circuit.kwargs_clash (entry_params g) = true) gate_list.
Proof.
  induction gate_list as [|g l IH]; simpl.
  - split; [discriminate|]. intros H. inversion H.
  - rewrite andb_false_iff, IH, Exists_cons, negb_false_iff. reflexivity.
Qed.

Lemma to_json_built h0 n sparse tn st0 data :
  let w := add_gates (h0, mkCircuit n sparse tn st0 []) data in
  Circuit.to_json (fst w) (snd w)
  = {| Circuit.json_n_qubits := n;
       Circuit.json_gates :=
         map (fun d => {| Circuit.json_gate := fst (fst d);
                          Circuit.json_qubits := snd (fst d);
                          Circuit.json_params := Some (snd d) |}) data |}.
Proof.
  intros w. pose proof (built_program h0 n sparse tn st0 data) as Hp.
  cbv zeta in Hp. fold w in Hp. unfold Circuit.to_json.
  assert (Hn : n_qubits (snd w) = n) by (subst w; rewrite add_gates_spec; reflexivity).
  rewrite Hn. f_equal.
  rewrite <- (map_map (deref (fst w))
                (fun g => {| Circuit.json_gate := gate_name g;
                             Circuit.json_qubits := qubits g;
                             Circuit.json_params := Some (params g) |})).
  rewrite Hp, map_map. reflexivity.
Qed.

(** X23.  For a document with the keys ['n_qubits'], ['gates'] and, in
    every entry, ['gate'] and ['qubits']: when no entry has a parameter
    named [self], [gate_name] or [qubits], [from_json] followed by
    [to_json] gives the document back, with an empty ['params'] where the
    key was absent; when some entry has one, [from_json] raises
    [TypeError].  For a session whose gates have no such parameter (as
    [add_gate] receives them), [to_json] followed by [from_json] gives a
    session with the same number of qubits and the same gates (names,
    targets, parameters), built with the automatic policy (sparse from 11
    qubits on), without the tensor-network backend and in the all-zero
    state, whatever the exported session had. *)
Theorem json_round_trip :
  (forall store data,
     (Forall (fun g => Circuit.kwargs_clash (entry_params g) = false)
        (Circuit.json_gates data) ->
      exists w,
        Circuit.from_json store data = Ok w
        /\ Circuit.to_json (fst w) (snd w)
           = {| Circuit.json_n_qubits := Circuit.json_n_qubits data;
                Circuit.json_gates := map with_params (Circuit.json_gates data) |})
     /\ (Exists (fun g => Circuit.kwargs_clash (entry_params g) = true)
          (Circuit.json_gates data) ->
        Circuit.from_json store data = Raise TypeError))
  /\ (forall h0 n sparse tn st0 gate_list store,
        Forall (fun d => Circuit.kwargs_clash (snd d) = false) gate_list ->
        let w := add_gates (h0, mkCircuit n sparse tn st0 []) gate_list in
        exists w',
          Circuit.from_json store (Circuit.to_json (fst w) (snd w)) = Ok w'
          /\ n_qubits (snd w') = n
          /\ map (deref (fst w')) (gates (snd w')) = map (deref (fst w)) (gates (snd w))
          /\ use_sparse (snd w') = (10 <? n)%nat
          /\ use_tensor_network (snd w') = false
          /\ state (snd w') = zero_state n).
Proof.
  split.
  - intros store data. rewrite from_json_spec. split.
    + intros Hok. apply no_clash_spec in Hok. rewrite Hok.
      eexists. split; [reflexivity|].
      rewrite to_json_built. f_equal. rewrite map_map. reflexivity.
    + intros Hbad. apply some_clash_spec in Hbad. rewrite Hbad. reflexivity.
  - intros h0 n sparse tn st0 gate_list store Hok w.
    rewrite from_json_spec.
    subst w. rewrite to_json_built. cbn [Circuit.json_n_qubits Circuit.json_gates].
    assert (Hall : forallb (fun g => negb (Circuit.kwargs_clash (entry_params g)))
                     (map (fun d : gate_data =>
                             {| Circuit.json_gate := fst (fst d);
                                Circuit.json_qubits := snd (fst d);
                                Circuit.json_params := Some (snd d) |}) gate_list) = true).
    { apply no_clash_spec, Forall_map. exact Hok. }
    rewrite Hall. eexists. split; [reflexivity|].
    rewrite !built_program. rewrite add_gates_spec. cbn [snd n_qubits use_sparse
      use_tensor_network state].
    repeat split. rewrite !map_map. apply map_ext. intros [[name qs] ps].
    reflexivity.
Qed.

Lemma json_round_trip_witness :
  (exists w,
     Circuit.from_json []
       {| Circuit.json_n_qubits := 1;
          Circuit.json_gates :=
            [{| Circuit.json_gate := "RX"; Circuit.json_qubits := [0%Z];
                Circuit.json_params := Some [("theta"%string, 1%R)] |};
             {| Circuit.json_gate := "X"; Circuit.json_qubits := [0%Z];
                Circuit.json_params := None |}] |} = Ok w
     /\ Circuit.to_json (fst w) (snd w)
        = {| Circuit.json_n_qubits := 1;
             Circuit.json_gates :=
               [{| Circuit.json_gate := "RX"; Circuit.json_qubits := [0%Z];
                   Circuit.json_params := Some [("theta"%string, 1%R)] |};
                {| Circuit.json_gate := "X"; Circuit.json_qubits := [0%Z];
                   Circuit.json_params := Some [] |}] |})
  /\ Circuit.from_json []
       {| Circuit.json_n_qubits := 1;
          Circuit.json_gates :=
            [{| Circuit.json_gate := "RX"; Circuit.json_qubits := [0%Z];
                Circuit.json_params := Some [("qubits"%string, 1%R)] |}] |}
     = Raise TypeError.
Proof.
  split.
  - apply (proj1 (proj1 json_round_trip []
             {| Circuit.json_n_qubits := 1;
                Circuit.json_gates :=
                  [{| Circuit.json_gate := "RX"; Circuit.json_qubits := [0%Z];
                      Circuit.json_params := Some [("theta"%string, 1%R)] |};
                   {| Circuit.json_gate := "X"; Circuit.json_qubits := [0%Z];
                      Circuit.json_params := None |}] |})).
    repeat constructor.
  - apply (proj2 (proj1 json_round_trip []
             {| Circuit.json_n_qubits := 1;
                Circuit.json_gates :=
                  [{| Circuit.json_gate := "RX"; Circuit.json_qubits := [0%Z];
                      Circuit.json_params := Some [("qubits"%string, 1%R)] |}] |})).
    apply Exists_cons_hd. reflexivity.
Defined.

(** ** The depth of a circuit *)

Lemma dict_get_set d k v k' :
  dict_get (dict_set d k v) k' = if (k =? k')%Z then Some v else dict_get d k'.
Proof.
  induction d as [|[k0 v0] rest IH]; simpl; [reflexivity|].
  destruct (Z.eqb_spec k0 k) as [->|Hne]; simpl.
  - destruct (k =? k')%Z; reflexivity.
  - rewrite IH. destruct (Z.eqb_spec k0 k') as [->|Hne'].
    + destruct (Z.eqb_spec k k'); [congruence|reflexivity].
    + reflexivity.
Qed.

Lemma dict_set_all_get (qs : list Z) v : forall d k',
  dict_get (fold_left (fun d q => dict_set d q v) qs d) k'
  = if existsb (Z.eqb k') qs then Some v else dict_get d k'.
Proof.
  induction qs as [|q qs IH]; intros d k'; simpl; [reflexivity|].
  rewrite IH, dict_get_set. rewrite (Z.eqb_sym k' q).
  destruct (q =? k')%Z; simpl; destruct (existsb (Z.eqb k') qs); reflexivity.
Qed.

Lemma dict_set_keys d k v :
  map fst (dict_set d k v)
  = if existsb (Z.eqb k) (map fst d) then map fst d else map fst d ++ [k].
Proof.
  induction d as [|[k0 v0] rest IH]; simpl; [reflexivity|].
  rewrite (Z.eqb_sym k k0).
  destruct (k0 =? k)%Z; simpl; [reflexivity|].
  rewrite IH. destruct (existsb _ _); reflexivity.
Qed.

Lemma existsb_Zeqb_elem k (l : list Z) : existsb (Z.eqb k) l = true <-> k ∈ l.
Proof.
  rewrite existsb_exists. split.
  - intros (x & Hx & E). apply Z.eqb_eq in E. subst. apply list_elem_of_In. exact Hx.
  - intros H. exists k. split; [apply list_elem_of_In; exact H|apply Z.eqb_refl].
Qed.

Lemma dict_set_NoDup d k v : NoDup (map fst d) -> NoDup (map fst (dict_set d k v)).
Proof.
  intros H. rewrite dict_set_keys.
  destruct (existsb (Z.eqb k) (map fst d)) eqn:E; [exact H|].
  apply NoDup_app. split; [exact H|]. split; [|apply NoDup_singleton].
  intros x Hx Hx'. apply list_elem_of_singleton in Hx'. subst x.
  apply existsb_Zeqb_elem in Hx. congruence.
Qed.

Lemma dict_set_values (P : nat -> Prop) d k v :
  Forall P (map snd d) -> P v -> Forall P (map snd (dict_set d k v)).
Proof.
  intros Hd Hv. induction d as [|[k0 v0] rest IH]; simpl.
  - constructor; [exact Hv|constructor].
  - inversion Hd as [|? ? H0 Hrest]; subst.
    destruct (k0 =? k)%Z; simpl; constructor; auto.
Qed.

Lemma dict_get_value d k v : dict_get d k = Some v -> v ∈ map snd d.
Proof.
  induction d as [|[k0 v0] rest IH]; simpl; [discriminate|].
  destruct (k0 =? k)%Z.
  - intros H. inversion H. apply list_elem_of_here.
  - intros H. apply list_elem_of_further, IH, H.
Qed.

Lemma dict_entry_get d k v :
  NoDup (map fst d) -> (k, v) ∈ d -> dict_get d k = Some v.
Proof.
  induction d as [|[k0 v0] rest IH]; intros Hnd Hin; [inversion Hin|].
  simpl in Hnd. apply NoDup_cons in Hnd. destruct Hnd as [Hk0 Hnd].
  apply elem_of_cons in Hin. simpl. destruct Hin as [E|Hin].
  - inversion E; subst. rewrite Z.eqb_refl. reflexivity.
  - destruct (Z.eqb_spec k0 k) as [->|_].
    + exfalso. apply Hk0. apply list_elem_of_fmap. exists (k, v). split; [reflexivity|exact Hin].
    + apply IH; assumption.
Qed.

(** The step of the outer loop, as a function of the targets. *)
Definition targets_step (d : list (Z * nat)) (qs : list Z) : list (Z * nat) :=
  let new_depth := gate_max_depth d qs + 1 in
  fold_left (fun acc qubit => dict_set acc qubit new_depth) qs d.

Lemma depth_step_targets d g : depth_step d g = targets_step d (qubits g).
Proof. reflexivity. Qed.

Lemma fold_depth_step_targets gates : forall d,
  fold_left depth_step gates d = fold_left targets_step (map qubits gates) d.
Proof. induction gates as [|g l IH]; intros d; simpl; [reflexivity|apply IH]. Qed.

(** The depth as a function of the sequence of target lists. *)
Definition depth_of_targets (ts : list (list Z)) : option nat :=
  match ts with
  | [] => Some 0
  | _ :: _ => py_max (map snd (fold_left targets_step ts []))
  end.

Lemma calculate_circuit_depth_targets gates :
  calculate_circuit_depth gates = depth_of_targets (map qubits gates).
Proof.
  destruct gates as [|g l]; [reflexivity|].
  unfold calculate_circuit_depth. rewrite fold_depth_step_targets. reflexivity.
Qed.

Lemma targets_step_get d qs q :
  dict_get (targets_step d qs) q
  = if existsb (Z.eqb q) qs then Some (gate_max_depth d qs + 1) else dict_get d q.
Proof. unfold targets_step. apply dict_set_all_get. Qed.

Lemma targets_step_NoDup d qs : NoDup (map fst d) -> NoDup (map fst (targets_step d qs)).
Proof.
  unfold targets_step. generalize (gate_max_depth d qs + 1). intros v.
  revert d. induction qs as [|q qs IH]; intros d H; simpl; [exact H|].
  apply IH, dict_set_NoDup, H.
Qed.

Lemma targets_step_values (P : nat -> Prop) d qs :
  Forall P (map snd d) -> P (gate_max_depth d qs + 1) ->
  Forall P (map snd (targets_step d qs)).
Proof.
  unfold targets_step. generalize (gate_max_depth d qs + 1). intros v.
  revert d. induction qs as [|q qs IH]; intros d Hd Hv; simpl; [exact Hd|].
  apply IH; [apply dict_set_values; assumption|exact Hv].
Qed.

Lemma gate_max_depth_le d qs m :
  Forall (fun v => v <= m) (map snd d) -> gate_max_depth d qs <= m.
Proof.
  intros Hd. unfold gate_max_depth.
  assert (H : forall a, a <= m ->
            fold_left (fun max_depth qubit =>
                         match dict_get d qubit with
                         | Some x => Nat.max max_depth x
                         | None => max_depth
                         end) qs a <= m).
  { induction qs as [|q qs IH]; intros a Ha; simpl; [exact Ha|].
    apply IH. destruct (dict_get d q) as [x|] eqn:E; [|exact Ha].
    apply dict_get_value in E.
    pose proof (proj1 (Forall_forall _ _) Hd x E). simpl in *. lia. }
  apply H. lia.
Qed.

Lemma gate_max_depth_ge d qs q v :
  q ∈ qs -> dict_get d q = Some v -> v <= gate_max_depth d qs.
Proof.
  intros Hq Hv. unfold gate_max_depth.
  assert (Hmono : forall l a,
            a <= fold_left (fun max_depth qubit =>
                              match dict_get d qubit with
                              | Some x => Nat.max max_depth x
                              | None => max_depth
                              end) l a).
  { induction l as [|x l IH]; intros a; simpl; [lia|].
    etransitivity; [|apply IH]. destruct (dict_get d x); lia. }
  generalize 0. induction qs as [|x qs IH]; intros a; [inversion Hq|].
  simpl. apply elem_of_cons in Hq. destruct Hq as [->|Hq].
  - rewrite Hv. etransitivity; [|apply Hmono]. lia.
  - apply IH. exact Hq.
Qed.

Lemma targets_step_nonempty d qs : d <> [] \/ qs <> [] -> targets_step d qs <> [].
Proof.
  unfold targets_step. generalize (gate_max_depth d qs + 1). intros v H.
  assert (Hset : forall d0 k, dict_set d0 k v <> []).
  { intros [|[k0 v0] r] k; simpl; [discriminate|]. destruct (k0 =? k)%Z; discriminate. }
  assert (Hfold : forall l d0, d0 <> [] ->
            fold_left (fun acc qubit => dict_set acc qubit v) l d0 <> []).
  { induction l as [|q l IH]; intros d0 Hd0; simpl; [exact Hd0|]. apply IH, Hset. }
  destruct qs as [|q qs].
  - destruct H as [H|H]; [exact H|congruence].
  - simpl. apply Hfold, Hset.
Qed.

Lemma py_max_bounds (l : list nat) a b :
  l <> [] -> Forall (fun v => a <= v <= b) l ->
  exists m, py_max l = Some m /\ a <= m <= b /\ m ∈ l /\ Forall (fun v => v <= m) l.
Proof.
  intros Hne Hl. destruct l as [|v rest]; [congruence|]. simpl.
  eexists. split; [reflexivity|].
  inversion Hl as [|? ? Hv Hrest]; subst. clear Hne Hl.
  revert v Hv. induction rest as [|x rest IH]; intros v Hv; simpl.
  - split; [exact Hv|]. split; [apply list_elem_of_here|]. constructor; [lia|constructor].
  - inversion Hrest as [|? ? Hx Hrest']; subst.
    destruct (IH Hrest' (Nat.max v x) ltac:(lia)) as (Hb & Hin & Hall).
    split; [exact Hb|]. split.
    + apply elem_of_cons in Hin. destruct Hin as [E|Hin].
      * rewrite E. destruct (Nat.max_spec v x) as [[_ ->]|[_ ->]].
        -- apply list_elem_of_further, list_elem_of_here.
        -- apply list_elem_of_here.
      * apply list_elem_of_further, list_elem_of_further, Hin.
    + inversion Hall as [|? ? Hm Hall']; subst.
      constructor; [lia|]. constructor; [lia|exact Hall'].
Qed.

Lemma fold_targets_values ts : forall d k0,
  Forall (fun v => 1 <= v <= k0) (map snd d) ->
  Forall (fun v => 1 <= v <= k0 + length ts) (map snd (fold_left targets_step ts d)).
Proof.
  induction ts as [|qs ts IH]; intros d k0 Hd; simpl.
  - rewrite Nat.add_0_r. exact Hd.
  - replace (k0 + S (length ts)) with (S k0 + length ts) by lia.
    apply IH. apply targets_step_values.
    + eapply Forall_impl; [exact Hd|]. simpl. intros; lia.
    + assert (gate_max_depth d qs <= k0); [|lia].
      apply gate_max_depth_le. eapply Forall_impl; [exact Hd|]. simpl. intros; lia.
Qed.

Lemma fold_targets_nonempty ts : forall d,
  d <> [] \/ Exists (fun qs => qs <> []) ts -> fold_left targets_step ts d <> [].
Proof.
  induction ts as [|qs ts IH]; intros d H; simpl.
  - destruct H as [H|H]; [exact H|inversion H].
  - apply IH. destruct H as [H|H].
    + left. apply targets_step_nonempty. left. exact H.
    + inversion H as [? ? Hqs|? ? Hts]; subst.
      * left. apply targets_step_nonempty. right. exact Hqs.
      * right. exact Hts.
Qed.

Lemma fold_targets_empty ts :
  Forall (fun qs => qs = []) ts -> fold_left targets_step ts [] = [].
Proof. induction 1 as [|qs ts -> _ IH]; simpl; [reflexivity|exact IH]. Qed.

(** X24.  [calculate_circuit_depth]: 0 for the empty list; for a list in which
    some gate has a target, a number between 1 and the number of gates;
    and the [ValueError] of [max] on an empty sequence for a non-empty list
    of gates that all have an empty target list. *)
Theorem circuit_depth_is_between_one_and_the_gate_count (gates : list GateNode) :
  calculate_circuit_depth [] = Some 0
  /\ (Exists (fun g => qubits g <> []) gates ->
        exists d, calculate_circuit_depth gates = Some d /\ 1 <= d <= length gates)
  /\ (gates <> [] -> Forall (fun g => qubits g = []) gates ->
        calculate_circuit_depth gates = None).
Proof.
  split; [reflexivity|]. rewrite calculate_circuit_depth_targets. split.
  - intros Hex.
    assert (Hex' : Exists (fun qs => qs <> []) (map qubits gates)).
    { apply Exists_exists in Hex. destruct Hex as (g & Hg & Hq).
      apply Exists_exists. exists (qubits g). split; [|exact Hq].
      apply list_elem_of_fmap. exists g. split; [reflexivity|exact Hg]. }
    pose proof (fold_targets_nonempty (map qubits gates) [] (or_intror Hex')) as Hne.
    pose proof (fold_targets_values (map qubits gates) [] 0 ltac:(constructor)) as Hv.
    destruct (py_max_bounds _ 1 (0 + length (map qubits gates))
                (fun E => Hne (fmap_nil_inv _ _ E)) Hv) as (m & Hm & Hb & _).
    exists m. rewrite length_map in Hb. split; [|lia].
    destruct gates as [|g l]; [inversion Hex|]. exact Hm.
  - intros Hne Hall. destruct gates as [|g l]; [congruence|].
    unfold depth_of_targets. cbn [map]. rewrite <- (map_cons qubits g l).
    rewrite fold_targets_empty; [reflexivity|].
    apply Forall_map. exact Hall.
Qed.

Lemma circuit_depth_is_between_one_and_the_gate_count_witness :
  exists d,
    calculate_circuit_depth
      [mkGateNode "H" [0%Z] [] 0; mkGateNode "CNOT" [0%Z; 1%Z] [] 0;
       mkGateNode "X" [2%Z] [] 0] = Some d
    /\ 1 <= d <= 3.
Proof.
  apply (proj1 (proj2 (circuit_depth_is_between_one_and_the_gate_count
           [mkGateNode "H" [0%Z] [] 0; mkGateNode "CNOT" [0%Z; 1%Z] [] 0;
            mkGateNode "X" [2%Z] [] 0]))).
  apply Exists_cons_hd. discriminate.
Defined.

(** [qubit_depths.get(qubit, 0)]. *)
Definition dval (d : list (Z * nat)) (q : Z) : nat :=
  match dict_get d q with Some v => v | None => 0 end.

Definition dle (d1 d2 : list (Z * nat)) : Prop := forall q, dval d1 q <= dval d2 q.

Lemma gate_max_depth_dval d qs :
  gate_max_depth d qs = fold_left (fun m q => Nat.max m (dval d q)) qs 0.
Proof.
  unfold gate_max_depth. generalize 0.
  induction qs as [|q qs IH]; intros a; simpl; [reflexivity|].
  rewrite IH. unfold dval. destruct (dict_get d q); [reflexivity|].
  rewrite Nat.max_0_r. reflexivity.
Qed.

Lemma gate_max_depth_mono d1 d2 qs :
  dle d1 d2 -> gate_max_depth d1 qs <= gate_max_depth d2 qs.
Proof.
  intros Hle. rewrite !gate_max_depth_dval.
  assert (H : forall a b, a <= b ->
            fold_left (fun m q => Nat.max m (dval d1 q)) qs a
            <= fold_left (fun m q => Nat.max m (dval d2 q)) qs b).
  { induction qs as [|q qs IH]; intros a b Hab; simpl; [exact Hab|].
    apply IH. specialize (Hle q). lia. }
  apply H. lia.
Qed.

Lemma dval_targets_step d qs q :
  dval (targets_step d qs) q
  = if existsb (Z.eqb q) qs then gate_max_depth d qs + 1 else dval d q.
Proof.
  unfold dval. rewrite targets_step_get.
  destruct (existsb (Z.eqb q) qs); reflexivity.
Qed.

Lemma dval_le_gate_max_depth d qs q :
  existsb (Z.eqb q) qs = true -> dval d q <= gate_max_depth d qs.
Proof.
  intros H. apply existsb_Zeqb_elem in H. unfold dval.
  destruct (dict_get d q) as [v|] eqn:E; [|lia].
  eapply gate_max_depth_ge; eassumption.
Qed.

Lemma targets_step_both d1 d2 qs :
  dle d1 d2 -> dle (targets_step d1 qs) (targets_step d2 qs).
Proof.
  intros Hle q. rewrite !dval_targets_step.
  destruct (existsb (Z.eqb q) qs); [|apply Hle].
  pose proof (gate_max_depth_mono d1 d2 qs Hle). lia.
Qed.

Lemma targets_step_right d1 d2 qs :
  dle d1 d2 -> dle d1 (targets_step d2 qs).
Proof.
  intros Hle q. rewrite dval_targets_step.
  destruct (existsb (Z.eqb q) qs) eqn:E; [|apply Hle].
  pose proof (dval_le_gate_max_depth d2 qs q E). specialize (Hle q). lia.
Qed.

Lemma fold_targets_sublist (t1 t2 : list (list Z)) :
  sublist t1 t2 -> forall d1 d2, dle d1 d2 ->
  dle (fold_left targets_step t1 d1) (fold_left targets_step t2 d2).
Proof.
  induction 1 as [|qs t1 t2 _ IH|qs t1 t2 _ IH]; intros d1 d2 Hle; simpl.
  - exact Hle.
  - apply IH, targets_step_both, Hle.
  - apply IH, targets_step_right, Hle.
Qed.

Lemma fold_targets_NoDup ts : forall d,
  NoDup (map fst d) -> NoDup (map fst (fold_left targets_step ts d)).
Proof.
  induction ts as [|qs ts IH]; intros d H; simpl; [exact H|].
  apply IH, targets_step_NoDup, H.
Qed.

Lemma le_list_sum (l : list nat) : Forall (fun v => 0 <= v <= list_sum l) l.
Proof.
  induction l as [|x l IH]; simpl; constructor; [lia|].
  eapply Forall_impl; [exact IH|]. simpl. intros; lia.
Qed.

Lemma py_max_spec (l : list nat) m :
  py_max l = Some m -> m ∈ l /\ Forall (fun v => v <= m) l.
Proof.
  intros H. destruct l as [|v rest]; [discriminate|].
  destruct (py_max_bounds (v :: rest) 0 (list_sum (v :: rest)) ltac:(discriminate)
              (le_list_sum _)) as (m' & Hm & _ & Hin & Hall).
  rewrite H in Hm. inversion Hm; subst. split; assumption.
Qed.

Lemma py_max_dle d1 d2 m1 m2 :
  NoDup (map fst d1) -> dle d1 d2 ->
  py_max (map snd d1) = Some m1 -> py_max (map snd d2) = Some m2 -> m1 <= m2.
Proof.
  intros Hnd Hle H1 H2.
  apply py_max_spec in H1. destruct H1 as [Hin _].
  apply py_max_spec in H2. destruct H2 as [_ Hall].
  apply list_elem_of_fmap in Hin. destruct Hin as ([k v] & E & Hin). simpl in E. subst v.
  pose proof (dict_entry_get d1 k m1 Hnd Hin) as Hget.
  specialize (Hle k). unfold dval in Hle. rewrite Hget in Hle.
  destruct (dict_get d2 k) as [v|] eqn:E2; [|lia].
  apply dict_get_value in E2.
  rewrite Forall_forall in Hall. specialize (Hall v E2). lia.
Qed.

Lemma depth_of_targets_sublist t1 t2 m1 m2 :
  sublist t1 t2 ->
  depth_of_targets t1 = Some m1 -> depth_of_targets t2 = Some m2 -> m1 <= m2.
Proof.
  intros Hs H1 H2. destruct t1 as [|a t1].
  { inversion H1. lia. }
  destruct t2 as [|b t2].
  { apply sublist_nil_r in Hs. discriminate. }
  unfold depth_of_targets in H1, H2.
  eapply py_max_dle; [| |exact H1|exact H2].
  - apply fold_targets_NoDup. constructor.
  - apply fold_targets_sublist; [exact Hs|]. intros q. reflexivity.
Qed.

Lemma depth_of_targets_some ts :
  Forall (fun qs => qs <> []) ts -> exists m, depth_of_targets ts = Some m.
Proof.
  intros Hall. destruct ts as [|qs ts]; [exists 0; reflexivity|].
  unfold depth_of_targets.
  assert (Hne : fold_left targets_step (qs :: ts) [] <> []).
  { apply fold_targets_nonempty. right. apply Exists_cons_hd.
    inversion Hall; assumption. }
  destruct (py_max_bounds (map snd (fold_left targets_step (qs :: ts) [])) 0 _
              (fun E => Hne (fmap_nil_inv _ _ E)) (le_list_sum _))
    as (m & Hm & _).
  exists m. exact Hm.
Qed.

(** X25.  [optimize] followed by [calculate_circuit_depth]: on a list of gates
    that each have at least one target, both depths are computed and the
    depth of the optimized list is at most the depth of the input, for
    every selection of rules. *)
Theorem optimization_never_increases_circuit_depth
    (rules : option (list string)) (h : heap) (ids : list nat) :
  Forall (fun r => r < length h) ids ->
  Forall (fun r => qubits (deref h r) <> []) ids ->
  exists h' ids' d d',
    optimize h ids rules = Ok (h', ids')
    /\ calculate_circuit_depth (map (deref h) ids) = Some d
    /\ calculate_circuit_depth (map (deref h') ids') = Some d'
    /\ d' <= d.
Proof.
  intros Hvalid Hq.
  destruct (optimize_spec rules h ids Hvalid) as (h' & ids' & Hopt & _ & _ & Hs).
  apply (sublist_map snd) in Hs. rewrite !map_map in Hs.
  change (fun x => snd (gate_key (deref h' x))) with (fun x => qubits (deref h' x)) in Hs.
  change (fun x => snd (gate_key (deref h x))) with (fun x => qubits (deref h x)) in Hs.
  assert (Hall : Forall (fun qs => qs <> []) (map (fun x => qubits (deref h x)) ids)).
  { apply Forall_map. exact Hq. }
  assert (Hall' : Forall (fun qs => qs <> []) (map (fun x => qubits (deref h' x)) ids')).
  { rewrite Forall_forall. intros qs Hin.
    rewrite Forall_forall in Hall. apply Hall.
    eapply elem_of_sublist; eassumption. }
  destruct (depth_of_targets_some _ Hall) as (d & Hd).
  destruct (depth_of_targets_some _ Hall') as (d' & Hd').
  exists h', ids', d, d'. split; [exact Hopt|].
  rewrite !calculate_circuit_depth_targets, !map_map.
  split; [exact Hd|]. split; [exact Hd'|].
  eapply depth_of_targets_sublist; eassumption.
Qed.

Lemma optimization_never_increases_circuit_depth_witness :
  exists h' ids' d d',
    optimize [mkGateNode "X" [0%Z] [] 0; mkGateNode "X" [0%Z] [] 0; mkGateNode "H" [1%Z] [] 3]
      [0; 1; 2] None = Ok (h', ids')
    /\ calculate_circuit_depth
         (map (deref [mkGateNode "X" [0%Z] [] 0; mkGateNode "X" [0%Z] [] 0;
                      mkGateNode "H" [1%Z] [] 3]) [0; 1; 2]) = Some d
    /\ calculate_circuit_depth (map (deref h') ids') = Some d'
    /\ d' <= d.
Proof.
  apply (optimization_never_increases_circuit_depth None
           [mkGateNode "X" [0%Z] [] 0; mkGateNode "X" [0%Z] [] 0; mkGateNode "H" [1%Z] [] 3]
           [0; 1; 2]).
  - repeat constructor.
  - repeat constructor; discriminate.
Defined.

(** ** Sparsity ([sparse_utils.py]) *)

Section Sparsity.
Local Open Scope R_scope.

Lemma wf_matrix_size c (M : Matrix) :
  wf_matrix c M -> length (concat M) = (nrows M * c)%nat.
Proof.
  unfold nrows. induction 1 as [|r M Hr _ IH]; simpl; [reflexivity|].
  rewrite length_app, IH, Hr. reflexivity.
Qed.

Lemma is_zero_C0 : is_zero C0 = true.
Proof.
  unfold is_zero, C0, RtoC. simpl.
  destruct (Req_dec_T 0 0) as [_|H]; [reflexivity|contradiction].
Qed.

Lemma is_zero_Cabs z : is_zero z = true -> Cabs z = 0.
Proof.
  unfold is_zero, Cabs, Cmod2.
  destruct (Req_dec_T (fst z) 0) as [-> |]; [|discriminate].
  destruct (Req_dec_T (snd z) 0) as [-> |]; [|discriminate].
  intros _. replace (0 * 0 + 0 * 0) with 0 by ring. apply sqrt_0.
Qed.

Lemma Cabs_nonneg z : 0 <= Cabs z.
Proof. apply sqrt_pos. Qed.

Lemma nnz_after_threshold (threshold : R) (l : list C) :
  0 < threshold ->
  (length (List.filter (fun z => negb (is_zero z))
             (map (fun z => if Rlt_dec (Cabs z) threshold then C0 else z) l))
   + length (List.filter (fun z => if Rlt_dec (Cabs z) threshold then true else false) l)
   = length l)%nat.
Proof.
  intros Ht. induction l as [|z l IH]; simpl; [reflexivity|].
  destruct (Rlt_dec (Cabs z) threshold) as [Hlt|Hge].
  - rewrite is_zero_C0. simpl. lia.
  - destruct (is_zero z) eqn:E.
    + apply is_zero_Cabs in E. lra.
    + simpl. lia.
Qed.

(** X26.  [estimate_sparsity] of the array and of its conversion by [to_sparse]:
    for an array with entries and a positive threshold, the two branches
    give the same ratio, the share of the entries of modulus below the
    threshold, between 0 and 1; for a threshold that is not positive the
    ratio of the array is 0, also when it holds zeros. *)
Theorem sparsity_of_the_conversion_is_that_of_the_array
    (M : Matrix) (c : nat) (threshold threshold' : R) :
  wf_matrix c M -> M <> [] -> (0 < c)%nat ->
  (0 < threshold ->
     exists s,
       estimate_sparsity (Dense M) threshold = Some s
       /\ estimate_sparsity (Sparse (to_sparse M threshold)) threshold' = Some s
       /\ 0 <= s <= 1)
  /\ (threshold <= 0 -> estimate_sparsity (Dense M) threshold = Some 0).
Proof.
  intros Hwf Hne Hc.
  assert (Hsize : length (concat M) = (nrows M * c)%nat) by (apply wf_matrix_size, Hwf).
  assert (Hrows : (0 < nrows M)%nat).
  { destruct M; [congruence|]. unfold nrows. simpl. lia. }
  assert (Hcols : ncols M = c).
  { destruct M as [|r M]; [congruence|]. inversion Hwf; subst. reflexivity. }
  assert (Htotal : (0 < length (concat M))%nat) by (rewrite Hsize; nia).
  split.
  - intros Ht.
    set (zeros := length (List.filter
                    (fun z => if Rlt_dec (Cabs z) threshold then true else false)
                    (concat M))).
    assert (Hz : (zeros <= length (concat M))%nat) by apply filter_length_le.
    exists (INR zeros / INR (length (concat M))).
    assert (HT : 0 < INR (length (concat M))) by (apply lt_0_INR; exact Htotal).
    split; [|split].
    + unfold estimate_sparsity. fold zeros.
      destruct (Nat.eqb_spec (length (concat M)) 0) as [E|_]; [lia|reflexivity].
    + unfold estimate_sparsity, to_sparse, nnz. cbn [toarray].
      assert (Hr : nrows (map (map (fun z => if Rlt_dec (Cabs z) threshold then C0 else z)) M)
                   = nrows M) by apply length_map.
      assert (Hcl : ncols (map (map (fun z => if Rlt_dec (Cabs z) threshold then C0 else z)) M)
                    = ncols M).
      { destruct M as [|r M']; [reflexivity|]. unfold ncols. simpl. apply length_map. }
      rewrite Hr, Hcl, Hcols, <- Hsize.
      destruct (Nat.eqb_spec (length (concat M)) 0) as [E|_]; [lia|].
      f_equal. rewrite <- concat_map.
      pose proof (nnz_after_threshold threshold (concat M) Ht) as Hcount.
      fold zeros in Hcount.
      set (nz := length (List.filter (fun z => negb (is_zero z))
                   (map (fun z => if Rlt_dec (Cabs z) threshold then C0 else z) (concat M))))
        in *.
      rewrite <- Hcount at 1 2. rewrite plus_INR.
      rewrite <- Hcount in HT. rewrite plus_INR in HT.
      field. lra.
    + split.
      * apply Rmult_le_pos; [apply pos_INR|]. left. apply Rinv_0_lt_compat. exact HT.
      * apply Rmult_le_reg_r with (INR (length (concat M))); [exact HT|].
        unfold Rdiv. rewrite Rmult_assoc, Rinv_l, Rmult_1_r, Rmult_1_l by lra.
        apply le_INR. exact Hz.
  - intros Ht. unfold estimate_sparsity.
    destruct (Nat.eqb_spec (length (concat M)) 0) as [E|_]; [lia|].
    assert (Hnone : List.filter (fun z => if Rlt_dec (Cabs z) threshold then true else false)
                      (concat M) = []).
    { clear -Ht. induction (concat M) as [|z l IH]; simpl; [reflexivity|].
      destruct (Rlt_dec (Cabs z) threshold) as [Hlt|_]; [|exact IH].
      pose proof (Cabs_nonneg z). lra. }
    rewrite Hnone. simpl. f_equal. unfold Rdiv. ring.
Qed.

Lemma sparsity_of_the_conversion_is_that_of_the_array_witness :
  exists s,
    estimate_sparsity (Dense pauli_x) (1 / 10) = Some s
    /\ estimate_sparsity (Sparse (to_sparse pauli_x (1 / 10))) 0 = Some s
    /\ 0 <= s <= 1.
Proof.
  apply (proj1 (sparsity_of_the_conversion_is_that_of_the_array pauli_x 2 (1 / 10) 0
                  ltac:(repeat constructor) ltac:(discriminate) ltac:(lia))).
  lra.
Defined.

End Sparsity.

(** * The tensor-contraction backend *)

(** ** Multi-indices *)

Lemma all_bits_S k :
  all_bits (S k) = map (cons 0) (all_bits k) ++ map (cons 1) (all_bits k).
Proof. simpl. rewrite app_nil_r. reflexivity. Qed.

Lemma all_bits_elem_length k : Forall (fun x => length x = k) (all_bits k).
Proof.
  induction k as [|k IH]; [repeat constructor|].
  rewrite all_bits_S. apply Forall_app. split; apply Forall_map;
    (eapply Forall_impl; [exact IH|]); simpl; intros x ->; reflexivity.
Qed.

Lemma all_bits_length k : length (all_bits k) = 2 ^ k.
Proof.
  induction k as [|k IH]; [reflexivity|].
  rewrite all_bits_S, length_app, !length_map, IH. simpl. lia.
Qed.

Lemma flat_index_acc (x : list nat) : forall acc,
  fold_left (fun acc b => 2 * acc + b) x acc
  = acc * 2 ^ length x + fold_left (fun acc b => 2 * acc + b) x 0.
Proof.
  induction x as [|b x IH]; intros acc; cbn [fold_left length]; [simpl; lia|].
  rewrite (IH (2 * acc + b)), (IH (2 * 0 + b)), Nat.pow_succ_r'. lia.
Qed.

Lemma flat_index_cons b x : flat_index (b :: x) = b * 2 ^ length x + flat_index x.
Proof. unfold flat_index. cbn [fold_left]. rewrite flat_index_acc. lia. Qed.

Lemma flat_index_app x y :
  flat_index (x ++ y) = flat_index x * 2 ^ length y + flat_index y.
Proof.
  induction x as [|b x IH]; [reflexivity|].
  rewrite <- app_comm_cons, !flat_index_cons, IH, length_app, Nat.pow_add_r. lia.
Qed.

Lemma flat_all_bits k : map flat_index (all_bits k) = seq 0 (2 ^ k).
Proof.
  induction k as [|k IH]; [reflexivity|].
  rewrite all_bits_S, map_app, !map_map.
  replace (2 ^ S k) with (2 ^ k + 2 ^ k) by (simpl; lia).
  rewrite seq_app. f_equal.
  - rewrite <- IH. apply map_ext_Forall.
    eapply Forall_impl; [apply all_bits_elem_length|]. simpl.
    intros x Hx. rewrite flat_index_cons. lia.
  - replace (seq (0 + 2 ^ k) (2 ^ k)) with (seq (2 ^ k + 0) (2 ^ k)) by (f_equal; lia).
    rewrite <- (map_add_seq (2 ^ k) 0), <- IH, !map_map.
    apply map_ext_Forall.
    eapply Forall_impl; [apply all_bits_elem_length|]. simpl.
    intros x Hx. rewrite flat_index_cons, Hx. lia.
Qed.

Lemma flat_index_lt k : Forall (fun x => flat_index x < 2 ^ k) (all_bits k).
Proof.
  apply Forall_forall. intros x Hx.
  assert (H : flat_index x ∈ map flat_index (all_bits k)).
  { apply list_elem_of_fmap. exists x. split; [reflexivity|exact Hx]. }
  rewrite flat_all_bits in H. apply elem_of_seq in H. lia.
Qed.

Lemma map_nth_seq {X} (d : X) (l : list X) :
  map (fun i => nth i l d) (seq 0 (length l)) = l.
Proof.
  induction l as [|a l IH]; [reflexivity|].
  simpl. f_equal. rewrite <- seq_shift, map_map. exact IH.
Qed.

(** A vector of [2 ^ k] entries, listed by multi-index. *)
Lemma map_nth_bits (k : nat) (v : vector) :
  length v = 2 ^ k -> map (fun x => nth (flat_index x) v C0) (all_bits k) = v.
Proof.
  intros Hv.
  rewrite <- (map_map flat_index (fun i => nth i v C0)), flat_all_bits, <- Hv.
  apply map_nth_seq.
Qed.

(** ** Replacing the bits at the targets *)

(** The multi-index [x] with the bit at position [qs[i]] replaced by
    [sb[i]], for every [i]. *)
Definition subst_bits (x : list nat) (qs sb : list nat) : list nat :=
  fold_left (fun acc qb => <[fst qb := snd qb]> acc) (combine qs sb) x.

(** The bits of [x] at the positions [qs]. *)
Definition pick_bits (x : list nat) (qs : list nat) : list nat :=
  map (fun q => nth q x 0) qs.

Definition zero_on (qs : list nat) (x : list nat) : bool :=
  forallb (fun q => nth q x 0 =? 0) qs.

Lemma nth_insert_eq (x : list nat) q b : q < length x -> nth q (<[q := b]> x) 0 = b.
Proof.
  intros H. rewrite nth_lookup, list_lookup_insert_eq by exact H. reflexivity.
Qed.

Lemma nth_insert_ne (x : list nat) p q b : p <> q -> nth p (<[q := b]> x) 0 = nth p x 0.
Proof.
  intros H. rewrite !nth_lookup, list_lookup_insert_ne by congruence. reflexivity.
Qed.

Lemma subst_bits_length qs : forall x sb, length (subst_bits x qs sb) = length x.
Proof.
  induction qs as [|q qs IH]; intros x [|b sb]; try reflexivity.
  unfold subst_bits in *. simpl. rewrite IH, length_insert. reflexivity.
Qed.

Lemma subst_insert_commute qs : forall y ob q s,
  q ∉ qs -> <[q := s]> (subst_bits y qs ob) = subst_bits (<[q := s]> y) qs ob.
Proof.
  induction qs as [|q' qs IH]; intros y [|o ob] q s Hq; try reflexivity.
  apply not_elem_of_cons in Hq. destruct Hq as [Hne Hq].
  unfold subst_bits in *. simpl. rewrite IH by exact Hq.
  f_equal. apply list_insert_insert_ne. congruence.
Qed.

Lemma subst_nth_other qs : forall x sb p,
  p ∉ qs -> nth p (subst_bits x qs sb) 0 = nth p x 0.
Proof.
  induction qs as [|q qs IH]; intros x [|b sb] p Hp; try reflexivity.
  apply not_elem_of_cons in Hp. destruct Hp as [Hne Hp].
  unfold subst_bits in *. simpl. rewrite IH by exact Hp.
  apply nth_insert_ne. exact Hne.
Qed.

Lemma pick_subst qs : forall x sb,
  NoDup qs -> Forall (fun q => q < length x) qs -> length sb = length qs ->
  pick_bits (subst_bits x qs sb) qs = sb.
Proof.
  induction qs as [|q qs IH]; intros x [|b sb] Hnd Hlt Hlen; try discriminate;
    [reflexivity|].
  apply NoDup_cons in Hnd. destruct Hnd as [Hq Hnd].
  inversion Hlt as [|? ? Hq0 Hlt']; subst.
  unfold pick_bits in *. cbn [map]. f_equal.
  - change (subst_bits x (q :: qs) (b :: sb)) with (subst_bits (<[q := b]> x) qs sb).
    rewrite subst_nth_other by exact Hq. apply nth_insert_eq. exact Hq0.
  - change (subst_bits x (q :: qs) (b :: sb)) with (subst_bits (<[q := b]> x) qs sb).
    apply IH; [exact Hnd| |simpl in Hlen; lia].
    eapply Forall_impl; [exact Hlt'|]. simpl. intros a Ha. rewrite length_insert. exact Ha.
Qed.

Lemma subst_subst qs : forall x ob sb,
  NoDup qs -> length ob = length qs -> length sb = length qs ->
  subst_bits (subst_bits x qs ob) qs sb = subst_bits x qs sb.
Proof.
  induction qs as [|q qs IH]; intros x [|o ob] [|s sb] Hnd Ho Hs; try discriminate;
    [reflexivity|].
  apply NoDup_cons in Hnd. destruct Hnd as [Hq Hnd].
  change (subst_bits x (q :: qs) (o :: ob)) with (subst_bits (<[q := o]> x) qs ob).
  change (subst_bits (subst_bits (<[q := o]> x) qs ob) (q :: qs) (s :: sb))
    with (subst_bits (<[q := s]> (subst_bits (<[q := o]> x) qs ob)) qs sb).
  change (subst_bits x (q :: qs) (s :: sb)) with (subst_bits (<[q := s]> x) qs sb).
  rewrite subst_insert_commute by exact Hq.
  rewrite list_insert_insert_eq.
  apply IH; [exact Hnd|simpl in *; lia|simpl in *; lia].
Qed.

Lemma zero_on_insert qs : forall x q b,
  q ∉ qs -> zero_on qs (<[q := b]> x) = zero_on qs x.
Proof.
  induction qs as [|q' qs IH]; intros x q b Hq; [reflexivity|].
  apply not_elem_of_cons in Hq. destruct Hq as [Hne Hq].
  unfold zero_on in *. simpl. rewrite IH by exact Hq.
  rewrite nth_insert_ne by congruence. reflexivity.
Qed.

(** ** Sums over multi-indices, grouped by the bits at the targets *)

Section Grouping.
Local Open Scope R_scope.

Lemma Rsum_append (l1 l2 : list R) : Rsum (l1 ++ l2) = Rsum l1 + Rsum l2.
Proof. induction l1 as [|a l1 IH]; simpl; [ring|]. rewrite IH. ring. Qed.

Lemma Rsum_split_at (n : nat) : forall (F : list nat -> R) (q : nat),
  (q < n)%nat ->
  Rsum (map F (all_bits n))
  = Rsum (map (fun x => if (nth q x 0%nat =? 0)%nat
                        then F x + F (<[q := 1%nat]> x) else 0)
            (all_bits n)).
Proof.
  induction n as [|n IH]; intros F q Hq; [lia|].
  rewrite all_bits_S, !map_app, !Rsum_append, !map_map.
  destruct q as [|q].
  - cbn [nth Nat.eqb]. rewrite Rsum_zero, <- Rsum_plus.
    rewrite Rplus_0_r. reflexivity.
  - rewrite (IH (fun y => F (0%nat :: y)) q) by lia.
    rewrite (IH (fun y => F (1%nat :: y)) q) by lia.
    reflexivity.
Qed.

Lemma Rsum_group (n : nat) (qs : list nat) : forall (F : list nat -> R),
  NoDup qs -> Forall (fun q => (q < n)%nat) qs ->
  Rsum (map F (all_bits n))
  = Rsum (map (fun x => if zero_on qs x
                        then Rsum (map (fun sb => F (subst_bits x qs sb))
                                     (all_bits (length qs)))
                        else 0)
            (all_bits n)).
Proof.
  induction qs as [|q qs IH]; intros F Hnd Hlt.
  - apply Rsum_ext, Forall_forall. intros x _. simpl. unfold subst_bits. simpl. ring.
  - apply NoDup_cons in Hnd. destruct Hnd as [Hq Hnd].
    inversion Hlt as [|? ? Hq0 Hlt']; subst.
    rewrite (IH F Hnd Hlt').
    rewrite (Rsum_split_at n _ q Hq0).
    apply Rsum_ext.
    eapply Forall_impl; [apply all_bits_elem_length|]. simpl. intros x Hx.
    destruct (Nat.eqb_spec (nth q x 0%nat) 0) as [Hz|Hz]; [|reflexivity].
    rewrite zero_on_insert by exact Hq.
    destruct (zero_on qs x); cbn [andb]; [|ring].
    rewrite app_nil_r, map_app, Rsum_append, !map_map.
    f_equal.
    apply Rsum_ext, Forall_forall. intros sb _.
    change (subst_bits x (q :: qs) (0%nat :: sb))
      with (subst_bits (<[q := 0%nat]> x) qs sb).
    rewrite list_insert_id; [reflexivity|].
    destruct (lookup_lt_is_Some_2 x q ltac:(lia)) as [v Hv].
    rewrite Hv. f_equal. rewrite <- Hz. symmetry.
    apply nth_lookup_Some. exact Hv.
Qed.

End Grouping.

(** ** One contraction *)

Section ContractionNorm.
Local Open Scope R_scope.

(** The entry of the contracted tensor at the output multi-index [out]:
    the sum over the input bits [sb] of the gate of the state entry at
    [out] with [sb] at the targets, times the gate entry at (the bits of
    [out] at the targets, [sb]). *)
Definition contracted_entry (st gate_tensor : vector) (qs : list nat) (out : list nat)
    : C :=
  fold_right Cplus C0
    (map (fun sb =>
            Cmult (nth (flat_index (subst_bits out qs sb)) st C0)
                  (nth (flat_index (pick_bits out qs ++ sb)) gate_tensor C0))
       (all_bits (length qs))).

Lemma Csum_dot {X} (a b : X -> C) (l : list X) :
  fold_right Cplus C0 (map (fun s => Cmult (a s) (b s)) l) = dot (map a l) (map b l).
Proof. induction l as [|s l IH]; simpl; [reflexivity|]. rewrite IH. reflexivity. Qed.

Lemma nth_concat (c : nat) (M : Matrix) : forall i j,
  wf_matrix c M -> (i < length M)%nat -> (j < c)%nat ->
  nth (i * c + j) (concat M) C0 = nth j (nth i M []) C0.
Proof.
  induction M as [|r M IH]; intros i j Hwf Hi Hj; [simpl in Hi; lia|].
  inversion Hwf as [|? ? Hr Hwf']; subst. simpl concat.
  destruct i as [|i].
  - simpl. apply app_nth1. lia.
  - replace (S i * length r + j)%nat with (length r + (i * length r + j))%nat by lia.
    rewrite app_nth2_plus. simpl in Hi. apply IH; [exact Hwf'|lia|exact Hj].
Qed.

Lemma nth_matvec (M : Matrix) (v : vector) (i : nat) :
  nth i (matvec M v) C0 = dot (nth i M []) v.
Proof.
  unfold matvec. rewrite <- (map_nth (fun r => dot r v) M [] i). reflexivity.
Qed.

Lemma contracted_entry_matvec (n k : nat) (st : vector) (gate : Matrix)
    (qs x ob : list nat) :
  square (2 ^ k) gate -> length qs = k -> NoDup qs ->
  Forall (fun q => (q < n)%nat) qs -> length x = n -> ob ∈ all_bits k ->
  contracted_entry st (concat gate) qs (subst_bits x qs ob)
  = nth (flat_index ob)
      (matvec gate (map (fun sb => nth (flat_index (subst_bits x qs sb)) st C0)
                      (all_bits k)))
      C0.
Proof.
  intros [Hwf Hrows] Hk Hnd Hlt Hx Hob.
  pose proof (all_bits_elem_length k) as Hlen. rewrite Forall_forall in Hlen.
  pose proof (flat_index_lt k) as Hflat. rewrite Forall_forall in Hflat.
  unfold contracted_entry. rewrite Hk.
  rewrite pick_subst; [|exact Hnd| |rewrite (Hlen ob Hob); lia].
  2:{ eapply Forall_impl; [exact Hlt|]. simpl. intros q Hq. lia. }
  set (row := nth (flat_index ob) gate []).
  assert (Hrow : length row = (2 ^ k)%nat).
  { subst row. unfold wf_matrix in Hwf. rewrite Forall_forall in Hwf.
    apply Hwf. apply list_elem_of_In, nth_In.
    unfold nrows in Hrows. rewrite Hrows. apply Hflat. exact Hob. }
  transitivity
    (fold_right Cplus C0
       (map (fun sb => Cmult (nth (flat_index (subst_bits x qs sb)) st C0)
                             (nth (flat_index sb) row C0))
          (all_bits k))).
  - f_equal. apply map_ext_Forall, Forall_forall. intros sb Hsb.
    rewrite subst_subst; [|exact Hnd|rewrite (Hlen ob Hob); lia|rewrite (Hlen sb Hsb); lia].
    f_equal. rewrite flat_index_app, (Hlen sb Hsb).
    apply nth_concat; [exact Hwf| |apply Hflat; exact Hsb].
    unfold nrows in Hrows. rewrite Hrows. apply Hflat. exact Hob.
  - rewrite Csum_dot, (map_nth_bits k row Hrow), dot_comm, nth_matvec.
    reflexivity.
Qed.

(** A norm-preserving gate contracted at distinct targets of the register
    preserves the norm. *)
Lemma contraction_norm (n k : nat) (st : vector) (gate : Matrix) (qs : list nat) :
  length st = (2 ^ n)%nat ->
  square (2 ^ k) gate -> norm_preserving (2 ^ k) gate ->
  length qs = k -> NoDup qs -> Forall (fun q => (q < n)%nat) qs ->
  normsq (map (contracted_entry st (concat gate) qs) (all_bits n)) = normsq st.
Proof.
  intros Hst Hsq (_ & _ & Hnp) Hk Hnd Hlt.
  replace (normsq st)
    with (normsq (map (fun x => nth (flat_index x) st C0) (all_bits n)))
    by (rewrite (map_nth_bits n st Hst); reflexivity).
  rewrite !normsq_Rsum, !map_map.
  rewrite (Rsum_group n qs _ Hnd Hlt).
  rewrite (Rsum_group n qs (fun x => Cmod2 (nth (flat_index x) st C0)) Hnd Hlt).
  apply Rsum_ext.
  eapply Forall_impl; [apply all_bits_elem_length|]. cbv beta. intros x Hx.
  destruct (zero_on qs x); [|reflexivity].
  rewrite Hk.
  set (V := map (fun sb => nth (flat_index (subst_bits x qs sb)) st C0) (all_bits k)).
  assert (HV : length V = (2 ^ k)%nat) by (subst V; rewrite length_map; apply all_bits_length).
  transitivity (Rsum (map (fun ob => Cmod2 (nth (flat_index ob) (matvec gate V) C0))
                        (all_bits k))).
  - apply Rsum_ext, Forall_forall. intros ob Hob. f_equal.
    apply (contracted_entry_matvec n k); assumption.
  - rewrite <- (map_map (fun ob => nth (flat_index ob) (matvec gate V) C0) Cmod2).
    rewrite map_nth_bits.
    + rewrite <- normsq_Rsum, (Hnp V HV), normsq_Rsum. subst V.
      rewrite map_map. reflexivity.
    + rewrite matvec_length. destruct Hsq as [_ Hr]. exact Hr.
Qed.

End ContractionNorm.

(** ** The labels of [apply_gate_tensor] *)

Lemma range_0 (m : nat) : range 0 (Z.of_nat m) = map Z.of_nat (seq 0 m).
Proof.
  unfold range. rewrite Z.sub_0_r, Nat2Z.id. apply map_ext. intros k. lia.
Qed.

Lemma gate_in_labels (n k : nat) :
  map (fun i => (Z.of_nat n + i)%Z) (range 0 (Z.of_nat k)) = map Z.of_nat (seq n k).
Proof.
  rewrite range_0, map_map.
  replace (seq n k) with (seq (n + 0) k) by (f_equal; lia).
  rewrite <- map_add_seq, map_map. apply map_ext. intros i. lia.
Qed.

Lemma elem_of_labels (lo m : nat) (l : Z) :
  l ∈ map Z.of_nat (seq lo m) <-> (Z.of_nat lo <= l < Z.of_nat (lo + m))%Z.
Proof.
  rewrite list_elem_of_fmap. split.
  - intros (i & -> & Hi). apply elem_of_seq in Hi. lia.
  - intros H. exists (Z.to_nat l). split; [lia|]. apply elem_of_seq. lia.
Qed.

(** The state labels after the loop that renames the targets. *)
Definition renamed_labels (n : nat) (pairs : list (Z * Z)) (l : list Z) : list Z :=
  fold_left (fun l iq => <[Z.to_nat (snd iq) := (Z.of_nat n + fst iq)%Z]> l) pairs l.

Lemma renamed_labels_length n pairs : forall l,
  length (renamed_labels n pairs l) = length l.
Proof.
  induction pairs as [|iq pairs IH]; intros l; [reflexivity|].
  unfold renamed_labels in *. simpl. rewrite IH, length_insert. reflexivity.
Qed.

Lemma py_list_set_inside (l : list Z) (idx v : Z) :
  (0 <= idx < Z.of_nat (length l))%Z ->
  py_list_set l idx v = Ok (<[Z.to_nat idx := v]> l).
Proof.
  intros H. unfold py_list_set.
  destruct (Z.leb_spec 0 idx) as [_|]; [|lia].
  destruct (Z.ltb_spec idx (Z.of_nat (length l))) as [_|]; [|lia].
  reflexivity.
Qed.

Lemma py_list_set_loop (n : nat) (pairs : list (Z * Z)) : forall l,
  length l = n ->
  Forall (fun iq => (0 <= snd iq < Z.of_nat n)%Z) pairs ->
  fold_left
    (fun acc iq => try l <- acc in py_list_set l (snd iq) (Z.of_nat n + fst iq)%Z)
    pairs (Ok l)
  = Ok (renamed_labels n pairs l).
Proof.
  induction pairs as [|iq pairs IH]; intros l Hl Hall; [reflexivity|].
  apply Forall_cons in Hall. destruct Hall as [Hq Hall'].
  cbn [fold_left rbind]. rewrite py_list_set_inside by (rewrite Hl; exact Hq).
  rewrite IH; [reflexivity|rewrite length_insert; exact Hl|exact Hall'].
Qed.

Lemma renamed_labels_map (f : Z -> nat) n pairs : forall l,
  map f (renamed_labels n pairs l)
  = fold_left (fun acc iq => <[Z.to_nat (snd iq) := f (Z.of_nat n + fst iq)%Z]> acc)
      pairs (map f l).
Proof.
  induction pairs as [|iq pairs IH]; intros l; [reflexivity|].
  unfold renamed_labels in *. simpl. rewrite IH.
  f_equal. apply list_fmap_insert.
Qed.

Lemma renamed_labels_elem n pairs : forall l x,
  x ∈ renamed_labels n pairs l ->
  x ∈ l \/ x ∈ map (fun iq => (Z.of_nat n + fst iq)%Z) pairs.
Proof.
  induction pairs as [|iq pairs IH]; intros l x Hx; [left; exact Hx|].
  unfold renamed_labels in *. simpl in Hx. apply IH in Hx.
  destruct Hx as [Hx|Hx].
  - apply list_elem_of_lookup in Hx. destruct Hx as (p & Hp).
    destruct (Nat.eq_dec p (Z.to_nat (snd iq))) as [->|Hne].
    + destruct (lookup_lt_Some _ _ _ Hp) as []; rewrite ?length_insert in *.
      * right. simpl. rewrite list_lookup_insert_eq in Hp.
        -- inversion Hp. apply list_elem_of_here.
        -- apply lookup_lt_Some in Hp. rewrite length_insert in Hp. exact Hp.
      * right. simpl. rewrite list_lookup_insert_eq in Hp.
        -- inversion Hp. apply list_elem_of_here.
        -- apply lookup_lt_Some in Hp. rewrite length_insert in Hp. lia.
    + rewrite list_lookup_insert_ne in Hp by congruence.
      left. eapply list_elem_of_lookup_2. exact Hp.
  - right. simpl. apply list_elem_of_further. exact Hx.
Qed.

Lemma renamed_labels_keep n pairs : forall l p v,
  l !! p = Some v -> Forall (fun iq => Z.to_nat (snd iq) <> p) pairs ->
  renamed_labels n pairs l !! p = Some v.
Proof.
  induction pairs as [|iq pairs IH]; intros l p v Hp Hall; [exact Hp|].
  apply Forall_cons in Hall. destruct Hall as [Hne Hall'].
  unfold renamed_labels in *. simpl. apply IH; [|exact Hall'].
  rewrite list_lookup_insert_ne by exact Hne. exact Hp.
Qed.

(** The bit of a label under the assignment of bits to the labels
    [lo, lo + 1, ...]. *)
Lemma label_bit_seq (bits : list nat) : forall lo j,
  j < length bits ->
  label_bit (combine (map Z.of_nat (seq lo (length bits))) bits) (Z.of_nat (lo + j))
  = nth j bits 0.
Proof.
  induction bits as [|b bits IH]; intros lo j Hj; [simpl in Hj; lia|].
  cbn [length seq map combine label_bit].
  destruct j as [|j].
  - replace (lo + 0) with lo by lia. rewrite Z.eqb_refl. reflexivity.
  - destruct (Z.eqb_spec (Z.of_nat lo) (Z.of_nat (lo + S j))) as [E|_]; [lia|].
    replace (lo + S j) with (S lo + j) by lia.
    apply IH. simpl in Hj. lia.
Qed.

Lemma labels_nodup_id (l : list Z) : NoDup l -> labels_nodup l = l.
Proof.
  induction 1 as [|x l Hx _ IH]; [reflexivity|].
  unfold labels_nodup in *. cbn [foldr]. rewrite IH.
  destruct (existsb (Z.eqb x) l) eqn:E; [|reflexivity].
  apply existsb_Zeqb_elem in E. contradiction.
Qed.

Lemma labels_nodup_absorb (l1 l2 : list Z) :
  NoDup l2 -> Forall (fun x => x ∈ l2) l1 -> labels_nodup (l1 ++ l2) = l2.
Proof.
  intros Hnd Hall. induction Hall as [|x l1 Hx _ IH]; [apply labels_nodup_id, Hnd|].
  unfold labels_nodup in *. cbn [app foldr]. rewrite IH.
  apply existsb_Zeqb_elem in Hx. rewrite Hx. reflexivity.
Qed.

Lemma filter_all {X} (P : X -> Prop) `{forall x, Decision (P x)} (l : list X) :
  Forall P l -> filter P l = l.
Proof.
  induction 1 as [|x l Hx _ IH]; [reflexivity|].
  rewrite filter_cons_True by exact Hx. rewrite IH. reflexivity.
Qed.

Lemma filter_none {X} (P : X -> Prop) `{forall x, Decision (P x)} (l : list X) :
  Forall (fun x => ~ P x) l -> filter P l = [].
Proof.
  induction 1 as [|x l Hx _ IH]; [reflexivity|].
  rewrite filter_cons_False by exact Hx. exact IH.
Qed.

Lemma not_output_label (n : nat) (l : Z) :
  Is_true (negb (existsb (Z.eqb l) (range 0 (Z.of_nat n))))
  <-> ~ (0 <= l < Z.of_nat n)%Z.
Proof.
  rewrite range_0.
  destruct (existsb (Z.eqb l) (map Z.of_nat (seq 0 n))) eqn:E; simpl.
  - apply existsb_Zeqb_elem, elem_of_labels in E. split; [contradiction|]. intros H. lia.
  - split; [|intros _; exact I]. intros _ H.
    assert (H' : l ∈ map Z.of_nat (seq 0 n)) by (apply elem_of_labels; lia).
    apply existsb_Zeqb_elem in H'. congruence.
Qed.

Lemma subst_bits_of_fold (g : Z -> nat) (qsZ : list Z) : forall lo sb x,
  length sb = length qsZ ->
  (forall i, i < length qsZ -> g (Z.of_nat (lo + i)) = nth i sb 0) ->
  fold_left (fun acc iq => <[Z.to_nat (snd iq) := g (fst iq)]> acc)
    (combine (map Z.of_nat (seq lo (length qsZ))) qsZ) x
  = subst_bits x (map Z.to_nat qsZ) sb.
Proof.
  induction qsZ as [|q qsZ IH]; intros lo [|b sb] x Hlen Hg; try discriminate;
    [reflexivity|].
  cbn [length seq map combine fold_left fst snd].
  change (subst_bits x (Z.to_nat q :: map Z.to_nat qsZ) (b :: sb))
    with (subst_bits (<[Z.to_nat q := b]> x) (map Z.to_nat qsZ) sb).
  pose proof (Hg 0 ltac:(simpl; lia)) as H0. replace (lo + 0) with lo in H0 by lia.
  simpl in H0. rewrite H0.
  apply IH; [simpl in Hlen; lia|].
  intros i Hi. replace (S lo + i) with (lo + S i) by lia.
  apply (Hg (S i)). simpl. lia.
Qed.

(** [apply_gate_tensor] on targets that are distinct qubits of the
    register, for a gate with as many entries as its targets need:
    the contraction is carried out, and its entries are those above. *)
Lemma apply_gate_tensor_valid (n : nat) (st : vector) (gate : Matrix) (qsZ : list Z) :
  Forall (fun q => (0 <= q < Z.of_nat n)%Z) qsZ -> NoDup qsZ ->
  length (concat gate) = 2 ^ (2 * length qsZ) ->
  apply_gate_tensor n st gate qsZ
  = Ok (map (contracted_entry st (concat gate) (map Z.to_nat qsZ)) (all_bits n)).
Proof.
  intros Hrange Hnd Hgate.
  unfold apply_gate_tensor. rewrite Hgate, Nat.eqb_refl. cbn [negb].
  set (k := length qsZ) in *.
  set (pairs := combine (range 0 (Z.of_nat k)) qsZ).
  assert (Hpairs : Forall (fun iq => (0 <= snd iq < Z.of_nat n)%Z) pairs).
  { apply Forall_forall. intros [i q] Hin. apply list_elem_of_In, in_combine_r in Hin.
    rewrite Forall_forall in Hrange. apply Hrange, list_elem_of_In. exact Hin. }
  rewrite (py_list_set_loop n pairs) ; [|rewrite range_0, length_map, length_seq; reflexivity
                                         |exact Hpairs].
  cbn [rbind]. rewrite gate_in_labels.
  set (a_idx := renamed_labels n pairs (range 0 (Z.of_nat n))).
  set (gate_in := map Z.of_nat (seq n k)).
  assert (Hpairs_fst : Forall (fun iq => (Z.of_nat n + fst iq)%Z ∈ gate_in) pairs).
  { apply Forall_forall. intros [i q] Hin. apply list_elem_of_In, in_combine_l in Hin.
    rewrite range_0 in Hin. apply list_elem_of_In, elem_of_labels in Hin.
    apply elem_of_labels. simpl. lia. }
  assert (Hcheck : forallb (fun l => existsb (Z.eqb l) (a_idx ++ qsZ ++ gate_in))
                     (range 0 (Z.of_nat n)) = true).
  { apply forallb_forall. intros l Hl. apply existsb_Zeqb_elem.
    destruct (decide (l ∈ qsZ)) as [Hq|Hq].
    - apply elem_of_app. right. apply elem_of_app. left. exact Hq.
    - apply elem_of_app. left.
      rewrite range_0 in Hl. apply list_elem_of_In, elem_of_labels in Hl.
      apply (list_elem_of_lookup_2 _ (Z.to_nat l)).
      apply renamed_labels_keep.
      + rewrite range_0, list_lookup_fmap, lookup_seq_lt by lia. simpl. f_equal. lia.
      + apply Forall_forall. intros [i q] Hin. simpl.
        apply list_elem_of_In, in_combine_r, list_elem_of_In in Hin.
        rewrite Forall_forall in Hrange. specialize (Hrange q Hin).
        intros E. apply Hq. replace l with q by lia. exact Hin. }
  assert (Hsummed :
            labels_nodup
              (filter (fun l => Is_true (negb (existsb (Z.eqb l) (range 0 (Z.of_nat n)))))
                 (a_idx ++ qsZ ++ gate_in)) = gate_in).
  { rewrite !filter_app.
    rewrite (filter_none _ qsZ).
    2:{ eapply Forall_impl; [exact Hrange|]. cbv beta. intros q Hq Hp.
        apply not_output_label in Hp. contradiction. }
    rewrite (filter_all _ gate_in).
    2:{ apply Forall_forall. intros l Hl. apply not_output_label.
        apply elem_of_labels in Hl. lia. }
    cbn [app]. apply labels_nodup_absorb.
    - apply NoDup_fmap; [apply Nat2Z.inj'|apply NoDup_seq].
    - apply Forall_forall. intros l Hl. apply list_elem_of_filter in Hl.
      destruct Hl as [Hp Hl]. apply not_output_label in Hp.
      apply renamed_labels_elem in Hl. destruct Hl as [Hl|Hl].
      + rewrite range_0 in Hl. apply elem_of_labels in Hl. lia.
      + apply list_elem_of_fmap in Hl. destruct Hl as (iq & -> & Hin).
        rewrite Forall_forall in Hpairs_fst. apply Hpairs_fst. exact Hin. }
  unfold oe_contract. cbv zeta. rewrite Hcheck. cbn [negb]. rewrite Hsummed.
  f_equal.
  replace (length (range 0 (Z.of_nat n))) with n
    by (rewrite range_0, length_map, length_seq; reflexivity).
  replace (length gate_in) with k
    by (subst gate_in; rewrite length_map, length_seq; reflexivity).
  apply map_ext_Forall.
  eapply Forall_impl; [apply all_bits_elem_length|]. cbv beta. intros out Hout.
  unfold contracted_entry. rewrite length_map. fold k.
  f_equal. apply map_ext_Forall.
  eapply Forall_impl; [apply all_bits_elem_length|]. cbv beta. intros sb Hsb.
  set (env := combine (range 0 (Z.of_nat n) ++ gate_in) (out ++ sb)).
  assert (Henv : forall j, j < n + k ->
            label_bit env (Z.of_nat j) = nth j (out ++ sb) 0).
  { intros j Hj. subst env gate_in. rewrite range_0, <- map_app, <- seq_app.
    replace (n + k) with (length (out ++ sb)) by (rewrite length_app; lia).
    apply (label_bit_seq (out ++ sb) 0 j). rewrite length_app. lia. }
  assert (Hlow : forall j, j < n -> label_bit env (Z.of_nat j) = nth j out 0).
  { intros j Hj. rewrite Henv by lia. apply app_nth1. lia. }
  assert (Hhigh : forall i, i < k -> label_bit env (Z.of_nat (n + i)) = nth i sb 0).
  { intros i Hi. rewrite Henv by lia. rewrite <- Hout. apply app_nth2_plus. }
  f_equal; f_equal; f_equal.
  - subst a_idx. rewrite renamed_labels_map.
    replace (map (label_bit env) (range 0 (Z.of_nat n))) with out.
    + subst pairs. rewrite range_0.
      apply (subst_bits_of_fold (fun z => label_bit env (Z.of_nat n + z)%Z) qsZ 0 sb out).
      * exact Hsb.
      * intros i Hi. rewrite <- Nat2Z.inj_add. apply Hhigh. exact Hi.
    + rewrite range_0, map_map. rewrite <- (map_nth_seq 0 out) at 1. rewrite Hout.
      apply map_ext_Forall, Forall_forall. intros j Hj. apply elem_of_seq in Hj.
      symmetry. apply Hlow. lia.
  - rewrite map_app. f_equal.
    + unfold pick_bits. rewrite map_map. apply map_ext_Forall.
      eapply Forall_impl; [exact Hrange|]. cbv beta. intros q Hq.
      rewrite <- (Z2Nat.id q) at 1 by lia. apply Hlow. lia.
    + subst gate_in. rewrite map_map.
      replace (seq n k) with (seq (n + 0) k) by (f_equal; lia).
      rewrite <- map_add_seq, map_map.
      etransitivity; [|exact (map_nth_seq 0 sb)]. rewrite Hsb.
      apply map_ext_Forall, Forall_forall. intros i Hi. apply elem_of_seq in Hi.
      apply Hhigh. lia.
Qed.

(** ** The simulator and the run *)

Lemma get_gate_rows name ps M : get_gate name ps = Ok M -> nrows M = ncols M.
Proof.
  unfold get_gate, GATE_MAP.
  repeat match goal with
         | |- context [String.eqb ?a ?b] => destruct (String.eqb a b)
         end;
    intros H; inversion H; subst; reflexivity.
Qed.

Lemma get_gate_square name ps M :
  get_gate name ps = Ok M -> exists d, square d M /\ norm_preserving d M.
Proof.
  intros H. destruct (get_gate_norm_preserving _ _ _ H) as (d & Hnp).
  exists d. split; [|exact Hnp]. destruct Hnp as (Hwf & Hne & _).
  split; [exact Hwf|]. rewrite (get_gate_rows _ _ _ H). apply ncols_wf; assumption.
Qed.

(** The targets of a gate are distinct qubits of the register. *)
Definition distinct_targets (n : nat) (qs : list Z) : Prop :=
  Forall (fun q => (0 <= q < Z.of_nat n)%Z) qs /\ NoDup qs.

Section TensorRun.
Local Open Scope R_scope.

Lemma apply_gate_tensor_norm (n : nat) (st st' : vector) (gate : Matrix) (qs : list Z)
    (d : nat) :
  square d gate -> norm_preserving d gate -> distinct_targets n qs ->
  length st = (2 ^ n)%nat ->
  apply_gate_tensor n st gate qs = Ok st' ->
  normsq st' = normsq st /\ length st' = (2 ^ n)%nat.
Proof.
  intros Hsq Hnp [Hrange Hnd] Hst Happ.
  destruct (Nat.eqb_spec (length (concat gate)) (2 ^ (2 * length qs))) as [Hlen|Hlen].
  - rewrite (apply_gate_tensor_valid n st gate qs Hrange Hnd Hlen) in Happ.
    inversion Happ; subst st'. clear Happ.
    assert (Hd : d = (2 ^ length qs)%nat).
    { destruct Hsq as [Hwf Hr]. rewrite (wf_matrix_size d gate Hwf), Hr in Hlen.
      replace (2 * length qs)%nat with (length qs + length qs)%nat in Hlen by lia.
      rewrite Nat.pow_add_r in Hlen.
      pose proof (pow2_pos (length qs)). nia. }
    subst d. split.
    + apply (contraction_norm n (length qs)); try assumption.
      * rewrite length_map. reflexivity.
      * apply NoDup_fmap_2_strong; [|exact Hnd].
        intros a b Ha Hb E. rewrite Forall_forall in Hrange.
        pose proof (Hrange a Ha). pose proof (Hrange b Hb). lia.
      * apply Forall_map. eapply Forall_impl; [exact Hrange|]. cbv beta. intros q Hq. lia.
    + rewrite length_map. apply all_bits_length.
  - unfold apply_gate_tensor in Happ.
    destruct (Nat.eqb_spec (length (concat gate)) (2 ^ (2 * length qs))); [contradiction|].
    discriminate.
Qed.

(** A gate of the library with its targets. *)
Definition library_tuple (n : nat) (gq : Matrix * list Z) : Prop :=
  (exists d, square d (fst gq) /\ norm_preserving d (fst gq))
  /\ distinct_targets n (snd gq).

Lemma tn_loop_stuck (n : nat) (tuples : list (Matrix * list Z)) (r : result vector) :
  (forall st, r <> Ok st) ->
  fold_left
    (fun acc gq =>
       try state_tensor <- acc in
       apply_gate_tensor n state_tensor (fst gq) (snd gq))
    tuples r = r.
Proof.
  intros Hr. induction tuples as [|gq tuples IH]; [reflexivity|].
  cbn [fold_left]. destruct r as [st| |]; [exfalso; eapply Hr; reflexivity| |]; exact IH.
Qed.

Lemma tn_loop_norm (n : nat) (tuples : list (Matrix * list Z)) : forall st0 st,
  Forall (library_tuple n) tuples -> length st0 = (2 ^ n)%nat ->
  fold_left
    (fun acc gq =>
       try state_tensor <- acc in
       apply_gate_tensor n state_tensor (fst gq) (snd gq))
    tuples (Ok st0) = Ok st ->
  normsq st = normsq st0 /\ length st = (2 ^ n)%nat.
Proof.
  induction tuples as [|gq tuples IH]; intros st0 st Hall Hlen Hrun.
  - inversion Hrun; subst. split; [reflexivity|exact Hlen].
  - apply Forall_cons in Hall. destruct Hall as [[(d & Hsq & Hnp) Hq] Hall].
    cbn [fold_left rbind] in Hrun.
    destruct (apply_gate_tensor n st0 (fst gq) (snd gq)) as [st1| |] eqn:Hstep.
    + destruct (apply_gate_tensor_norm n st0 st1 _ _ d Hsq Hnp Hq Hlen Hstep) as [Hn1 Hl1].
      destruct (IH st1 st Hall Hl1 Hrun) as [Hn Hl]. split; [lra|exact Hl].
    + rewrite tn_loop_stuck in Hrun by discriminate. discriminate.
    + rewrite tn_loop_stuck in Hrun by discriminate. discriminate.
Qed.

(** [tensor_network_simulator] on library gates with distinct targets: a
    returned vector has norm 1, and so has the tensor after each gate. *)
Lemma tensor_network_simulator_norm (n : nat) (tuples : list (Matrix * list Z))
    (st : vector) :
  Forall (library_tuple n) tuples ->
  tensor_network_simulator n tuples = Ok st ->
  normsq st = 1
  /\ forall pre post, tuples = pre ++ post ->
       exists st_pre, tensor_network_simulator n pre = Ok st_pre /\ normsq st_pre = 1.
Proof.
  intros Hall Hrun.
  assert (H0 : normsq (<[0%nat := C1]> (replicate (2 ^ n) C0)) = 1)
    by (apply (normsq_zero_state n)).
  assert (Hl0 : length (<[0%nat := C1]> (replicate (2 ^ n) C0)) = (2 ^ n)%nat)
    by (rewrite length_insert, length_replicate; reflexivity).
  unfold tensor_network_simulator in *. split.
  - destruct (tn_loop_norm n tuples _ st Hall Hl0 Hrun) as [Hn _]. lra.
  - intros pre post ->. rewrite fold_left_app in Hrun.
    apply Forall_app in Hall. destruct Hall as [Hpre _].
    destruct (fold_left _ pre _) as [st_pre| |] eqn:Hp.
    + exists st_pre. split; [reflexivity|].
      destruct (tn_loop_norm n pre _ st_pre Hpre Hl0 Hp) as [Hn _]. lra.
    + rewrite tn_loop_stuck in Hrun by discriminate. discriminate.
    + rewrite tn_loop_stuck in Hrun by discriminate. discriminate.
Qed.

End TensorRun.

(** The tensor-network branch of [run] on a built circuit, in both modes:
    it resolves the matrices of [executed] and hands them to the
    simulator; the session's vector is assigned when the simulator
    returns. *)
Lemma run_built_tn h0 n sparse st0 data optimize_flag :
  let w := add_gates (h0, mkCircuit n sparse true st0 []) data in
  let sim := try gate_tuples <- tn_gate_tuples (executed optimize_flag data) in
             tensor_network_simulator n gate_tuples in
  exists h',
    run optimize_flag (fst w) (snd w)
    = match sim with
      | Ok st => (h', set_state (snd w) st, Ok st)
      | Raise e => (h', snd w, Raise e)
      | OutOfFuel => (h', snd w, OutOfFuel)
      end.
Proof.
  intros w sim.
  pose proof (built_program h0 n sparse true st0 data) as Hp.
  pose proof (built_fresh h0 n sparse true st0 data) as Hf.
  simpl in Hp, Hf. fold w in Hp, Hf.
  assert (Hn : n_qubits (snd w) = n) by (subst w; rewrite add_gates_spec; reflexivity).
  assert (Ht : use_tensor_network (snd w) = true)
    by (subst w; rewrite add_gates_spec; reflexivity).
  destruct optimize_flag.
  - destruct (optimize_fresh _ _ Hf) as (h' & ids' & Hopt & Hnodes & _).
    exists h'. unfold run. rewrite Hopt, Ht, Hn, Hnodes, Hp.
    subst sim. unfold executed. reflexivity.
  - exists (fst w). unfold run. rewrite Ht, Hn, Hp. subst sim. unfold executed.
    reflexivity.
Qed.

Lemma tn_gate_tuples_app (pre post : list GateNode) (tuples : list (Matrix * list Z)) :
  tn_gate_tuples (pre ++ post) = Ok tuples ->
  exists tpre tpost,
    tn_gate_tuples pre = Ok tpre /\ tn_gate_tuples post = Ok tpost
    /\ tuples = tpre ++ tpost.
Proof.
  revert tuples. induction pre as [|g pre IH]; intros tuples H.
  - exists [], tuples. repeat split. exact H.
  - cbn [app tn_gate_tuples] in *.
    destruct (get_gate (gate_name g) (params g)) as [M| |]; try discriminate.
    cbn [rbind] in *.
    destruct (tn_gate_tuples (pre ++ post)) as [t| |] eqn:E; try discriminate.
    cbn [rbind] in H. inversion H; subst tuples.
    destruct (IH t eq_refl) as (tpre & tpost & -> & Hpost & ->).
    exists ((M, qubits g) :: tpre), tpost. repeat split. exact Hpost.
Qed.

Lemma tn_gate_tuples_library (n : nat) (nodes : list GateNode) :
  forall tuples,
  Forall (fun g => distinct_targets n (qubits g)) nodes ->
  tn_gate_tuples nodes = Ok tuples -> Forall (library_tuple n) tuples.
Proof.
  induction nodes as [|g nodes IH]; intros tuples Hall H.
  - inversion H. constructor.
  - apply Forall_cons in Hall. destruct Hall as [Hg Hall].
    cbn [tn_gate_tuples] in H.
    destruct (get_gate (gate_name g) (params g)) as [M| |] eqn:Hget; try discriminate.
    cbn [rbind] in H.
    destruct (tn_gate_tuples nodes) as [t| |]; try discriminate.
    cbn [rbind] in H. inversion H; subst tuples.
    constructor; [|apply IH; [exact Hall|reflexivity]].
    split; [apply (get_gate_square _ _ _ Hget)|exact Hg].
Qed.

Lemma optimized_nodes_keys (l : list GateNode) :
  sublist (map gate_key (optimized_nodes l)) (map gate_key l).
Proof.
  unfold optimized_nodes. rewrite map_map.
  etransitivity.
  - apply (merge_pass_keys (fun g : GateNode => g)).
  - apply sublist_map, cancel_pass_sublist.
Qed.

Lemma executed_targets (P : list Z -> Prop) optimize_flag (data : list gate_data) :
  Forall (fun d => P (snd (fst d))) data ->
  Forall (fun g => P (qubits g)) (executed optimize_flag data).
Proof.
  intros H.
  assert (H0 : Forall (fun g => P (qubits g)) (map node_of data)).
  { apply Forall_map. eapply Forall_impl; [exact H|]. intros [[name qs] ps]. simpl. tauto. }
  unfold executed. destruct optimize_flag; [|exact H0].
  pose proof (optimized_nodes_keys (map node_of data)) as Hs.
  apply (sublist_map snd) in Hs.
  apply Forall_forall. intros g Hg.
  assert (Hin : qubits g ∈ map snd (map gate_key (map node_of data))).
  { eapply elem_of_sublist; [|exact Hs].
    apply list_elem_of_fmap. exists (gate_key g). split; [reflexivity|].
    apply list_elem_of_fmap. exists g. split; [reflexivity|exact Hg]. }
  apply list_elem_of_fmap in Hin. destruct Hin as (key & Hq & Hin).
  apply list_elem_of_fmap in Hin. destruct Hin as (g0 & -> & Hin0).
  rewrite Forall_forall in H0. simpl in Hq. rewrite Hq. apply H0. exact Hin0.
Qed.

Lemma tn_gate_tuples_ends (nodes : list GateNode) : tn_gate_tuples nodes <> OutOfFuel.
Proof.
  induction nodes as [|g nodes IH]; [discriminate|].
  cbn [tn_gate_tuples].
  pose proof (get_gate_ends (gate_name g) (params g)) as Hg.
  destruct (get_gate (gate_name g) (params g)) as [M| |]; try discriminate; [|congruence].
  cbn [rbind]. destruct (tn_gate_tuples nodes) as [t| |]; try discriminate. congruence.
Qed.

Lemma apply_gate_tensor_ends n st gate qs : apply_gate_tensor n st gate qs <> OutOfFuel.
Proof.
  unfold apply_gate_tensor.
  destruct (negb _); [discriminate|].
  assert (H : forall pairs (r : result (list Z)),
            r <> OutOfFuel ->
            fold_left
              (fun acc iq =>
                 try l <- acc in py_list_set l (snd iq) (Z.of_nat n + fst iq)%Z)
              pairs r <> OutOfFuel).
  { induction pairs as [|iq pairs IH]; intros r Hr; [exact Hr|].
    cbn [fold_left]. apply IH. destruct r as [l| |]; try discriminate; [|congruence].
    cbn [rbind]. unfold py_list_set.
    repeat match goal with |- context [if ?b then _ else _] => destruct b end;
      discriminate. }
  specialize (H (combine (range 0 (Z.of_nat (length qs))) qs)
                (Ok (range 0 (Z.of_nat n))) ltac:(discriminate)).
  destruct (fold_left _ _ _) as [l| |]; try discriminate; [|congruence].
  cbn [rbind]. unfold oe_contract. cbv zeta.
  destruct (negb _); discriminate.
Qed.

Lemma tensor_network_simulator_ends n tuples :
  tensor_network_simulator n tuples <> OutOfFuel.
Proof.
  unfold tensor_network_simulator.
  assert (H : forall r : result vector, r <> OutOfFuel ->
            fold_left
              (fun acc gq =>
                 try state_tensor <- acc in
                 apply_gate_tensor n state_tensor (fst gq) (snd gq))
              tuples r <> OutOfFuel).
  { induction tuples as [|gq tuples IH]; intros r Hr; [exact Hr|].
    cbn [fold_left]. apply IH. destruct r as [st| |]; try discriminate; [|congruence].
    cbn [rbind]. apply apply_gate_tensor_ends. }
  apply H. discriminate.
Qed.

(** C6, as the code has it.  For a circuit built with [add_gate], with or
    without optimization.  On the state-vector backend, under either
    construction policy: the run ends (the loops of the model do not
    exhaust their fuel); the session's vector after the run has squared
    norm 1, also when an exception stopped the run; a returned vector is
    that vector; when the run completes, the vector after each gate
    application of the executed sequence has squared norm 1; and the loop
    of [run], started on any basis state, leaves a vector of squared norm 1
    whatever gates it is given.  On the tensor-contraction backend, when
    the targets of every gate are distinct qubits of the register: the run
    ends; a returned vector is the session's vector and has squared norm 1,
    and so has the tensor after each gate of the executed sequence.
    Floats are real numbers here, so the norm is exactly 1. *)
Theorem run_preserves_unit_norm (h0 : heap) (n : nat) (sparse : bool) (st0 : vector)
    (data : list gate_data) (optimize_flag : bool) :
  (let w := add_gates (h0, mkCircuit n sparse false st0 []) data in
   let r := run optimize_flag (fst w) (snd w) in
   snd r <> OutOfFuel
   /\ normsq (state (snd (fst r))) = 1%R
   /\ (forall st, snd r = Ok st -> st = state (snd (fst r)) /\ normsq st = 1%R)
   /\ (forall st pre post,
         snd r = Ok st -> executed optimize_flag data = pre ++ post ->
         exists st_pre,
           sv_loop n sparse pre (zero_state n) = (Ok tt, st_pre)
           /\ normsq st_pre = 1%R)
   /\ (forall k gates_to_run,
         k < 2 ^ n ->
         normsq (snd (sv_loop n sparse gates_to_run (basis (2 ^ n) k))) = 1%R))
  /\ (Forall (fun d => distinct_targets n (snd (fst d))) data ->
      let w := add_gates (h0, mkCircuit n sparse true st0 []) data in
      let r := run optimize_flag (fst w) (snd w) in
      snd r <> OutOfFuel
      /\ (forall st,
            snd r = Ok st ->
            st = state (snd (fst r))
            /\ normsq st = 1%R
            /\ forall pre post,
                 executed optimize_flag data = pre ++ post ->
                 exists tuples st_pre,
                   tn_gate_tuples pre = Ok tuples
                   /\ tensor_network_simulator n tuples = Ok st_pre
                   /\ normsq st_pre = 1%R)).
Proof.
  split; [exact (state_vector_run_preserves_unit_norm h0 n sparse st0 data optimize_flag)|].
  intros Hdata w r.
  destruct (run_built_tn h0 n sparse st0 data optimize_flag) as (h' & Hrun).
  fold w in Hrun. cbv zeta in Hrun. fold r in Hrun.
  pose proof (executed_targets (distinct_targets n) optimize_flag data Hdata) as Hex.
  pose proof (tn_gate_tuples_ends (executed optimize_flag data)) as Hends.
  destruct (tn_gate_tuples (executed optimize_flag data)) as [tuples| |] eqn:Htuples;
    [|rewrite Hrun; cbn [rbind snd]; split; [discriminate|intros st; discriminate]
     |congruence].
  cbn [rbind] in Hrun.
  pose proof (tensor_network_simulator_ends n tuples) as Hsim_ends.
  pose proof (tn_gate_tuples_library n _ tuples Hex Htuples) as Hlib.
  destruct (tensor_network_simulator n tuples) as [st_end| |] eqn:Hsim;
    [|rewrite Hrun; cbn [snd]; split; [discriminate|intros st; discriminate]
     |congruence].
  rewrite Hrun. cbn [fst snd]. split; [discriminate|].
  intros st Hst. inversion Hst; subst st_end. clear Hst.
  destruct (tensor_network_simulator_norm n tuples st Hlib Hsim) as [Hnorm Hpre].
  split; [reflexivity|]. split; [exact Hnorm|].
  intros pre post Hsplit. rewrite Hsplit in Htuples.
  destruct (tn_gate_tuples_app pre post tuples Htuples) as (tpre & tpost & Htp & _ & Htu).
  destruct (Hpre tpre tpost Htu) as (st_pre & Hsp & Hnp).
  exists tpre, st_pre. split; [exact Htp|]. split; [exact Hsp|exact Hnp].
Qed.

Lemma run_preserves_unit_norm_witness :
  let w := add_gates ([], mkCircuit 2 false true (zero_state 2) [])
             [("X"%string, [0%Z], []); ("CNOT"%string, [0%Z; 1%Z], [])] in
  let r := run true (fst w) (snd w) in
  snd r = Ok [C0; C0; C0; C1] /\ normsq [C0; C0; C0; C1] = 1%R.
Proof.
  assert (Hrun :
            snd (run true
                   (fst (add_gates ([], mkCircuit 2 false true (zero_state 2) [])
                           [("X"%string, [0%Z], []); ("CNOT"%string, [0%Z; 1%Z], [])]))
                   (snd (add_gates ([], mkCircuit 2 false true (zero_state 2) [])
                           [("X"%string, [0%Z], []); ("CNOT"%string, [0%Z; 1%Z], [])])))
            = Ok [C0; C0; C0; C1]).
  { vm_compute. f_equal. vector_eq. }
  cbv zeta. split; [exact Hrun|].
  destruct (run_preserves_unit_norm [] 2 false (zero_state 2)
              [("X"%string, [0%Z], []); ("CNOT"%string, [0%Z; 1%Z], [])] true)
    as [_ Htn].
  destruct Htn as [_ Hok].
  - constructor; [|constructor; [|constructor]].
    + split; [constructor; [lia|constructor]|apply NoDup_singleton].
    + split; [constructor; [lia|constructor; [lia|constructor]]|].
      apply NoDup_cons. split; [|apply NoDup_singleton].
      intros H. apply list_elem_of_singleton in H. discriminate.
  - destruct (Hok _ Hrun) as (_ & Hnorm & _). exact Hnorm.
Defined.
